(** * bes_log2bin: serial capture pipeline

    A shallow embedding of [log2bin_script.py] (the capture program with
    the heartbeat register and the supervising main loop; the register,
    the callbacks and the supervising loop of [log2bin_copy.py] are the
    same), of [bes_log_to_bin_script.py] (its callbacks and stop event,
    its writer thread, the parsing of its port configuration string)
    and of the time stamps the writer of [log2bin_copy.py] puts before
    the lines of the log.

    Conventions of the embedding.
    - [time.time()] is an integer number of milliseconds; [seconds n] is
      the source's float constant [n.0].
    - Threads are interleaved at the granularity of one loop iteration:
      one step of the writer thread is one pass through the open-retry
      loop or through the [while True] loop of [writer_thread_func].
    - The operating system is a file at the output path, a table of file
      handles, and a fault script: every system call takes the next entry
      of the script, [None] (or an exhausted script) meaning success.
      Buffering is not modelled: a successful [write] reaches the file at
      once, so that the content of the file in the embedding is what the
      file holds once the buffer of the file object has been written
      out.
    - When [writer_thread_func] returns, its frame is released, and
      CPython closes the file object that only the local [file_handle]
      still referred to; a failure of this close is ignored.
    - The main thread of [log2bin_script.py] is embedded twice: [act]
      and [run] interleave the callbacks and the writer thread with the
      first block of the supervising loop alone (the check of
      [writer_thread.is_alive()]); [Main.event] and [Main.execute] run
      the whole loop body, with the heartbeat check, its blocking [put]
      and its [join], and keep the writer threads that were replaced
      while they were alive.
    - Every side effect that leaves the process (system calls, lines on
      stderr, sleeps) is appended to one trace, in program order.
    - f-strings are constructors of [Msg] carrying the interpolated
      values; lines printed to stdout are not recorded. *)

From Stdlib Require Import ZArith List Bool String Lia.
Import ListNotations.
Local Open Scope Z_scope.

Set Implicit Arguments.

(** ** Bytes, time, exceptions, messages *)

Definition bytes := list Byte.byte.

(** [len(data)] *)
Definition len (data : bytes) : Z := Z.of_nat (List.length data).

Definition seconds (n : Z) : Z := 1000 * n.

Inductive Exn : Type :=
| QueueEmpty                      (* queue.Empty *)
| IOError (text : string)         (* IOError / OSError raised by the OS *)
| MaxRetriesReached (cause : Exn) (* IOError(f"无法打开输出文件，已达到最大重试次数: {e}") *)
| OtherException (text : string). (* any other subclass of Exception *)

(** [except IOError] matches exactly these. *)
Definition is_IOError (e : Exn) : bool :=
  match e with
  | IOError _ | MaxRetriesReached _ => true
  | QueueEmpty | OtherException _ => false
  end.

Definition is_QueueEmpty (e : Exn) : bool :=
  match e with QueueEmpty => true | _ => false end.

#[local] Set Warnings "-register-all".

Inductive Msg : Type :=
| MsgQueueFull
    (* "警告：Python 数据队列已满，可能丢失数据！" *)
| MsgDllError (error_code : Z) (error_message : string)
    (* f"[DLL ERROR] Code: {error_code}, Message: {error_message}" *)
| MsgErrorCallbackException (e : Exn)
    (* f"错误：在错误回调中发生异常: {e}" *)
| MsgOpenFailed (retry_count max_retry_count : Z) (e : Exn)
    (* f"错误：打开输出文件失败 (尝试 {retry_count}/{max_retry_count}): {e}" *)
| MsgFlushFailed (e : Exn)
    (* f"警告：文件刷新失败: {e}" *)
| MsgWriteFailed (e : Exn)
    (* f"错误：文件写入失败: {e}" *)
| MsgReopenFailed (reopen_error : Exn)
    (* f"错误：无法重新打开文件: {reopen_error}" *)
| MsgUnknownException (e : Exn)
    (* f"错误：写入线程发生未知异常: {e}" *)
| MsgInitFailed (e : Exn)
    (* f"错误：写入线程初始化失败: {e}" *)
| MsgDeadButRunning (last_error : option Msg)
    (* f"错误：写入线程已终止，但状态显示仍在运行。最后错误: {status['error']}" *)
| MsgDead (last_error : option Msg)
    (* f"错误：写入线程已终止。最后错误: {status['error']}" *)
| MsgHeartbeatTimeout (last_error : option Msg).
    (* f"错误：写入线程心跳超时。最后错误: {status['error']}" *)

(** ** [class WriterThreadStatus] *)

Module WriterThreadStatus.

Record t : Type := mk {
  running : bool;
  error : option Msg;
  bytes_written : Z;
  last_heartbeat : Z;
  lock : bool  (* threading.Lock: true while held *)
}.

(** [__init__] *)
Definition init : t :=
  {| running := false; error := None; bytes_written := 0;
     last_heartbeat := 0; lock := false |}.

(** The primitive operations a method performs on the object. *)
Inductive Op : Type :=
| Acquire
| Release
| StoreRunning (b : bool)
| StoreError (e : Msg)
| StoreBytesWritten (n : Z)
| StoreLastHeartbeat (now : Z).

Definition exec (self : t) (o : Op) : t :=
  match o with
  | Acquire => mk (running self) (error self) (bytes_written self) (last_heartbeat self) true
  | Release => mk (running self) (error self) (bytes_written self) (last_heartbeat self) false
  | StoreRunning b => mk b (error self) (bytes_written self) (last_heartbeat self) (lock self)
  | StoreError e => mk (running self) (Some e) (bytes_written self) (last_heartbeat self) (lock self)
  | StoreBytesWritten n => mk (running self) (error self) n (last_heartbeat self) (lock self)
  | StoreLastHeartbeat now => mk (running self) (error self) (bytes_written self) now (lock self)
  end.

(** [if x is not None: self.f = x] *)
Definition if_not_None {A} (x : option A) (store : A -> Op) : list Op :=
  match x with Some v => [store v] | None => [] end.

(** The body of [update], statement by statement; [now] is the value
    [time.time()] returns inside the [with self.lock] block. *)
Definition update_ops (now : Z) (running : option bool) (error : option Msg)
    (bytes_written : option Z) : list Op :=
  [Acquire]
    ++ if_not_None running StoreRunning
    ++ if_not_None error StoreError
    ++ if_not_None bytes_written StoreBytesWritten
    ++ [StoreLastHeartbeat now; Release].

Definition update (self : t) (now : Z) (running : option bool)
    (error : option Msg) (bytes_written : option Z) : t :=
  fold_left exec (update_ops now running error bytes_written) self.

(** [get_status]: the dictionary is a snapshot of the four fields. *)
Definition get_status (self : t) : t := exec (exec self Acquire) Release.

(** [is_alive(timeout_seconds)] called at time [now]. *)
Definition is_alive (self : t) (now : Z) (timeout_seconds : Z) : bool :=
  running self && (now - last_heartbeat self <? timeout_seconds).

(** Every store of a sequence of operations happens with the lock held
    ([held] is the state of the lock before the sequence). *)
Fixpoint stores_guarded (held : bool) (ops : list Op) : bool :=
  match ops with
  | [] => true
  | Acquire :: ops' => negb held && stores_guarded true ops'
  | Release :: ops' => held && stores_guarded false ops'
  | _ :: ops' => held && stores_guarded held ops'
  end.

End WriterThreadStatus.

(** ** [queue.Queue] *)

Module Queue.

Record t (A : Type) : Type := mk { maxsize : Z; items : list A }.
Arguments mk {A} _ _.
Arguments maxsize {A} _.
Arguments items {A} _.

(** [Queue(maxsize=n)] *)
Definition new {A} (n : Z) : t A := mk n [].

Definition qsize {A} (q : t A) : Z := Z.of_nat (List.length (items q)).

Definition empty {A} (q : t A) : bool :=
  match items q with [] => true | _ => false end.

(** [full]: [0 < maxsize <= qsize] *)
Definition full {A} (q : t A) : bool :=
  (0 <? maxsize q) && (maxsize q <=? qsize q).

(** [put_nowait(x)]: [None] is [raise queue.Full]. *)
Definition put_nowait {A} (q : t A) (x : A) : option (t A) :=
  if full q then None else Some (mk (maxsize q) (items q ++ [x])).

(** [put(x)] with no timeout: [None] means the caller stays blocked
    until a consumer frees a slot. *)
Definition put {A} (q : t A) (x : A) : option (t A) := put_nowait q x.

(** [get(timeout=...)]: [None] is [raise queue.Empty] once the timeout
    has passed with nothing queued. *)
Definition get {A} (q : t A) : option (A * t A) :=
  match items q with
  | [] => None
  | x :: rest => Some (x, mk (maxsize q) rest)
  end.

End Queue.

(** ** The process environment *)

Definition handle := nat.

Inductive Mode : Type :=
| WB  (* 'wb': create, or truncate an existing file *)
| AB. (* 'ab': create, or keep an existing file and write at its end *)

(** What leaves the process, in program order. *)
Inductive Effect : Type :=
| SysOpen (mode : Mode) (result : Exn + handle)
| SysWrite (h : handle) (data : bytes) (result : option Exn)
| SysFlush (h : handle) (result : option Exn)
| SysClose (h : handle) (result : option Exn)
| Stderr (line : Msg)
| Sleep (duration : Z).

(** An entry of [data_queue]: a chunk, or [stop_writer_signal = None]. *)
Definition item := option bytes.
Definition stop_writer_signal : item := None.

Record World : Type := mkWorld {
  data_queue : Queue.t item;
  writer_status : WriterThreadStatus.t;
  disk : option bytes;             (* the file at the output path, if any *)
  handles : list bool;             (* handle [h] is open iff [nth h] is true *)
  faults : list (option Exn);      (* outcome of the next system calls *)
  trace : list Effect
}.

Definition set_data_queue (q : Queue.t item) (w : World) : World :=
  mkWorld q (writer_status w) (disk w) (handles w) (faults w) (trace w).
Definition set_writer_status (s : WriterThreadStatus.t) (w : World) : World :=
  mkWorld (data_queue w) s (disk w) (handles w) (faults w) (trace w).
Definition set_disk (d : option bytes) (w : World) : World :=
  mkWorld (data_queue w) (writer_status w) d (handles w) (faults w) (trace w).
Definition set_handles (hs : list bool) (w : World) : World :=
  mkWorld (data_queue w) (writer_status w) (disk w) hs (faults w) (trace w).
Definition set_faults (fs : list (option Exn)) (w : World) : World :=
  mkWorld (data_queue w) (writer_status w) (disk w) (handles w) fs (trace w).
Definition emit (e : Effect) (w : World) : World :=
  mkWorld (data_queue w) (writer_status w) (disk w) (handles w) (faults w)
          (trace w ++ [e]).

(** [data_queue = queue.Queue(maxsize=4096)], [writer_status =
    WriterThreadStatus()], before anything ran. *)
Definition boot (existing_file : option bytes) (script : list (option Exn)) : World :=
  {| data_queue := Queue.new 4096;
     writer_status := WriterThreadStatus.init;
     disk := existing_file;
     handles := [];
     faults := script;
     trace := [] |}.

Definition is_open (h : handle) (w : World) : bool := nth h (handles w) false.

Fixpoint mark_closed (h : handle) (hs : list bool) : list bool :=
  match hs, h with
  | [], _ => []
  | _ :: rest, O => false :: rest
  | b :: rest, S h' => b :: mark_closed h' rest
  end.

(** The next entry of the fault script. *)
Definition next_fault (w : World) : option Exn * World :=
  match faults w with
  | [] => (None, w)
  | f :: rest => (f, set_faults rest w)
  end.

Definition file_bytes (w : World) : bytes :=
  match disk w with Some b => b | None => [] end.

(** [open(filename, mode)] *)
Definition sys_open (mode : Mode) (w : World) : World * (Exn + handle) :=
  let (f, w) := next_fault w in
  match f with
  | Some e => (emit (SysOpen mode (inl e)) w, inl e)
  | None =>
      let h := List.length (handles w) in
      let content := match mode with WB => [] | AB => file_bytes w end in
      (emit (SysOpen mode (inr h))
         (set_handles (handles w ++ [true]) (set_disk (Some content) w)),
       inr h)
  end.

Definition closed_file : Exn := OtherException "ValueError: I/O operation on closed file".

(** [f.write(data)] *)
Definition sys_write (h : handle) (data : bytes) (w : World) : World * option Exn :=
  if is_open h w then
    let (f, w) := next_fault w in
    match f with
    | Some e => (emit (SysWrite h data (Some e)) w, Some e)
    | None => (emit (SysWrite h data None)
                 (set_disk (Some (file_bytes w ++ data)) w), None)
    end
  else (w, Some closed_file).

(** [f.flush()] *)
Definition sys_flush (h : handle) (w : World) : World * option Exn :=
  if is_open h w then
    let (f, w) := next_fault w in
    (emit (SysFlush h f) w, f)
  else (w, Some closed_file).

(** [f.close()]: closing a closed file does nothing; a failing close
    still releases the handle. *)
Definition sys_close (h : handle) (w : World) : World * option Exn :=
  if is_open h w then
    let (f, w) := next_fault w in
    (emit (SysClose h f) (set_handles (mark_closed h (handles w)) w), f)
  else (w, None).

(** ** The two callbacks of [log2bin_script.py] *)

(** A C pointer: [None] is NULL, otherwise the memory it points to, by
    offset. *)
Definition pointer := option (nat -> Byte.byte).

(** [bytes(buffer_ptr[:length])] *)
Definition slice (memory : nat -> Byte.byte) (length : Z) : bytes :=
  map memory (seq 0 (Z.to_nat length)).

(** A pointer to a buffer that holds [data]. *)
Definition bytes_at (data : bytes) : pointer := Some (fun i => nth i data Byte.x00).

(** [py_data_callback(user_data_ptr, buffer_ptr, length)] *)
Definition py_data_callback (buffer_ptr : pointer) (length : Z) (w : World) : World :=
  match buffer_ptr with
  | Some memory =>
      if 0 <? length then
        let data_bytes := slice memory length in
        match Queue.put_nowait (data_queue w) (Some data_bytes) with
        | Some q => set_data_queue q w
        | None => emit (Stderr MsgQueueFull) w
        end
      else w
  | None => w
  end.

(** [error_message_ptr.decode(...) if error_message_ptr else "N/A"]: a
    NULL pointer and an empty message are both false. *)
Definition message_or_NA (error_message_ptr : option string) : string :=
  match error_message_ptr with
  | Some m => if (m =? "")%string then "N/A"%string else m
  | None => "N/A"%string
  end.

(** [py_error_callback(user_data_ptr, error_code, error_message_ptr)];
    [raised] is the exception, if any, that the body of the [try]
    raises (its [print]), [handler_raised] the one that the [print] of
    the handler raises; that one leaves the callback, and ctypes drops
    it. *)
Definition py_error_callback (error_code : Z) (error_message_ptr : option string)
    (raised handler_raised : option Exn) (w : World) : World :=
  match raised with
  | None =>
      let error_message := message_or_NA error_message_ptr in
      emit (Stderr (MsgDllError error_code error_message)) w
  | Some e =>
      match handler_raised with
      | None => emit (Stderr (MsgErrorCallbackException e)) w
      | Some _ => w
      end
  end.

(** ** [writer_thread_func] *)

Module Writer.

Record Locals : Type := mkLocals {
  written_bytes_total : Z;
  last_heartbeat : Z;
  last_flush : Z;
  retry_count : Z;
  file_handle : option handle
}.

Definition heartbeat_interval : Z := seconds 1.
Definition flush_interval : Z := seconds 5.
Definition max_retry_count : Z := 3.

Record Frame : Type := mkFrame { env : World; locals : Locals }.

(** Statements: they change the frame and either complete with a value
    or raise. *)
Definition M (A : Type) : Type := Frame -> Frame * (Exn + A).

Definition ret {A} (a : A) : M A := fun f => (f, inr a).
Definition raise {A} (e : Exn) : M A := fun f => (f, inl e).
Definition bind {A B} (m : M A) (k : A -> M B) : M B :=
  fun f => let (f', r) := m f in
           match r with inl e => (f', inl e) | inr a => k a f' end.
(** [try: body  except Exception as e: handler e] *)
Definition try_except {A} (body : M A) (handler : Exn -> M A) : M A :=
  fun f => let (f', r) := body f in
           match r with inl e => handler e f' | inr a => (f', inr a) end.

Declare Scope stmt_scope.
Delimit Scope stmt_scope with stmt.
Notation "x <- m ;; k" := (bind m (fun x => k))
  (at level 61, m at next level, right associativity) : stmt_scope.
Notation "m ;; k" := (bind m (fun _ => k))
  (at level 61, right associativity) : stmt_scope.
Local Open Scope stmt_scope.

Definition on_world (g : World -> World) : M unit :=
  fun f => (mkFrame (g (env f)) (locals f), inr tt).
Definition on_locals (g : Locals -> Locals) : M unit :=
  fun f => (mkFrame (env f) (g (locals f)), inr tt).
Definition get_locals : M Locals := fun f => (f, inr (locals f)).
Definition when (b : bool) (m : M unit) : M unit := if b then m else ret tt.

(** [writer_status.update(...)] at time [now] *)
Definition update (now : Z) (running : option bool) (error : option Msg)
    (bytes_written : option Z) : M unit :=
  on_world (fun w => set_writer_status
    (WriterThreadStatus.update (writer_status w) now running error bytes_written) w).
Definition print_stderr (line : Msg) : M unit := on_world (emit (Stderr line)).
Definition sleep (duration : Z) : M unit := on_world (emit (Sleep duration)).

Definition open_ (mode : Mode) : M handle :=
  fun f => let (w, r) := sys_open mode (env f) in (mkFrame w (locals f), r).
Definition lift_sys (call : World -> World * option Exn) : M unit :=
  fun f => let (w, r) := call (env f) in
           (mkFrame w (locals f),
            match r with Some e => inl e | None => inr tt end).
Definition write (h : handle) (data : bytes) : M unit := lift_sys (sys_write h data).
Definition flush (h : handle) : M unit := lift_sys (sys_flush h).
Definition close (h : handle) : M unit := lift_sys (sys_close h).

(** [data_queue.get(timeout=0.5)] *)
Definition queue_get : M item :=
  fun f => match Queue.get (data_queue (env f)) with
           | Some (x, q) => (mkFrame (set_data_queue q (env f)) (locals f), inr x)
           | None => (f, inl QueueEmpty)
           end.

Definition no_file : Exn := OtherException "AttributeError: NoneType".

(** The object the name [file_handle] is bound to. *)
Definition the_file_handle : M handle :=
  l <- get_locals ;;
  match file_handle l with Some h => ret h | None => raise no_file end.

Definition set_last_heartbeat (v : Z) : M unit :=
  on_locals (fun l => mkLocals (written_bytes_total l) v (last_flush l)
                               (retry_count l) (file_handle l)).
Definition set_last_flush (v : Z) : M unit :=
  on_locals (fun l => mkLocals (written_bytes_total l) (last_heartbeat l) v
                               (retry_count l) (file_handle l)).
Definition set_written_bytes_total (v : Z) : M unit :=
  on_locals (fun l => mkLocals v (last_heartbeat l) (last_flush l)
                               (retry_count l) (file_handle l)).
Definition set_retry_count (v : Z) : M unit :=
  on_locals (fun l => mkLocals (written_bytes_total l) (last_heartbeat l)
                               (last_flush l) v (file_handle l)).
Definition set_file_handle (v : option handle) : M unit :=
  on_locals (fun l => mkLocals (written_bytes_total l) (last_heartbeat l)
                               (last_flush l) (retry_count l) v).

(** One pass through the body of
    [while retry_count < max_retry_count and file_handle is None]. *)
Definition open_attempt (now : Z) : M unit :=
  try_except
    (h <- open_ WB ;; set_file_handle (Some h))
    (fun e =>
       if is_IOError e then
         l <- get_locals ;;
         set_retry_count (retry_count l + 1) ;;
         l <- get_locals ;;
         let error_msg := MsgOpenFailed (retry_count l) max_retry_count e in
         print_stderr error_msg ;;
         update now None (Some error_msg) None ;;
         (if max_retry_count <=? retry_count l
          then raise (MaxRetriesReached e) else ret tt) ;;
         sleep (seconds 1)
       else raise e).

(** How a pass through [while True] ends. *)
Inductive Ctl : Type := Next | Break.

(** [if data_chunk:] *)
Definition truthy (data : bytes) : bool :=
  match data with [] => false | _ => true end.

(** One pass through the body of [while True], at time [now]. *)
Definition loop_iteration (now : Z) : M Ctl :=
  let current_time := now in
  l <- get_locals ;;
  when (heartbeat_interval <=? current_time - last_heartbeat l)
    (update now None None (Some (written_bytes_total l)) ;;
     set_last_heartbeat current_time) ;;
  l <- get_locals ;;
  when (flush_interval <=? current_time - last_flush l)
    (try_except
       (h <- the_file_handle ;;
        flush h ;;
        set_last_flush current_time)
       (fun e =>
          if is_IOError e then
            let error_msg := MsgFlushFailed e in
            print_stderr error_msg ;;
            update now None (Some error_msg) None
          else raise e)) ;;
  try_except
    (data_chunk <- queue_get ;;
     match data_chunk with
     | None => ret Break
     | Some data =>
         if truthy data then
           try_except
             (h <- the_file_handle ;;
              write h data ;;
              l <- get_locals ;;
              set_written_bytes_total (written_bytes_total l + len data) ;;
              l <- get_locals ;;
              when (written_bytes_total l mod (1024 * 1024) =? 0)
                (update now None None (Some (written_bytes_total l))) ;;
              ret Next)
             (fun e =>
                if is_IOError e then
                  let error_msg := MsgWriteFailed e in
                  print_stderr error_msg ;;
                  update now None (Some error_msg) None ;;
                  raise e
                else raise e)
         else ret Next
     end)
    (fun e =>
       if is_QueueEmpty e then ret Next
       else if is_IOError e then
         let error_msg := MsgWriteFailed e in
         print_stderr error_msg ;;
         update now None (Some error_msg) None ;;
         try_except
           (h <- the_file_handle ;;
            close h ;;
            h' <- open_ AB ;;
            set_file_handle (Some h') ;;
            ret Next)
           (fun reopen_error =>
              if is_IOError reopen_error then
                let error_msg := MsgReopenFailed reopen_error in
                print_stderr error_msg ;;
                update now None (Some error_msg) None ;;
                ret Break
              else raise reopen_error)
       else
         let error_msg := MsgUnknownException e in
         print_stderr error_msg ;;
         update now None (Some error_msg) None ;;
         ret Break).

(** Leaving [with file_handle:]: [__exit__] of the object the [with]
    statement was entered with closes that object; the exception of the
    body, if any, goes on unless the close raises its own. *)
Definition leave_with (ctx : handle) (raised : option Exn) : M unit :=
  close ctx ;;
  match raised with Some e => raise e | None => ret tt end.

(** [except Exception as e:] of the outer [try]. *)
Definition except_clause (now : Z) (e : Exn) : M unit :=
  let error_msg := MsgInitFailed e in
  print_stderr error_msg ;;
  update now (Some false) (Some error_msg) None.

(** [finally:] of the outer [try]. *)
Definition finally_clause (now : Z) : M unit :=
  l <- get_locals ;;
  update now (Some false) None (Some (written_bytes_total l)).

(** The function returns and its frame is released: the name
    [file_handle] held the last reference to the file object it is
    bound to, and CPython closes that object when it is still open,
    which is so after a reopening; a failure of this close is ignored. *)
Definition release_frame : M unit :=
  l <- get_locals ;;
  match file_handle l with
  | Some h => try_except (close h) (fun _ => ret tt)
  | None => ret tt
  end.

(** The end of the outer [try] statement, reached with the result of
    its body; the function then returns. *)
Definition leave_try (now : Z) (body : Frame * (Exn + unit)) : World :=
  let (f, r) := body in
  let m := match r with
           | inl e => except_clause now e ;; finally_clause now
           | inr _ => finally_clause now
           end in
  env (fst (release_frame (fst (m f)))).

(** Where the thread is. *)
Inductive pc : Type :=
| Spawned                                (* started, body not entered *)
| RetryLoop (l : Locals)                 (* at the test of the retry loop *)
| WhileTrue (ctx : handle) (l : Locals)  (* inside [with ctx], at [while True] *)
| Finished.                              (* the function returned *)

(** [threading.Thread.is_alive()] *)
Definition is_alive (t : pc) : bool :=
  match t with Finished => false | _ => true end.

Definition is_None {A} (x : option A) : bool :=
  match x with None => true | Some _ => false end.

(** One step of the thread at time [now]. *)
Definition step (now : Z) (t : pc) (w : World) : World * pc :=
  match t with
  | Spawned =>
      let l := mkLocals 0 now now 0 None in
      let (f, _) := update now (Some true) None (Some 0) (mkFrame w l) in
      (env f, RetryLoop (locals f))
  | RetryLoop l =>
      if (retry_count l <? max_retry_count) && is_None (file_handle l) then
        let (f, r) := open_attempt now (mkFrame w l) in
        match r with
        | inr _ => (env f, RetryLoop (locals f))
        | inl e => (leave_try now (f, inl e), Finished)
        end
      else
        match file_handle l with
        | Some ctx => (w, WhileTrue ctx l)
        | None => (leave_try now (mkFrame w l, inl no_file), Finished)
        end
  | WhileTrue ctx l =>
      let (f, r) := loop_iteration now (mkFrame w l) in
      match r with
      | inr Next => (env f, WhileTrue ctx (locals f))
      | inr Break => (leave_try now (leave_with ctx None f), Finished)
      | inl e => (leave_try now (leave_with ctx (Some e) f), Finished)
      end
  | Finished => (w, Finished)
  end.

End Writer.

(** ** The main thread of [log2bin_script.py] *)

Record System : Type := mkSystem {
  world : World;
  writer_thread : Writer.pc;   (* the thread the name [writer_thread] refers to *)
  port_open : bool             (* what [ser_lib.SerialPort_IsOpen()] returns *)
}.

(** [threading.Thread(target=writer_thread_func, args=(OUTPUT_FILENAME,),
    daemon=True)] followed by [start()]. *)
Definition start_writer_thread : Writer.pc := Writer.Spawned.

(** The program once the port is open: step 4 started the writer thread. *)
Definition launch (existing_file : option bytes) (script : list (option Exn)) : System :=
  mkSystem (boot existing_file script) start_writer_thread true.

Module Supervisor.

(** How one pass through the supervising loop ends. *)
Inductive Ctl : Type := Next | Break.

(** The first block of the body of [while ser_lib.SerialPort_IsOpen()]:
    [if not writer_thread.is_alive(): ...], at time [now]. *)
Definition check_writer_thread (now : Z) (s : System) : System * Ctl :=
  let w := world s in
  if negb (Writer.is_alive (writer_thread s)) then
    let status := WriterThreadStatus.get_status (writer_status w) in
    if WriterThreadStatus.running status then
      let error_msg := MsgDeadButRunning (WriterThreadStatus.error status) in
      let w := emit (Stderr error_msg) w in
      let w := set_writer_status
                 (WriterThreadStatus.update (writer_status w) now
                    (Some false) (Some error_msg) None) w in
      (mkSystem w (writer_thread s) (port_open s), Break)
    else if Queue.empty (data_queue w) then
      let error_msg := MsgDead (WriterThreadStatus.error status) in
      (mkSystem (emit (Stderr error_msg) w) (writer_thread s) (port_open s), Break)
    else
      (mkSystem w start_writer_thread (port_open s), Next)
  else (s, Next).

(** The supervising loop goes on to another pass: the port is open and
    the pass did not [break]. The rest of the body, the periodic
    heartbeat check, has no [break]. *)
Definition keeps_supervising (now : Z) (s : System) : bool :=
  port_open s &&
  match snd (check_writer_thread now s) with Next => true | Break => false end.

End Supervisor.

(** ** Interleavings *)

Inductive Action : Type :=
| DataCallback (buffer_ptr : pointer) (length : Z)
| ErrorCallback (error_code : Z) (error_message_ptr : option string)
| WriterStep (now : Z)
| SupervisorCheck (now : Z)   (* the first block of the supervising loop *)
| PutStopSignal.              (* [data_queue.put(stop_writer_signal)] *)

Definition act (s : System) (a : Action) : System :=
  match a with
  | DataCallback buffer_ptr length =>
      mkSystem (py_data_callback buffer_ptr length (world s))
               (writer_thread s) (port_open s)
  | ErrorCallback error_code error_message_ptr =>
      mkSystem (py_error_callback error_code error_message_ptr None None (world s))
               (writer_thread s) (port_open s)
  | WriterStep now =>
      let (w, t) := Writer.step now (writer_thread s) (world s) in
      mkSystem w t (port_open s)
  | SupervisorCheck now => fst (Supervisor.check_writer_thread now s)
  | PutStopSignal =>
      match Queue.put (data_queue (world s)) stop_writer_signal with
      | Some q => mkSystem (set_data_queue q (world s)) (writer_thread s) (port_open s)
      | None => s
      end
  end.

Definition run (s : System) (schedule : list Action) : System :=
  fold_left act schedule s.

(** ** The supervising loop of [log2bin_script.py], in full *)

Module Main.

Definition check_interval : Z := seconds 5.
Definition heartbeat_timeout : Z := seconds 10.
Definition status_check_interval : Z := seconds 30.
Definition join_timeout : Z := seconds 2.

(** Where the main thread is. *)
Inductive MainPc : Type :=
| Sleeping
    (* in [time.sleep(check_interval)], or at the test of the loop *)
| Putting (current_time : Z)
    (* in [data_queue.put(stop_writer_signal)] of the heartbeat check,
       blocked by a full queue *)
| Joining (current_time since : Z)
    (* in [writer_thread.join(timeout=2)], called at time [since] *)
| LoopLeft.
    (* after the loop: [break], a closed port, Ctrl+C *)

(** The program: the shared objects, the thread the name
    [writer_thread] refers to and the port ([System]); the writer
    threads that were replaced while they were alive, which go on
    running; the local variable [last_status_check]; the place of the
    main thread. *)
Record Program : Type := mkProgram {
  system : System;
  replaced : list Writer.pc;
  last_status_check : Z;
  main : MainPc
}.

Definition set_system (s : System) (m : Program) : Program :=
  mkProgram s (replaced m) (last_status_check m) (main m).
Definition set_main (p : MainPc) (m : Program) : Program :=
  mkProgram (system m) (replaced m) (last_status_check m) p.

(** A thread object that is dropped: it goes on running if it is alive. *)
Definition retire (t : Writer.pc) (others : list Writer.pc) : list Writer.pc :=
  if Writer.is_alive t then others ++ [t] else others.

(** Lines 455 to 466: the replacement is started, the name
    [writer_thread] is bound to it, [last_status_check = current_time];
    the main thread goes to sleep. *)
Definition restart (current_time : Z) (m : Program) : Program :=
  let s := system m in
  mkProgram (mkSystem (world s) start_writer_thread (port_open s))
            (retire (writer_thread s) (replaced m))
            current_time Sleeping.

(** Lines 452 and 453: [data_queue.put(stop_writer_signal)], which
    blocks while the queue is full, then the call of [join], at time
    [now]. *)
Definition put_stop_signal (current_time now : Z) (m : Program) : Program :=
  let s := system m in
  match Queue.put (data_queue (world s)) stop_writer_signal with
  | Some q =>
      mkProgram (mkSystem (set_data_queue q (world s)) (writer_thread s) (port_open s))
                (replaced m) (last_status_check m) (Joining current_time now)
  | None => set_main (Putting current_time) m
  end.

(** The second block of the loop body, lines 443 to 463:
    [if current_time - last_status_check >= status_check_interval: ...]. *)
Definition check_heartbeat (current_time : Z) (m : Program) : Program :=
  let s := system m in
  let w := world s in
  if status_check_interval <=? current_time - last_status_check m then
    if negb (WriterThreadStatus.is_alive (writer_status w) current_time
               heartbeat_timeout) then
      let status := WriterThreadStatus.get_status (writer_status w) in
      let error_msg := MsgHeartbeatTimeout (WriterThreadStatus.error status) in
      let m := set_system (mkSystem (emit (Stderr error_msg) w)
                                    (writer_thread s) (port_open s)) m in
      if Writer.is_alive (writer_thread s)
      then put_stop_signal current_time current_time m
      else restart current_time m
    else mkProgram s (replaced m) current_time Sleeping
  else m.

(** One pass through the body of [while ser_lib.SerialPort_IsOpen()],
    at time [current_time], up to the point where the main thread
    sleeps, blocks or leaves the loop. *)
Definition pass (current_time : Z) (m : Program) : Program :=
  if port_open (system m) then
    let (s, ctl) := Supervisor.check_writer_thread current_time (system m) in
    match ctl with
    | Supervisor.Break => set_main LoopLeft (set_system s m)
    | Supervisor.Next => check_heartbeat current_time (set_system s m)
    end
  else set_main LoopLeft m.

(** The main thread runs at time [now]: from its sleep it makes a pass
    through the loop; a blocked [put] is tried again; [join] returns
    when the thread has ended or the two seconds have passed. *)
Definition main_thread (now : Z) (m : Program) : Program :=
  match main m with
  | Sleeping => pass now m
  | Putting current_time => put_stop_signal current_time now m
  | Joining current_time since =>
      if negb (Writer.is_alive (writer_thread (system m)))
         || (join_timeout <=? now - since)
      then restart current_time m
      else m
  | LoopLeft => m
  end.

Fixpoint set_nth {A} (i : nat) (x : A) (l : list A) : list A :=
  match l, i with
  | [], _ => []
  | _ :: rest, O => x :: rest
  | y :: rest, S i' => y :: set_nth i' x rest
  end.

(** What can happen next. [Of (SupervisorCheck now)] is the main
    thread running at time [now]; [Of PutStopSignal] is the [put] of
    the shutdown (step 8), which the main thread makes after the loop
    and when the thread [writer_thread] names is alive; the other
    actions are the callbacks and the steps of that thread. *)
Inductive Event : Type :=
| Of (a : Action)
| Replaced (i : nat) (now : Z)   (* a step of a replaced writer thread *)
| LoopEnds.                      (* Ctrl+C, or an exception in the loop *)

Definition event (m : Program) (e : Event) : Program :=
  match e with
  | Of (SupervisorCheck now) => main_thread now m
  | Of PutStopSignal =>
      match main m with
      | LoopLeft =>
          if Writer.is_alive (writer_thread (system m))
          then set_system (act (system m) PutStopSignal) m
          else m
      | _ => m
      end
  | Of a => set_system (act (system m) a) m
  | Replaced i now =>
      match nth_error (replaced m) i with
      | Some t =>
          let s := system m in
          let (w, t') := Writer.step now t (world s) in
          mkProgram (mkSystem w (writer_thread s) (port_open s))
                    (set_nth i t' (replaced m))
                    (last_status_check m) (main m)
      | None => m
      end
  | LoopEnds => set_main LoopLeft m
  end.

Definition execute (m : Program) (schedule : list Event) : Program :=
  fold_left event schedule m.

(** The program once the port is open, at line 413:
    [last_status_check = time.time()]. *)
Definition begin (existing_file : option bytes) (script : list (option Exn))
    (now : Z) : Program :=
  mkProgram (launch existing_file script) [] now Sleeping.

End Main.

(** ** [bes_log_to_bin_script.py]: the stop event *)

Module Legacy.

Record State : Type := mkState {
  g_stop_event : bool;          (* threading.Event: true once set *)
  data_queue : Queue.t item;
  stderr : list Msg
}.

(** [py_error_callback(user_data_ptr, error_code, error_message_ptr)];
    [raised] is the exception, if any, that the body of the [try]
    raises before [g_stop_event.set()] is reached (the decoding, the
    [print]); [handler_raised] is the one that the [print] of the
    handler raises: it leaves the callback before the handler's
    [g_stop_event.set()], and ctypes drops it. *)
Definition py_error_callback (error_code : Z) (error_message_ptr : option string)
    (raised handler_raised : option Exn) (s : State) : State :=
  match raised with
  | None =>
      let error_message := message_or_NA error_message_ptr in
      mkState true (data_queue s)
              (stderr s ++ [MsgDllError error_code error_message])
  | Some e =>
      match handler_raised with
      | None =>
          mkState true (data_queue s) (stderr s ++ [MsgErrorCallbackException e])
      | Some _ => s
      end
  end.

(** The test of the main loop: [while not g_stop_event.is_set()]. *)
Definition main_loop_test (s : State) : bool := negb (g_stop_event s).

(** The test of the writer's loop:
    [while not g_stop_event.is_set() or not data_queue.empty()]. *)
Definition writer_loop_test (s : State) : bool :=
  negb (g_stop_event s) || negb (Queue.empty (data_queue s)).

End Legacy.

(** ** [bes_log_to_bin_script.py]: the data callback and the writer *)

Module LegacyWriter.

(** The lines the writer prints to stderr. *)
Inductive Line : Type :=
| LineCannotOpen (filename : string) (e : Exn)
    (* f"错误：无法打开或创建文件 '{filename}': {e}" *)
| LinePrepareFailed (e : Exn)
    (* f"错误：准备写入文件时发生异常: {e}" *)
| LineUnknownException (e : Exn).
    (* f"错误：写入线程发生未知异常: {e}" *)

(** The process: the stop event and the queue, the operating system
    (of [World], the file at the output path, the handles, the fault
    script and the trace of system calls are used), whether the
    directory of the output file exists, and the lines of the writer. *)
Record Machine : Type := mkMachine {
  shared : Legacy.State;
  os : World;
  dir_exists : bool;
  lines : list Line
}.

Definition set_shared (x : Legacy.State) (s : Machine) : Machine :=
  mkMachine x (os s) (dir_exists s) (lines s).
Definition set_os (w : World) (s : Machine) : Machine :=
  mkMachine (shared s) w (dir_exists s) (lines s).
Definition set_queue (q : Queue.t item) (s : Machine) : Machine :=
  set_shared (Legacy.mkState (Legacy.g_stop_event (shared s)) q
                             (Legacy.stderr (shared s))) s.
(** [g_stop_event.set()] *)
Definition set_stop_event (s : Machine) : Machine :=
  set_shared (Legacy.mkState true (Legacy.data_queue (shared s))
                             (Legacy.stderr (shared s))) s.
Definition print_line (line : Line) (s : Machine) : Machine :=
  mkMachine (shared s) (os s) (dir_exists s) (lines s ++ [line]).

(** [py_data_callback(user_data_ptr, buffer_ptr, length)]; the copy of
    the buffer is taken to succeed. *)
Definition py_data_callback (buffer_ptr : pointer) (length : Z)
    (s : Legacy.State) : Legacy.State :=
  match buffer_ptr with
  | Some memory =>
      if 0 <? length then
        let data_bytes := slice memory length in
        match Queue.put_nowait (Legacy.data_queue s) (Some data_bytes) with
        | Some q => Legacy.mkState (Legacy.g_stop_event s) q (Legacy.stderr s)
        | None => Legacy.mkState (Legacy.g_stop_event s) (Legacy.data_queue s)
                                 (Legacy.stderr s ++ [MsgQueueFull])
        end
      else s
  | None => s
  end.

(** The local variables of [writer_thread_func]. *)
Record Vars : Type := mkVars {
  written_bytes_total : Z;
  file_opened : bool;
  f : option handle
}.

(** Where the thread is. *)
Inductive Place : Type :=
| Running (l : Vars)   (* at the test of the [while] loop *)
| Returned.            (* the function returned *)

(** [written_bytes_total = 0], [file_opened = False], [f = None] *)
Definition start : Place := Running (mkVars 0 false None).

Section Writer.
(** [filename], and [os.path.dirname(filename)]. *)
Variable filename : string.
Variable output_dir : string.

(** [os.makedirs(output_dir)]: it takes the next entry of the fault
    script, as a system call does. *)
Definition makedirs (s : Machine) : Machine * option Exn :=
  let (fault, w) := next_fault (os s) in
  match fault with
  | Some e => (set_os w s, Some e)
  | None => (mkMachine (shared s) w true (lines s), None)
  end.

(** The body of the [try] that opens the file, lines 73 to 79. *)
Definition open_output (s : Machine) : Machine * (Exn + handle) :=
  let (s, raised) :=
    if negb (output_dir =? "")%string && negb (dir_exists s)
    then makedirs s else (s, None) in
  match raised with
  | Some e => (s, inl e)
  | None => let (w, r) := sys_open WB (os s) in (set_os w s, r)
  end.

(** [finally:] the file is closed if it was opened; the function
    returns, also when the close raises. *)
Definition finally_block (l : Vars) (s : Machine) : Machine :=
  match f l with
  | Some h => set_os (fst (sys_close h (os s))) s
  | None => s
  end.

(** The two [except] clauses of the [try] inside the loop. *)
Definition except_clauses (e : Exn) (l : Vars) (s : Machine) : Machine * Place :=
  if is_QueueEmpty e then
    if Legacy.g_stop_event (shared s)
    then (finally_block l s, Returned)
    else (s, Running l)
  else
    (finally_block l (set_stop_event (print_line (LineUnknownException e) s)),
     Returned).

(** The test of the [while] loop and, when it holds, one pass through
    its body. [data_queue.task_done()] only counts the entries taken
    and is left out. *)
Definition writer_pass (l : Vars) (s : Machine) : Machine * Place :=
  if Legacy.writer_loop_test (shared s) then
    match Queue.get (Legacy.data_queue (shared s)) with
    | None => except_clauses QueueEmpty l s
    | Some (data_chunk, q) =>
        let s := set_queue q s in
        match data_chunk with
        | None => (s, Running l)
        | Some data =>
            if Writer.truthy data then
              let (s, opened) :=
                if file_opened l then (s, inr l)
                else
                  let (s, r) := open_output s in
                  (s, match r with
                      | inr h => inr (mkVars (written_bytes_total l) true (Some h))
                      | inl e => inl e
                      end) in
              match opened with
              | inl e =>
                  let line := if is_IOError e then LineCannotOpen filename e
                              else LinePrepareFailed e in
                  (finally_block l (set_stop_event (print_line line s)), Returned)
              | inr l =>
                  match f l with
                  | Some h =>
                      let (w, r) := sys_write h data (os s) in
                      match r with
                      | Some e => except_clauses e l (set_os w s)
                      | None =>
                          (set_os w s,
                           Running (mkVars (written_bytes_total l + len data)
                                           (file_opened l) (f l)))
                      end
                  | None => (s, Running l)
                  end
              end
            else (s, Running l)
        end
    end
  else (finally_block l s, Returned).

Definition resume (t : Place) (s : Machine) : Machine * Place :=
  match t with
  | Running l => writer_pass l s
  | Returned => (s, Returned)
  end.

(** [n] steps of the writer, nothing else running. *)
Fixpoint steps (n : nat) (t : Place) (s : Machine) : Machine * Place :=
  match n with
  | O => (s, t)
  | S n' => let (s', t') := resume t s in steps n' t' s'
  end.

(** The threads of the program, interleaved at the granularity of one
    pass of the writer. *)
Inductive Turn : Type :=
| Data (buffer_ptr : pointer) (length : Z)    (* the DLL calls [py_data_callback] *)
| Error (error_code : Z) (error_message_ptr : option string)
        (raised handler_raised : option Exn)
                                              (* the DLL calls [py_error_callback] *)
| MainStops                                   (* [g_stop_event.set()] in [main] *)
| WriterPass.

Record Process : Type := mkProcess {
  state : Machine;
  writer : Place   (* the thread [writer_thread] *)
}.

Definition turn (p : Process) (a : Turn) : Process :=
  match a with
  | Data buffer_ptr length =>
      mkProcess (set_shared (py_data_callback buffer_ptr length (shared (state p)))
                            (state p))
                (writer p)
  | Error error_code error_message_ptr raised handler_raised =>
      mkProcess (set_shared (Legacy.py_error_callback error_code error_message_ptr
                               raised handler_raised (shared (state p)))
                            (state p))
                (writer p)
  | MainStops => mkProcess (set_stop_event (state p)) (writer p)
  | WriterPass =>
      let (s, t) := resume (writer p) (state p) in mkProcess s t
  end.

Definition turns (p : Process) (schedule : list Turn) : Process :=
  fold_left turn schedule p.

End Writer.

(** The program once [writer_thread.start()] has run: the event is
    clear, the queue is empty. *)
Definition started (existing_file : option bytes) (script : list (option Exn))
    (dir_exists : bool) : Process :=
  mkProcess (mkMachine (Legacy.mkState false (Queue.new 4096) [])
                       (boot existing_file script) dir_exists [])
            start.

End LegacyWriter.

(** ** [bes_log_to_bin_script.py]: the port configuration string *)

Module PortConfig.
Import Ascii.
Local Open Scope string_scope.

(** [s.split(sep, maxsplit)] for a separator of one character. *)
Fixpoint split (sep : Ascii.ascii) (maxsplit : nat) (s : string) : list string :=
  match maxsplit with
  | O => [s]
  | S n =>
      match s with
      | EmptyString => [EmptyString]
      | String c s' =>
          if Ascii.eqb c sep then EmptyString :: split sep n s'
          else match split sep maxsplit s' with
               | part :: parts => String c part :: parts
               | [] => [String c EmptyString]
               end
      end
  end.

(** [s.upper()], for the letters of ASCII. *)
Definition upper_char (c : Ascii.ascii) : Ascii.ascii :=
  let n := Ascii.nat_of_ascii c in
  if (97 <=? n)%nat && (n <=? 122)%nat then Ascii.ascii_of_nat (n - 32) else c.
Fixpoint upper (s : string) : string :=
  match s with
  | EmptyString => EmptyString
  | String c s' => String (upper_char c) (upper s')
  end.

(** [s[n:]] *)
Fixpoint drop (n : nat) (s : string) : string :=
  match n, s with
  | O, _ => s
  | S n', String _ s' => drop n' s'
  | S _, EmptyString => EmptyString
  end.

(** [if not s] *)
Definition is_empty (s : string) : bool :=
  match s with EmptyString => true | _ => false end.

Definition backslash : Ascii.ascii := Ascii.ascii_of_nat 92.

(** The Windows device prefix: two backslashes, a dot, a backslash. *)
Definition device_prefix : string :=
  String backslash (String backslash (String "."%char (String backslash EmptyString))).

(** The [ValueError]s of the parsing; each ends the program with
    [sys.exit(1)]. *)
Inductive ConfigError : Type :=
| BadFormat                    (* "配置字符串格式错误，需要 '串口名:波特率:文件路径'" *)
| NotANumber (text : string)   (* raised by [int] *)
| EmptyPort                    (* "串口名不能为空" *)
| BadBaudRate                  (* "波特率必须为正整数" *)
| EmptyPath.                   (* "输出文件路径不能为空" *)

Section Parsing.
(** [int(text)]; [None] is [ValueError]. *)
Variable int : string -> option Z.

(** The block under [if sys.platform == "win32"]. *)
Definition add_device_prefix (serial_port : string) : string :=
  if prefix "COM" (upper serial_port) then
    match int (drop 3 serial_port) with
    | Some com_num =>
        if (10 <=? com_num)%Z && negb (prefix device_prefix serial_port)
        then device_prefix ++ serial_port
        else serial_port
    | None => serial_port
    end
  else serial_port.

(** Step 2 of [main]: from [args.port_config] to the serial port, the
    baud rate and the output file name. *)
Definition parse_port_config (win32 : bool) (port_config : string)
    : ConfigError + (string * Z * string) :=
  match split ":"%char 2 port_config with
  | [serial_port; baud_text; output_filename] =>
      match int baud_text with
      | None => inl (NotANumber baud_text)
      | Some baud_rate =>
          if is_empty serial_port then inl EmptyPort
          else if (baud_rate <=? 0)%Z then inl BadBaudRate
          else if is_empty output_filename then inl EmptyPath
          else inr (if win32 then add_device_prefix serial_port else serial_port,
                    baud_rate, output_filename)
      end
  | _ => inl BadFormat
  end.
End Parsing.

End PortConfig.

(** ** [log2bin_copy.py]: the time stamps of the text log *)

Module Stamping.
Import Ascii.
Local Open Scope string_scope.

Definition newline : ascii := ascii_of_nat 10.

(** [s.split(sep)] for a separator of one character. *)
Fixpoint split_all (sep : ascii) (s : string) : list string :=
  match s with
  | EmptyString => [EmptyString]
  | String c s' =>
      if Ascii.eqb c sep then EmptyString :: split_all sep s'
      else match split_all sep s' with
           | part :: parts => String c part :: parts
           | [] => [String c EmptyString]
           end
  end.

(** One call of [file_handle.write]: the f-string
    [f"{timestamp} {line}\n"], or [f"{timestamp} {line}"] without the
    newline. *)
Record Stamped : Type := mkStamped {
  timestamp : string;
  line : string;
  ends_line : bool
}.

(** The text a part of the log stands for without its stamp. *)
Definition body (w : Stamped) : string :=
  line w ++ (if ends_line w then String newline EmptyString else EmptyString).

(** The string that is written. *)
Definition render (w : Stamped) : string :=
  timestamp w ++ " " ++ body w.

Section Chunk.
(** The value [time.strftime("%Y-%m-%d %H:%M:%S")] returns in pass [i]
    of the [for] loop. *)
Variable strftime : nat -> string.

(** [for i, line in enumerate(lines)], from index [i] on. *)
Fixpoint stamp_lines (i : nat) (lines : list string) : list Stamped :=
  match lines with
  | [] => []
  | [line] =>
      match line with
      | EmptyString => []
      | _ => [mkStamped (strftime i) line false]
      end
  | line :: rest => mkStamped (strftime i) line true :: stamp_lines (S i) rest
  end.

(** The writes for one decoded chunk, in order. *)
Definition stamped_writes (text_data : string) : list Stamped :=
  let lines := split_all newline text_data in
  stamp_lines O lines.
End Chunk.

End Stamping.

(** ** Observations on a trace *)

(** The chunks handed to successful [write] calls, in order. *)
Fixpoint written (tr : list Effect) : list bytes :=
  match tr with
  | [] => []
  | SysWrite _ data None :: rest => data :: written rest
  | _ :: rest => written rest
  end.

(** The number of "queue full" warnings. *)
Fixpoint warnings (tr : list Effect) : nat :=
  match tr with
  | [] => O
  | Stderr MsgQueueFull :: rest => S (warnings rest)
  | _ :: rest => warnings rest
  end.

(** The number of [open] calls with the given mode. *)
Definition is_mode (m m' : Mode) : bool :=
  match m, m' with WB, WB | AB, AB => true | _, _ => false end.
Fixpoint opens (m : Mode) (tr : list Effect) : nat :=
  match tr with
  | [] => O
  | SysOpen m' _ :: rest => (if is_mode m m' then 1 else 0)%nat + opens m rest
  | _ :: rest => opens m rest
  end.

(** The chunks a schedule hands to [py_data_callback]. *)
Definition delivered_by (a : Action) : list bytes :=
  match a with
  | DataCallback (Some memory) length =>
      if 0 <? length then [slice memory length] else []
  | _ => []
  end.
Definition delivered (schedule : list Action) : list bytes :=
  flat_map delivered_by schedule.

(** The chunks waiting in the queue. *)
Definition chunks (q : Queue.t item) : list bytes :=
  flat_map (fun x : item => match x with Some d => [d] | None => [] end) (Queue.items q).

(** Some open with mode 'wb' succeeded. *)
Fixpoint created (tr : list Effect) : bool :=
  match tr with
  | [] => false
  | SysOpen WB (inr _) :: _ => true
  | _ :: rest => created rest
  end.

(** The number of files the process holds open. *)
(** The number of heartbeat timeouts the main thread has reported. *)
Fixpoint timeouts (tr : list Effect) : nat :=
  match tr with
  | [] => 0
  | Stderr (MsgHeartbeatTimeout _) :: rest => S (timeouts rest)
  | _ :: rest => timeouts rest
  end.


Definition open_files (w : World) : nat :=
  List.length (filter (fun b : bool => b) (handles w)).

(** The time at which an action of a thread that reads the clock runs. *)
Definition time_of (a : Action) : option Z :=
  match a with
  | WriterStep now | SupervisorCheck now => Some now
  | _ => None
  end.

(** The clock does not go back: the times of a schedule do not
    decrease, starting from [last]. *)
Fixpoint chronological (last : Z) (schedule : list Action) : bool :=
  match schedule with
  | [] => true
  | a :: rest =>
      match time_of a with
      | Some now => (last <=? now) && chronological now rest
      | None => chronological last rest
      end
  end.

(** The exception a system call failed with. *)
Definition failure_of (e : Effect) : option Exn :=
  match e with
  | SysOpen _ (inl x) => Some x
  | SysWrite _ _ (Some x) | SysFlush _ (Some x) | SysClose _ (Some x) => Some x
  | _ => None
  end.

(** The exception of the last system call of a trace that failed. *)
Fixpoint last_failure (tr : list Effect) : option Exn :=
  match tr with
  | [] => None
  | e :: rest =>
      match last_failure rest with
      | Some x => Some x
      | None => failure_of e
      end
  end.

(** The lines written to stderr. *)
Fixpoint printed (tr : list Effect) : list Msg :=
  match tr with
  | [] => []
  | Stderr line :: rest => line :: printed rest
  | _ :: rest => printed rest
  end.

(** The exception named by a line that says why a worker ended. *)
Definition exit_reason (line : Msg) : option Exn :=
  match line with
  | MsgReopenFailed e | MsgUnknownException e | MsgInitFailed e => Some e
  | _ => None
  end.

(** The exceptions the interpreter raises without a system call having
    failed: a write or a flush on a closed file, [with None:]. *)
Definition raised_by_interpreter (e : Exn) : Prop :=
  e = closed_file \/ e = Writer.no_file.

(** [e] is the exception that ended the statements whose effects are
    [tr]: the interpreter raised it, or it is the exception of the last
    system call that failed, possibly wrapped by the open-retry loop. *)
Definition culprit (tr : list Effect) (e : Exn) : Prop :=
  raised_by_interpreter e \/
  last_failure tr = Some e \/
  exists cause, e = MaxRetriesReached cause /\ last_failure tr = Some cause.

(** The time at which an event of the whole program happens. *)
Definition moment (e : Main.Event) : option Z :=
  match e with
  | Main.Of a => time_of a
  | Main.Replaced _ now => Some now
  | Main.LoopEnds => None
  end.

(** The clock does not go back along a schedule of the whole program. *)
Fixpoint in_order (last : Z) (schedule : list Main.Event) : bool :=
  match schedule with
  | [] => true
  | e :: rest =>
      match moment e with
      | Some now => (last <=? now) && in_order now rest
      | None => in_order last rest
      end
  end.

(** * Properties *)

(** ** The liveness register *)

Module RegisterFacts.
Import WriterThreadStatus.

Lemma update_fields self now r e b :
  update self now r e b =
  mk (match r with Some v => v | None => running self end)
     (match e with Some v => Some v | None => error self end)
     (match b with Some v => v | None => bytes_written self end)
     now false.
Proof. destruct self, r, e, b; reflexivity. Qed.

Lemma update_ops_guarded now r e b :
  stores_guarded false (update_ops now r e b) = true.
Proof. destruct r, e, b; reflexivity. Qed.

Lemma update_ops_heartbeat now r e b :
  In (StoreLastHeartbeat now) (update_ops now r e b).
Proof.
  unfold update_ops. apply in_or_app. right.
  repeat (apply in_or_app; right). left. reflexivity.
Qed.

(** C10. Every call to [update], whatever subset of the three optional
    fields it sets, stores the current time into [last_heartbeat], and
    does so between acquiring and releasing the lock; in particular,
    after an update that records only an error, [is_alive] holds at a
    later time exactly when the register says running and less than
    the timeout has passed since that update. *)
Theorem update_always_heartbeats :
  forall self now r e b,
    last_heartbeat (update self now r e b) = now /\
    In (StoreLastHeartbeat now) (update_ops now r e b) /\
    stores_guarded false (update_ops now r e b) = true /\
    forall msg later timeout,
      is_alive (update self now None (Some msg) None) later timeout
      = running self && (later - now <? timeout).
Proof.
  intros self now r e b. split; [| split; [| split]].
  - rewrite update_fields. reflexivity.
  - apply update_ops_heartbeat.
  - apply update_ops_guarded.
  - intros msg later timeout. rewrite update_fields. reflexivity.
Qed.

End RegisterFacts.

(** ** The supervising loop *)

Module SupervisorFacts.
Import Supervisor.

Lemma restart_only_when_not_running now s :
  Writer.is_alive (writer_thread s) = false ->
  WriterThreadStatus.running (writer_status (world s)) = false ->
  check_writer_thread now s =
  if Queue.empty (data_queue (world s))
  then (mkSystem (emit (Stderr (MsgDead (WriterThreadStatus.error
                                          (writer_status (world s))))) (world s))
                 (writer_thread s) (port_open s), Break)
  else (mkSystem (world s) start_writer_thread (port_open s), Next).
Proof.
  intros Hdead Hrun. unfold check_writer_thread.
  rewrite Hdead. cbn [negb].
  replace (WriterThreadStatus.running
             (WriterThreadStatus.get_status (writer_status (world s))))
    with false by (symmetry; exact Hrun).
  reflexivity.
Qed.

End SupervisorFacts.

(** ** Traces, handles and slices *)

Lemma warnings_app tr tr' : warnings (tr ++ tr') = (warnings tr + warnings tr')%nat.
Proof.
  induction tr as [| e tr IH]; [reflexivity |].
  destruct e as [| | | | [] |]; cbn; rewrite IH; reflexivity.
Qed.

Lemma written_app tr tr' : written (tr ++ tr') = written tr ++ written tr'.
Proof.
  induction tr as [| e tr IH]; [reflexivity |].
  destruct e as [| h d [x |] | | | |]; cbn; rewrite IH; reflexivity.
Qed.

Lemma opens_app m tr tr' : opens m (tr ++ tr') = (opens m tr + opens m tr')%nat.
Proof.
  induction tr as [| e tr IH]; [reflexivity |].
  destruct e; cbn; rewrite IH; lia.
Qed.

Lemma length_mark_closed h hs : List.length (mark_closed h hs) = List.length hs.
Proof.
  revert h. induction hs as [| b hs IH]; intros [| h]; cbn; try reflexivity.
  rewrite IH. reflexivity.
Qed.

Lemma nth_mark_closed h i hs :
  nth i (mark_closed h hs) false = if Nat.eqb i h then false else nth i hs false.
Proof.
  revert h i. induction hs as [| b hs IH]; intros [| h] [| i]; cbn;
    try reflexivity; try (destruct (Nat.eqb _ _); reflexivity).
  apply IH.
Qed.

Lemma open_handle_in_table h hs : nth h hs false = true -> (h < List.length hs)%nat.
Proof.
  intros H. destruct (Nat.lt_ge_cases h (List.length hs)) as [Hlt | Hge]; [exact Hlt |].
  rewrite nth_overflow in H by exact Hge. discriminate.
Qed.

(** Unfolds the statements of the writer down to the tests on symbolic
    values; arithmetic and the tables stay folded. *)
Ltac crunch :=
  cbv -[Z.sub Z.leb Z.ltb Z.add Z.modulo Z.eqb len nth app List.length
        mark_closed WriterThreadStatus.update file_bytes slice
        written opens warnings chunks List.concat].

Lemma len_slice memory n : 0 <= n -> len (slice memory n) = n.
Proof.
  intros Hn. unfold len, slice. rewrite length_map, length_seq. lia.
Qed.

Lemma truthy_slice memory n : 0 < n -> Writer.truthy (slice memory n) = true.
Proof.
  intros Hn. pose proof (@len_slice memory n ltac:(lia)) as Hlen.
  destruct (slice memory n); [cbn in Hlen; lia | reflexivity].
Qed.

(** Evaluates the closed comparisons that [crunch] leaves folded. *)
Ltac decide_tests :=
  repeat match goal with
         | |- context [Z.leb ?a ?b] =>
             let v := eval vm_compute in (Z.leb a b) in
             match v with true => idtac | false => idtac end;
             change (Z.leb a b) with v
         | |- context [Z.ltb ?a ?b] =>
             let v := eval vm_compute in (Z.ltb a b) in
             match v with true => idtac | false => idtac end;
             change (Z.ltb a b) with v
         | |- context [Z.eqb ?a ?b] =>
             let v := eval vm_compute in (Z.eqb a b) in
             match v with true => idtac | false => idtac end;
             change (Z.eqb a b) with v
         end.

(** Releasing the frame is a close of the file [file_handle] is bound
    to, if any; it leaves the register alone. *)
Lemma release_frame_spec f :
  Writer.env (fst (Writer.release_frame f))
  = match Writer.file_handle (Writer.locals f) with
    | Some h => fst (sys_close h (Writer.env f))
    | None => Writer.env f
    end.
Proof.
  destruct f as [w l]. unfold Writer.release_frame, Writer.bind, Writer.get_locals.
  cbn [Writer.locals Writer.env]. destruct (Writer.file_handle l) as [h |];
    [| reflexivity].
  unfold Writer.try_except, Writer.close, Writer.lift_sys. cbn [Writer.env].
  destruct (sys_close h w) as [w' [e |]]; reflexivity.
Qed.

Lemma sys_close_register h w :
  writer_status (fst (sys_close h w)) = writer_status w.
Proof.
  unfold sys_close. destruct (is_open h w); [| reflexivity].
  unfold next_fault. destruct (faults w); reflexivity.
Qed.

Lemma release_frame_register f :
  writer_status (Writer.env (fst (Writer.release_frame f)))
  = writer_status (Writer.env f).
Proof.
  rewrite release_frame_spec. destruct (Writer.file_handle (Writer.locals f));
    [apply sys_close_register | reflexivity].
Qed.

(** ** Statements that keep a property of the frame *)

Module Stable.
Import Writer.

Section Combinators.
Variable P : Frame -> Prop.

(** [m] keeps [P], whether it completes or raises. *)
Definition stable {A} (m : M A) : Prop := forall f, P f -> P (fst (m f)).

Lemma stable_ret A (a : A) : stable (ret a).
Proof. intros f H. exact H. Qed.

Lemma stable_raise A e : stable (@raise A e).
Proof. intros f H. exact H. Qed.

Lemma stable_get_locals : stable get_locals.
Proof. intros f H. exact H. Qed.

Lemma stable_bind A B (m : M A) (k : A -> M B) :
  stable m -> (forall a, stable (k a)) -> stable (bind m k).
Proof.
  intros Hm Hk f H. unfold bind. specialize (Hm f H).
  destruct (m f) as [f' [e | a]]; cbn [fst] in *; [exact Hm |].
  apply Hk. exact Hm.
Qed.

Lemma stable_try_except A (body : M A) handler :
  stable body -> (forall e, stable (handler e)) -> stable (try_except body handler).
Proof.
  intros Hm Hk f H. unfold try_except. specialize (Hm f H).
  destruct (body f) as [f' [e | a]]; cbn [fst] in *; [| exact Hm].
  apply Hk. exact Hm.
Qed.

Lemma stable_if A (c : bool) (m1 m2 : M A) :
  stable m1 -> stable m2 -> stable (if c then m1 else m2).
Proof. destruct c; auto. Qed.

Lemma stable_when c m : stable m -> stable (when c m).
Proof. intros Hm. unfold when. apply stable_if; [exact Hm | apply stable_ret]. Qed.

(** A statement that only changes the world, by a change that keeps
    [P] whatever the locals. *)
Lemma stable_on_world g :
  (forall w l, P (mkFrame w l) -> P (mkFrame (g w) l)) -> stable (on_world g).
Proof. intros Hg [w l] H. apply Hg. exact H. Qed.

Lemma stable_on_locals g :
  (forall w l, P (mkFrame w l) -> P (mkFrame w (g l))) -> stable (on_locals g).
Proof. intros Hg [w l] H. apply Hg. exact H. Qed.

Lemma stable_lift_sys call :
  (forall w l, P (mkFrame w l) -> P (mkFrame (fst (call w)) l)) ->
  stable (lift_sys call).
Proof.
  intros Hc [w l] H. unfold lift_sys. cbn [env locals].
  specialize (Hc w l H). destruct (call w) as [w' r]. exact Hc.
Qed.

Lemma stable_open mode :
  (forall w l, P (mkFrame w l) -> P (mkFrame (fst (sys_open mode w)) l)) ->
  stable (open_ mode).
Proof.
  intros Hc [w l] H. unfold open_. cbn [env locals].
  specialize (Hc w l H). destruct (sys_open mode w) as [w' r]. exact Hc.
Qed.

Lemma stable_queue_get :
  (forall w l x q, P (mkFrame w l) -> Queue.get (data_queue w) = Some (x, q) ->
                   P (mkFrame (set_data_queue q w) l)) ->
  stable queue_get.
Proof.
  intros Hq [w l] H. unfold queue_get. cbn [env locals].
  destruct (Queue.get (data_queue w)) as [[x q] |] eqn:Hget; [| exact H].
  apply (Hq w l x q H Hget).
Qed.

End Combinators.

(** Breaks a statement into its primitives; [tac] proves the side
    conditions of the primitives. *)
Ltac stable_split tac :=
  repeat first
    [ apply stable_ret | apply stable_raise | apply stable_get_locals
    | apply stable_bind; [| intros ?]
    | apply stable_try_except; [| intros ?]
    | apply stable_when
    | apply stable_if
    | apply stable_on_world; tac
    | apply stable_on_locals; tac
    | apply stable_lift_sys; tac
    | apply stable_open; tac
    | apply stable_queue_get; tac
    | match goal with
      | |- stable _ (match ?x with _ => _ end) => destruct x
      end ].

End Stable.

(** ** The states the program reaches *)

Module ReachableFacts.
Import Writer.
Import Stable.

Definition sound_item (x : item) : Prop :=
  match x with Some d => truthy d = true | None => True end.

(** Every chunk in the queue is non-empty. *)
Definition sound_queue (w : World) : Prop :=
  Forall sound_item (Queue.items (data_queue w)).

(** Inside [with ctx]: the name [file_handle] is bound to an open
    handle, and the handle the [with] was entered with is that handle
    or is closed. *)
Definition holds_file (ctx : handle) (f : Frame) : Prop :=
  exists h, file_handle (locals f) = Some h /\
            is_open h (env f) = true /\
            (ctx = h \/ is_open ctx (env f) = false) /\
            (ctx < List.length (handles (env f)))%nat.

Lemma holds_file_ext ctx w l w' l' :
  handles w' = handles w -> file_handle l' = file_handle l ->
  holds_file ctx (mkFrame w l) -> holds_file ctx (mkFrame w' l').
Proof.
  intros Hh Hf (h & H1 & H2 & H3 & H4). exists h.
  unfold is_open in *. cbn [env locals] in *. rewrite Hh, Hf. auto.
Qed.

Lemma next_fault_handles w : handles (snd (next_fault w)) = handles w.
Proof. unfold next_fault. destruct (faults w); reflexivity. Qed.

Lemma next_fault_queue w : data_queue (snd (next_fault w)) = data_queue w.
Proof. unfold next_fault. destruct (faults w); reflexivity. Qed.

Lemma sys_write_handles h data w : handles (fst (sys_write h data w)) = handles w.
Proof.
  unfold sys_write. destruct (is_open h w); [| reflexivity].
  pose proof (next_fault_handles w) as Hn.
  destruct (next_fault w) as [[e |] w']; exact Hn.
Qed.

Lemma sys_flush_handles h w : handles (fst (sys_flush h w)) = handles w.
Proof.
  unfold sys_flush. destruct (is_open h w); [| reflexivity].
  pose proof (next_fault_handles w) as Hn.
  destruct (next_fault w) as [f w']; exact Hn.
Qed.

Lemma sys_write_queue h data w : data_queue (fst (sys_write h data w)) = data_queue w.
Proof.
  unfold sys_write. destruct (is_open h w); [| reflexivity].
  pose proof (next_fault_queue w) as Hn.
  destruct (next_fault w) as [[e |] w']; exact Hn.
Qed.

Lemma sys_flush_queue h w : data_queue (fst (sys_flush h w)) = data_queue w.
Proof.
  unfold sys_flush. destruct (is_open h w); [| reflexivity].
  pose proof (next_fault_queue w) as Hn.
  destruct (next_fault w) as [f w']; exact Hn.
Qed.

Lemma sys_close_queue h w : data_queue (fst (sys_close h w)) = data_queue w.
Proof.
  unfold sys_close. destruct (is_open h w); [| reflexivity].
  pose proof (next_fault_queue w) as Hn.
  destruct (next_fault w) as [f w']; exact Hn.
Qed.

Lemma sys_open_queue mode w : data_queue (fst (sys_open mode w)) = data_queue w.
Proof.
  unfold sys_open. pose proof (next_fault_queue w) as Hn.
  destruct (next_fault w) as [[e |] w']; exact Hn.
Qed.

(** *** The queue stays sound *)

Definition queue_ok (f : Frame) : Prop := sound_queue (env f).

Ltac queue_side :=
  intros; unfold queue_ok, sound_queue in *; cbn [env] in *;
  rewrite ?sys_write_queue, ?sys_flush_queue, ?sys_close_queue, ?sys_open_queue;
  try assumption.

Lemma queue_get_sound w l x q :
  queue_ok (mkFrame w l) -> Queue.get (data_queue w) = Some (x, q) ->
  queue_ok (mkFrame (set_data_queue q w) l).
Proof.
  unfold queue_ok, sound_queue, Queue.get. cbn [env]. intros H Hget.
  destruct (Queue.items (data_queue w)) as [| y rest] eqn:Hitems; [discriminate |].
  injection Hget as _ <-. cbn. inversion H. assumption.
Qed.

Ltac queue_auto :=
  stable_split ltac:(first [ eapply queue_get_sound; eassumption | queue_side ]).

Lemma loop_iteration_queue now : stable queue_ok (loop_iteration now).
Proof.
  unfold loop_iteration, update, print_stderr, sleep, write, flush, close,
         the_file_handle,
         set_last_heartbeat, set_last_flush, set_written_bytes_total,
         set_file_handle.
  queue_auto.
Qed.

Lemma open_attempt_queue now : stable queue_ok (open_attempt now).
Proof.
  unfold open_attempt, update, print_stderr, sleep, set_retry_count, set_file_handle.
  queue_auto.
Qed.

Lemma leave_with_queue ctx raised : stable queue_ok (leave_with ctx raised).
Proof. unfold leave_with, close. queue_auto. Qed.

Lemma release_frame_queue : stable queue_ok release_frame.
Proof. unfold release_frame, close. queue_auto. Qed.

Lemma leave_try_queue now f r :
  queue_ok f -> sound_queue (leave_try now (f, r)).
Proof.
  intros H. unfold leave_try. apply release_frame_queue.
  assert (Hfin : stable queue_ok (finally_clause now))
    by (unfold finally_clause, update; queue_auto).
  assert (Hexc : forall e, stable queue_ok (except_clause now e))
    by (intros e; unfold except_clause, update, print_stderr; queue_auto).
  destruct r as [e | u].
  - apply (@stable_bind queue_ok unit unit); auto.
  - apply Hfin. exact H.
Qed.

(** *** The file stays held *)

Ltac file_side :=
  intros; eapply holds_file_ext; [| | eassumption]; cbn [env locals];
  rewrite ?sys_write_handles, ?sys_flush_handles; reflexivity.

Ltac file_auto := stable_split file_side.

(** [m] keeps the file held when it ends in [Next]. *)
Definition keeps (ctx : handle) (m : M Ctl) : Prop :=
  forall f, holds_file ctx f -> snd (m f) = inr Next -> holds_file ctx (fst (m f)).

Lemma keeps_stable ctx m : stable (holds_file ctx) m -> keeps ctx m.
Proof. intros H f Hf _. apply H. exact Hf. Qed.

Lemma keeps_bind ctx A (m : M A) (k : A -> M Ctl) :
  stable (holds_file ctx) m -> (forall a, keeps ctx (k a)) -> keeps ctx (bind m k).
Proof.
  intros Hm Hk f Hf. unfold bind. specialize (Hm f Hf).
  destruct (m f) as [f' [e | a]]; cbn [fst snd] in *; [discriminate |].
  apply Hk. exact Hm.
Qed.

Lemma keeps_try_except ctx (body : M Ctl) handler :
  stable (holds_file ctx) body -> (forall e, keeps ctx (handler e)) ->
  keeps ctx (try_except body handler).
Proof.
  intros Hm Hk f Hf. unfold try_except. specialize (Hm f Hf).
  destruct (body f) as [f' [e | a]]; cbn [fst snd] in *.
  - apply Hk. exact Hm.
  - intros _. exact Hm.
Qed.

(** The recovery: close, reopen, rebind. *)
Lemma keeps_reopen ctx now :
  keeps ctx
    (try_except
       (bind the_file_handle (fun h =>
        bind (close h) (fun _ =>
        bind (open_ AB) (fun h' =>
        bind (set_file_handle (Some h')) (fun _ => ret Next)))))
       (fun reopen_error =>
          if is_IOError reopen_error then
            let error_msg := MsgReopenFailed reopen_error in
            bind (print_stderr error_msg) (fun _ =>
            bind (update now None (Some error_msg) None) (fun _ => ret Break))
          else raise reopen_error)).
Proof.
  intros [[q st d hs fs tr] [total lh lf rc fh]] (h & Hfh & Hopen & Hctx & Hlt).
  cbn [env locals file_handle] in Hfh, Hopen, Hctx, Hlt. subst fh.
  unfold is_open in Hopen, Hctx. cbn [handles] in Hopen, Hctx, Hlt.
  assert (Hnew : forall hs', List.length hs' = List.length hs ->
                 nth (List.length hs) (hs' ++ [true]) false = true).
  { intros hs' Hl. rewrite app_nth2 by lia. rewrite Hl, Nat.sub_diag. reflexivity. }
  assert (Hctx' : nth ctx (mark_closed h hs ++ [true]) false = false).
  { rewrite app_nth1 by (rewrite length_mark_closed; exact Hlt).
    rewrite nth_mark_closed. destruct Hctx as [-> | ->].
    - rewrite Nat.eqb_refl. reflexivity.
    - destruct (Nat.eqb ctx h); reflexivity. }
  destruct fs as [| [e1 |] [| [e2 |] fs']];
    try destruct e1; try destruct e2;
    repeat (crunch; rewrite ?Hopen); intros Hres; try discriminate Hres;
    (exists (List.length (mark_closed h hs)); cbn [env locals file_handle handles];
     unfold is_open; cbn [handles];
     rewrite ?length_mark_closed, ?length_app; cbn [List.length];
     repeat split;
     first [ apply Hnew; apply length_mark_closed
           | right; exact Hctx'
           | rewrite ?length_mark_closed; lia ]).
Qed.

Lemma loop_iteration_keeps ctx now : keeps ctx (loop_iteration now).
Proof.
  unfold loop_iteration.
  apply keeps_bind; [apply stable_get_locals | intros l].
  apply keeps_bind.
  { unfold update, set_last_heartbeat. file_auto. }
  intros _. apply keeps_bind; [apply stable_get_locals | intros l'].
  apply keeps_bind.
  { unfold update, print_stderr, flush, the_file_handle, set_last_flush. file_auto. }
  intros _. apply keeps_try_except.
  { unfold update, print_stderr, write, the_file_handle, set_written_bytes_total.
    file_auto. }
  intros e. destruct (is_QueueEmpty e); [apply keeps_stable, stable_ret |].
  destruct (is_IOError e).
  - cbv zeta. apply keeps_bind; [unfold print_stderr; file_auto | intros _].
    apply keeps_bind; [unfold update; file_auto | intros _].
    apply keeps_reopen.
  - cbv zeta. apply keeps_stable. unfold print_stderr, update. file_auto.
Qed.

(** *** Every state the program reaches *)

Definition thread_ok (t : pc) (w : World) : Prop :=
  match t with
  | WhileTrue ctx l => holds_file ctx (mkFrame w l)
  | RetryLoop l =>
      match file_handle l with
      | Some h => is_open h w = true
      | None => True
      end
  | Spawned | Finished => True
  end.

Definition well_formed (s : System) : Prop :=
  sound_queue (world s) /\ thread_ok (writer_thread s) (world s).

Lemma thread_ok_ext t w w' :
  handles w' = handles w -> thread_ok t w -> thread_ok t w'.
Proof.
  intros Hh H. destruct t as [| l | ctx l |]; cbn in *; try exact I.
  - destruct (file_handle l); [| exact I]. unfold is_open in *. rewrite Hh. exact H.
  - eapply holds_file_ext; [exact Hh | reflexivity | exact H].
Qed.

Lemma open_attempt_opens now w l :
  file_handle l = None ->
  let r := open_attempt now (mkFrame w l) in
  match snd r with
  | inr _ => thread_ok (RetryLoop (locals (fst r))) (env (fst r))
  | inl _ => True
  end.
Proof.
  intros Hfh. destruct w as [q st d hs fs tr], l as [total lh lf rc fh].
  cbn in Hfh. subst fh. cbv zeta.
  destruct fs as [| [[| text | cause | text] |] fs'];
    try (destruct (3 <=? rc + 1) eqn:Hlast);
    repeat (crunch; rewrite ?Hlast); try exact I.
  all: rewrite app_nth2 by lia; rewrite Nat.sub_diag; reflexivity.
Qed.

Lemma step_well_formed now t w :
  sound_queue w -> thread_ok t w ->
  sound_queue (fst (step now t w)) /\
  thread_ok (snd (step now t w)) (fst (step now t w)).
Proof.
  intros Hq Ht. destruct t as [| l | ctx l |].
  - cbn. split; [exact Hq | exact I].
  - unfold step.
    destruct ((retry_count l <? max_retry_count) && is_None (file_handle l)) eqn:Htest.
    + apply andb_true_iff in Htest. destruct Htest as [_ Hnone].
      assert (Hfh : file_handle l = None) by (destruct (file_handle l); [discriminate | reflexivity]).
      pose proof (@open_attempt_opens now w l Hfh) as Hopen. cbv zeta in Hopen.
      pose proof (@open_attempt_queue now (mkFrame w l) Hq) as Hq'.
      destruct (open_attempt now (mkFrame w l)) as [f [e | u]]; cbn [fst snd] in *.
      * split; [apply leave_try_queue; exact Hq' | exact I].
      * split; [exact Hq' | exact Hopen].
    + destruct (file_handle l) as [h |] eqn:Hfh; cbn [fst snd].
      * split; [exact Hq |]. cbn [thread_ok] in *. rewrite Hfh in Ht.
        exists h. cbn [env locals]. repeat split; auto.
        apply open_handle_in_table. exact Ht.
      * split; [apply leave_try_queue; exact Hq | exact I].
  - unfold step. cbn [thread_ok] in Ht.
    pose proof (@loop_iteration_queue now (mkFrame w l) Hq) as Hq'.
    pose proof (@loop_iteration_keeps ctx now (mkFrame w l) Ht) as Hk.
    destruct (loop_iteration now (mkFrame w l)) as [f [e | [|]]]; cbn [fst snd] in *.
    + split; [| exact I].
      pose proof (@leave_with_queue ctx (Some e) f Hq') as Hl.
      destruct (leave_with ctx (Some e) f) as [f' r']. apply leave_try_queue. exact Hl.
    + split; [exact Hq' |]. destruct f as [w' l']. apply Hk. reflexivity.
    + split; [| exact I].
      pose proof (@leave_with_queue ctx None f Hq') as Hl.
      destruct (leave_with ctx None f) as [f' r']. apply leave_try_queue. exact Hl.
  - cbn. split; [exact Hq | exact I].
Qed.

Lemma act_well_formed a s : well_formed s -> well_formed (act s a).
Proof.
  intros [Hq Ht]. destruct s as [w t p]. cbn [world writer_thread] in Hq, Ht.
  destruct a as [buffer_ptr length | code msg | now | now |]; cbn [act world writer_thread port_open].
  - (* py_data_callback *)
    unfold well_formed. cbn [world writer_thread].
    unfold py_data_callback, Queue.put_nowait.
    destruct buffer_ptr as [memory |]; [| split; assumption].
    destruct (Z.ltb_spec 0 length) as [Hpos | _]; [| split; assumption].
    destruct (Queue.full (data_queue w)).
    + split; [exact Hq | eapply thread_ok_ext; [| exact Ht]; reflexivity].
    + split; [| eapply thread_ok_ext; [| exact Ht]; reflexivity].
      unfold sound_queue. cbn. apply Forall_app. split; [exact Hq |].
      constructor; [| constructor]. cbn. apply truthy_slice. exact Hpos.
  - split; [exact Hq | eapply thread_ok_ext; [| exact Ht]; reflexivity].
  - pose proof (@step_well_formed now t w Hq Ht) as H.
    destruct (step now t w) as [w' t']. exact H.
  - unfold Supervisor.check_writer_thread. cbn [world writer_thread port_open].
    destruct (Writer.is_alive t) eqn:Halive; cbn [negb fst]; [split; assumption |].
    destruct (WriterThreadStatus.running _).
    + split; [exact Hq | eapply thread_ok_ext; [| exact Ht]; reflexivity].
    + destruct (Queue.empty (data_queue w)).
      * split; [exact Hq | eapply thread_ok_ext; [| exact Ht]; reflexivity].
      * split; [exact Hq | exact I].
  - unfold Queue.put, Queue.put_nowait.
    destruct (Queue.full (data_queue w)); [split; assumption |].
    split; [| eapply thread_ok_ext; [| exact Ht]; reflexivity].
    unfold sound_queue. cbn. apply Forall_app. split; [exact Hq |].
    constructor; [exact I | constructor].
Qed.

(** Every state reached from the start of the program is well formed,
    whatever the schedule and whatever the system calls do. *)
Lemma reachable_well_formed existing_file script schedule :
  well_formed (run (launch existing_file script) schedule).
Proof.
  assert (H0 : well_formed (launch existing_file script)) by (split; [constructor | exact I]).
  revert H0. generalize (launch existing_file script).
  induction schedule as [| a schedule IH]; intros s Hs; [exact Hs |].
  cbn [run fold_left]. apply IH. apply act_well_formed. exact Hs.
Qed.

End ReachableFacts.

(** ** The callbacks *)

Module BridgeFacts.

(** What one call of the data callback does, by the state of the
    queue. *)
Lemma push_cases memory length w :
  0 < length ->
  let w' := py_data_callback (Some memory) length w in
  if Queue.full (data_queue w)
  then w' = emit (Stderr MsgQueueFull) w
  else w' = set_data_queue
              (Queue.mk (Queue.maxsize (data_queue w))
                 (Queue.items (data_queue w) ++ [Some (slice memory length)])) w.
Proof.
  intros Hpos. cbn. apply Z.ltb_lt in Hpos. rewrite Hpos.
  unfold Queue.put_nowait. destruct (Queue.full (data_queue w)); reflexivity.
Qed.

Definition chunk_of (c : (nat -> Byte.byte) * Z) : item :=
  Some (slice (fst c) (snd c)).
Definition deliver (c : (nat -> Byte.byte) * Z) : Action :=
  DataCallback (Some (fst c)) (snd c).

Section Burst.
Variable cap : nat.
Hypothesis cap_pos : (0 < cap)%nat.

Lemma full_iff (q : Queue.t item) :
  Queue.maxsize q = Z.of_nat cap ->
  Queue.full q = (cap <=? List.length (Queue.items q))%nat.
Proof.
  intros Hmax. unfold Queue.full, Queue.qsize. rewrite Hmax.
  replace (0 <? Z.of_nat cap) with true by (symmetry; apply Z.ltb_lt; lia).
  cbn [andb].
  destruct (Nat.leb_spec cap (List.length (Queue.items q)));
    [apply Z.leb_le | apply Z.leb_gt]; lia.
Qed.

(** Pushing a burst with no consumer in between fills the free slots
    in order and turns every further chunk into one warning. *)
Lemma burst_fills_then_drops burst :
  Forall (fun c => 0 < snd c) burst ->
  forall s,
    Queue.maxsize (data_queue (world s)) = Z.of_nat cap ->
    let free := (cap - List.length (Queue.items (data_queue (world s))))%nat in
    let s' := run s (map deliver burst) in
    Queue.items (data_queue (world s'))
      = Queue.items (data_queue (world s)) ++ map chunk_of (firstn free burst) /\
    warnings (trace (world s'))
      = (warnings (trace (world s)) + (List.length burst - free))%nat.
Proof.
  induction 1 as [| c burst Hc _ IH]; intros s Hmax.
  - cbn. rewrite firstn_nil, app_nil_r. split; [reflexivity | lia].
  - cbn zeta. cbn [map run fold_left]. fold (run (act s (deliver c)) (map deliver burst)).
    pose proof (push_cases (fst c) (world s) Hc) as Hpush. cbn zeta in Hpush.
    rewrite (full_iff _ Hmax) in Hpush.
    assert (Hact : act s (deliver c)
                   = mkSystem (py_data_callback (Some (fst c)) (snd c) (world s))
                              (writer_thread s) (port_open s)) by reflexivity.
    destruct (Nat.leb_spec cap (List.length (Queue.items (data_queue (world s)))))
      as [Hfull | Hroom].
    + specialize (IH (act s (deliver c))).
      rewrite Hact in *. rewrite Hpush in *. cbn [world data_queue emit trace] in *.
      specialize (IH Hmax). destruct IH as [IHq IHw].
      rewrite IHq, IHw, warnings_app.
      replace (cap - List.length (Queue.items (data_queue (world s))))%nat
        with O by lia.
      cbn. split; [reflexivity | lia].
    + specialize (IH (act s (deliver c))).
      rewrite Hact in *. rewrite Hpush in *.
      cbn [world data_queue set_data_queue trace Queue.maxsize Queue.items] in *.
      specialize (IH Hmax). destruct IH as [IHq IHw].
      rewrite IHq, IHw, length_app. cbn [List.length].
      destruct (cap - List.length (Queue.items (data_queue (world s))))%nat
        as [| free'] eqn:Hfree; [lia |].
      replace (cap - (List.length (Queue.items (data_queue (world s))) + 1))%nat
        with free' by lia.
      cbn [firstn map]. rewrite <- app_assoc. split; [reflexivity | lia].
Qed.

End Burst.

(** C5. The data callback never waits: for every chunk it returns
    having either appended the chunk to the queue or, when the queue
    is full, left the queue as it was and written one warning. With
    the queue of the program (4096 entries, empty at the start) and no
    consumption, a burst of 4096 + k chunks leaves exactly the first
    4096 queued, in order, and produces exactly k warnings. *)
Theorem push_never_blocks_overflow_drops :
  forall existing_file script burst k,
    Forall (fun c => 0 < snd c) burst ->
    List.length burst = (Z.to_nat 4096 + k)%nat ->
    let s := run (launch existing_file script) (map deliver burst) in
    Queue.items (data_queue (world s))
      = map chunk_of (firstn (Z.to_nat 4096) burst) /\
    warnings (trace (world s)) = k /\
    forall c w, In c burst ->
      let w' := py_data_callback (Some (fst c)) (snd c) w in
      if Queue.full (data_queue w)
      then data_queue w' = data_queue w /\
           trace w' = trace w ++ [Stderr MsgQueueFull]
      else Queue.items (data_queue w')
             = Queue.items (data_queue w) ++ [chunk_of c] /\
           trace w' = trace w.
Proof.
  intros existing_file script burst k Hpos Hlen.
  assert (Hcap : (0 < Z.to_nat 4096)%nat) by lia.
  destruct (@burst_fills_then_drops (Z.to_nat 4096) Hcap burst Hpos
              (launch existing_file script)) as [Hq Hw].
  { cbn [launch boot world data_queue Queue.new Queue.maxsize]. lia. }
  cbn zeta. split; [| split].
  - rewrite Hq. cbn [launch boot world data_queue Queue.new Queue.items List.length].
    rewrite Nat.sub_0_r. reflexivity.
  - rewrite Hw. cbn [launch boot world data_queue Queue.new Queue.items
                       List.length trace warnings]. lia.
  - intros c w Hin. rewrite Forall_forall in Hpos.
    pose proof (push_cases (fst c) w (Hpos c Hin)) as Hpush. cbn zeta in Hpush.
    destruct (Queue.full (data_queue w)); rewrite Hpush; split; reflexivity.
Qed.

Definition one_byte : (nat -> Byte.byte) * Z := (fun _ => Byte.x55, 1).

Lemma push_never_blocks_overflow_drops_witness :
  let burst := repeat one_byte (Z.to_nat 4096 + 2) in
  let s := run (launch None []) (map deliver burst) in
  Queue.items (data_queue (world s))
    = map chunk_of (firstn (Z.to_nat 4096) burst) /\
  warnings (trace (world s)) = 2%nat.
Proof.
  intros burst s.
  destruct (@push_never_blocks_overflow_drops None []
              (repeat one_byte (Z.to_nat 4096 + 2)) 2%nat) as (Hq & Hw & _).
  - apply Forall_forall. intros c Hc. apply repeat_spec in Hc. subst c.
    cbn. lia.
  - apply repeat_length.
  - split; [exact Hq | exact Hw].
Defined.

(** C2, what the code does. In [bes_log_to_bin_script.py] a call of
    the error callback, whatever the code and the message, sets the
    stop event as soon as one of its two [print]s has succeeded, that
    of the body or else that of the handler: the main loop then ends,
    and the writer's loop goes on only while the queue holds data. When
    both [print]s raise, the exception leaves the callback before the
    event is set, and nothing has changed. In [log2bin_script.py] the
    error callback writes at most one line to stderr and changes
    nothing else. *)
Theorem error_callback_policy :
  forall error_code error_message_ptr raised handler_raised,
    (forall s,
       let s' := Legacy.py_error_callback error_code error_message_ptr
                   raised handler_raised s in
       match raised, handler_raised with
       | Some _, Some _ => s' = s
       | _, _ =>
           Legacy.g_stop_event s' = true /\
           Legacy.main_loop_test s' = false /\
           Legacy.data_queue s' = Legacy.data_queue s /\
           Legacy.writer_loop_test s' = negb (Queue.empty (Legacy.data_queue s)) /\
           exists line, Legacy.stderr s' = Legacy.stderr s ++ [line]
       end) /\
    (forall w,
       let w' := py_error_callback error_code error_message_ptr
                   raised handler_raised w in
       match raised, handler_raised with
       | Some _, Some _ => w' = w
       | _, _ => exists line, w' = emit (Stderr line) w
       end).
Proof.
  intros error_code error_message_ptr raised handler_raised. split.
  - intros s. destruct raised, handler_raised; cbn; repeat split; eauto.
  - intros w. destruct raised, handler_raised; cbn; eauto.
Qed.

(** The capture program with its writer at work. *)
Definition capturing : System :=
  run (launch None []) [WriterStep 0; WriterStep 0; WriterStep 0].

(** C2 as written fails in [log2bin_script.py]: after the error
    callback the supervising loop goes on, the port is still open, no
    stop signal is queued and the register is untouched; the call left
    one line on stderr. *)
Lemma error_callback_absorbed :
  let s' := act capturing (ErrorCallback 31 (Some "device removed"%string)) in
  Supervisor.keeps_supervising 5000 s' = true /\
  port_open s' = true /\
  Queue.items (data_queue (world s')) = [] /\
  writer_status (world s') = writer_status (world capturing) /\
  writer_thread s' = writer_thread capturing /\
  trace (world s')
    = trace (world capturing)
        ++ [Stderr (MsgDllError 31 "device removed"%string)].
Proof. vm_compute. repeat split. Qed.

End BridgeFacts.

(** ** The writer thread: opening the file *)

Module StartingFacts.
Import Writer.

Definition fail (text : string) : option Exn := Some (IOError text).

(** The writer thread alone takes [times] steps. *)
Definition writer_runs (times : list Z) : list Action := map WriterStep times.

(** The file has been opened [n] times with mode 'wb'. *)
Definition opened_times (n : nat) (f : Frame) : Prop :=
  opens WB (trace (env f)) = n.

Lemma next_fault_trace w : trace (snd (next_fault w)) = trace w.
Proof. unfold next_fault. destruct (faults w); reflexivity. Qed.

Lemma sys_write_opens h data w :
  opens WB (trace (fst (sys_write h data w))) = opens WB (trace w).
Proof.
  unfold sys_write. destruct (is_open h w); [| reflexivity].
  pose proof (next_fault_trace w) as Hnf.
  destruct (next_fault w) as [[e |] w']; cbn in *;
    rewrite opens_app, Hnf; cbn; lia.
Qed.

Lemma sys_flush_opens h w :
  opens WB (trace (fst (sys_flush h w))) = opens WB (trace w).
Proof.
  unfold sys_flush. destruct (is_open h w); [| reflexivity].
  pose proof (next_fault_trace w) as Hnf.
  destruct (next_fault w) as [f w']; cbn in *;
    rewrite opens_app, Hnf; cbn; lia.
Qed.

Lemma sys_close_opens h w :
  opens WB (trace (fst (sys_close h w))) = opens WB (trace w).
Proof.
  unfold sys_close. destruct (is_open h w); [| reflexivity].
  pose proof (next_fault_trace w) as Hnf.
  destruct (next_fault w) as [f w']; cbn in *;
    rewrite opens_app, Hnf; cbn; lia.
Qed.

Lemma sys_open_append_opens w :
  opens WB (trace (fst (sys_open AB w))) = opens WB (trace w).
Proof.
  unfold sys_open. pose proof (next_fault_trace w) as Hnf.
  destruct (next_fault w) as [[e |] w']; cbn in *;
    rewrite opens_app, Hnf; cbn; lia.
Qed.

Lemma emit_opens e w :
  match e with SysOpen WB _ => False | _ => True end ->
  opens WB (trace (emit e w)) = opens WB (trace w).
Proof.
  intros He. cbn. rewrite opens_app.
  destruct e as [[|] ? | | | | |]; cbn; first [lia | contradiction].
Qed.

Ltac opens_side :=
  intros; unfold opened_times in *; cbn [env] in *;
  rewrite ?sys_write_opens, ?sys_flush_opens, ?sys_close_opens,
          ?sys_open_append_opens, ?emit_opens by exact I;
  assumption.

Ltac opens_auto := Stable.stable_split opens_side.

(** Nothing in a pass through [while True], nor on the way out of the
    function, opens the file with mode 'wb'. *)
Lemma loop_iteration_opens n now :
  Stable.stable (opened_times n) (loop_iteration now).
Proof.
  unfold loop_iteration, update, print_stderr, sleep, write, flush, close,
         the_file_handle, set_last_heartbeat, set_last_flush,
         set_written_bytes_total, set_file_handle.
  opens_auto.
Qed.

Lemma leave_with_opens n ctx raised :
  Stable.stable (opened_times n) (leave_with ctx raised).
Proof. unfold leave_with, close. opens_auto. Qed.

Lemma release_frame_opens n : Stable.stable (opened_times n) release_frame.
Proof. unfold release_frame, close. opens_auto. Qed.

Lemma leave_try_opens now f r :
  opens WB (trace (leave_try now (f, r))) = opens WB (trace (env f)).
Proof.
  unfold leave_try. apply release_frame_opens.
  assert (Hfin : forall n, Stable.stable (opened_times n) (finally_clause now))
    by (intros n; unfold finally_clause, update; opens_auto).
  assert (Hexc : forall n e, Stable.stable (opened_times n) (except_clause now e))
    by (intros n e; unfold except_clause, update, print_stderr; opens_auto).
  destruct r as [e | u].
  - apply (@Stable.stable_bind (opened_times (opens WB (trace (env f)))) unit unit);
      [apply Hexc | intros _; apply Hfin | reflexivity].
  - apply Hfin. reflexivity.
Qed.

Lemma leave_try_opens_with now ctx raised f :
  opens WB (trace (leave_try now (leave_with ctx raised f)))
  = opens WB (trace (env f)).
Proof.
  pose proof (@leave_with_opens (opens WB (trace (env f))) ctx raised f eq_refl) as Hl.
  destruct (leave_with ctx raised f) as [f' r']. cbn [fst] in Hl.
  rewrite leave_try_opens. exact Hl.
Qed.

(** The number of 'wb' opens so far, by the place of the thread. *)
Definition attempts_ok (t : pc) (w : World) : Prop :=
  match t with
  | Spawned => opens WB (trace w) = 0%nat
  | RetryLoop l =>
      0 <= retry_count l <= 2 /\
      opens WB (trace w)
      = (Z.to_nat (retry_count l)
         + match file_handle l with Some _ => 1 | None => 0 end)%nat
  | WhileTrue _ _ | Finished => (opens WB (trace w) <= 3)%nat
  end.

Lemma step_attempts now t w :
  attempts_ok t w ->
  attempts_ok (snd (step now t w)) (fst (step now t w)).
Proof.
  intros H. destruct t as [| l | ctx l |].
  - cbn in *. split; [lia | exact H].
  - destruct l as [total lh lf rc fh]. cbn [attempts_ok retry_count file_handle] in H.
    destruct H as [Hrc Hopens].
    assert (Hlt : (rc <? 3) = true) by (apply Z.ltb_lt; lia).
    destruct w as [q st d hs fs tr]. cbn [trace] in Hopens.
    destruct fh as [h |];
      [| destruct fs as [| [[| text | cause | text] |] fs'];
         try (destruct (3 <=? rc + 1) eqn:Hlast) ];
      match goal with
      | |- context [step ?n ?t ?w] =>
          let E := fresh "E" in
          eassert (E : step n t w = _);
          [ repeat (crunch; decide_tests; rewrite ?Hlast, ?Hlt); crunch; reflexivity
          | rewrite E; clear E ]
      end;
      cbn [fst snd attempts_ok retry_count file_handle trace];
      rewrite ?opens_app; cbn [opens is_mode];
      try apply Z.leb_gt in Hlast; try apply Z.leb_le in Hlast; lia.
  - unfold step.
    pose proof (@loop_iteration_opens (opens WB (trace w)) now (mkFrame w l) eq_refl)
      as Hq.
    unfold opened_times in Hq. cbn [attempts_ok] in H.
    destruct (loop_iteration now (mkFrame w l)) as [f [e | [|]]];
      cbn [fst snd env attempts_ok] in *;
      rewrite ?leave_try_opens_with; lia.
  - exact H.
Qed.

Lemma writer_runs_attempts times :
  forall s,
    attempts_ok (writer_thread s) (world s) ->
    let s' := run s (writer_runs times) in
    attempts_ok (writer_thread s') (world s').
Proof.
  induction times as [| now times IH]; intros s Hs; [exact Hs |].
  cbn [writer_runs map run fold_left]. apply IH.
  pose proof (@step_attempts now (writer_thread s) (world s) Hs) as Hstep.
  cbn [act]. destruct (step now (writer_thread s) (world s)) as [w t].
  exact Hstep.
Qed.

Lemma at_most_three_opens existing_file script times :
  (opens WB (trace (world (run (launch existing_file script) (writer_runs times))))
   <= 3)%nat.
Proof.
  pose proof (@writer_runs_attempts times (launch existing_file script) eq_refl) as H.
  cbv zeta in H.
  destruct (writer_thread (run (launch existing_file script) (writer_runs times)))
    as [| l | ctx l |]; cbn [attempts_ok] in H; try lia.
  destruct H as [Hrc ->]. destruct (file_handle l); lia.
Qed.

(** A thread whose function returned takes no further step. *)
Lemma finished_stays s later :
  writer_thread s = Finished -> run s (writer_runs later) = s.
Proof.
  intros Hfin. induction later as [| t later IH]; [reflexivity |].
  cbn [writer_runs map run fold_left].
  replace (act s (WriterStep t)) with s; [exact IH |].
  destruct s as [w th p]. cbn in Hfin. subst th. reflexivity.
Qed.

(** C7. From its start the worker sleeps one second after a failed
    attempt to open the file that is not the last; an open that succeeds
    at the first, second or third attempt takes the worker into the
    [while True] loop with the register saying running; three failed
    attempts end the worker with the register saying not running and
    holding the error raised for the last open error, and no fourth
    attempt is made. Whatever the system calls do, and however long the
    worker runs, it opens the file with mode 'wb' at most three times. *)
Theorem open_retried_three_times :
  forall existing_file rest e1 e2 e3 t0 t1 t2 t3 t4,
    (let s := run (launch existing_file (None :: rest))
                  (writer_runs [t0; t1; t2]) in
     writer_thread s = WhileTrue 0%nat (mkLocals 0 t0 t0 0 (Some 0%nat)) /\
     WriterThreadStatus.running (writer_status (world s)) = true /\
     is_open 0%nat (world s) = true /\
     trace (world s) = [SysOpen WB (inr 0%nat)]) /\
    (let s := run (launch existing_file (fail e1 :: None :: rest))
                  (writer_runs [t0; t1; t2; t3]) in
     writer_thread s = WhileTrue 0%nat (mkLocals 0 t0 t0 1 (Some 0%nat)) /\
     WriterThreadStatus.running (writer_status (world s)) = true /\
     is_open 0%nat (world s) = true /\
     trace (world s) =
       [SysOpen WB (inl (IOError e1));
        Stderr (MsgOpenFailed 1 3 (IOError e1)); Sleep (seconds 1);
        SysOpen WB (inr 0%nat)]) /\
    (let s := run (launch existing_file (fail e1 :: fail e2 :: None :: rest))
                  (writer_runs [t0; t1; t2; t3; t4]) in
     writer_thread s = WhileTrue 0%nat (mkLocals 0 t0 t0 2 (Some 0%nat)) /\
     WriterThreadStatus.running (writer_status (world s)) = true /\
     is_open 0%nat (world s) = true /\
     trace (world s) =
       [SysOpen WB (inl (IOError e1));
        Stderr (MsgOpenFailed 1 3 (IOError e1)); Sleep (seconds 1);
        SysOpen WB (inl (IOError e2));
        Stderr (MsgOpenFailed 2 3 (IOError e2)); Sleep (seconds 1);
        SysOpen WB (inr 0%nat)]) /\
    (let s := run (launch existing_file (fail e1 :: fail e2 :: fail e3 :: rest))
                  (writer_runs [t0; t1; t2; t3]) in
     writer_thread s = Finished /\
     writer_status (world s) =
       WriterThreadStatus.mk false
         (Some (MsgInitFailed (MaxRetriesReached (IOError e3)))) 0 t3 false /\
     handles (world s) = [] /\
     faults (world s) = rest /\
     trace (world s) =
       [SysOpen WB (inl (IOError e1));
        Stderr (MsgOpenFailed 1 3 (IOError e1)); Sleep (seconds 1);
        SysOpen WB (inl (IOError e2));
        Stderr (MsgOpenFailed 2 3 (IOError e2)); Sleep (seconds 1);
        SysOpen WB (inl (IOError e3));
        Stderr (MsgOpenFailed 3 3 (IOError e3));
        Stderr (MsgInitFailed (MaxRetriesReached (IOError e3)))] /\
     forall later,
       run s (writer_runs later) = s) /\
    (forall script times,
       (opens WB (trace (world (run (launch existing_file script)
                                    (writer_runs times)))) <= 3)%nat).
Proof.
  intros. cbv zeta.
  repeat match goal with |- _ /\ _ => split end;
    try (intros; apply at_most_three_opens);
    try (intros later; apply finished_stays);
    vm_compute; reflexivity.
Qed.

End StartingFacts.

(** ** The writer thread: restart and exit *)

Module SessionFacts.
Import Writer.

(** A session whose writer dies: the first chunk reaches the file, the
    write of the second fails and so does the reopen; a third chunk
    arrives afterwards. *)
Definition crashed_session : System :=
  run (launch None [None; None; Some (IOError "disk error"); None;
                    Some (IOError "disk error")])
      [DataCallback (bytes_at [Byte.x01; Byte.x02]) 2;
       DataCallback (bytes_at [Byte.x03]) 1;
       WriterStep 0; WriterStep 10; WriterStep 20;
       WriterStep 30; WriterStep 40;
       DataCallback (bytes_at [Byte.x04]) 1].

(** C1 fails on the code. After the crash the file holds the two bytes
    of the first chunk, the thread is dead, the register says not
    running and a chunk is waiting, so the supervisor starts a
    replacement; the replacement opens the path with mode 'wb' and the
    file is empty after its open. *)
Theorem replacement_truncates :
  let restarted := act crashed_session (SupervisorCheck 5000) in
  let reopened := run restarted [WriterStep 5000; WriterStep 5010] in
  file_bytes (world crashed_session) = [Byte.x01; Byte.x02] /\
  writer_thread crashed_session = Finished /\
  writer_thread restarted = start_writer_thread /\
  file_bytes (world restarted) = [Byte.x01; Byte.x02] /\
  last (trace (world reopened)) (Sleep 0) = SysOpen WB (inr 1%nat) /\
  file_bytes (world reopened) = [].
Proof. vm_compute. repeat split. Qed.


End SessionFacts.

(** ** The writer thread: one pass through the loop *)

Module RunningFacts.
Import Writer.

(** A pass of the loop, with the flush due or not, in which the write
    of a chunk fails with an I/O error, from a state in which
    [file_handle] is bound to an open handle. *)
Lemma write_failure_pass :
  forall now ctx l w h data more flush_error e close_error reopen_error rest,
    file_handle l = Some h ->
    is_open h w = true ->
    ctx = h \/ is_open ctx w = false ->
    Queue.items (data_queue w) = Some data :: more ->
    data <> [] ->
    let flush_due := flush_interval <=? now - last_flush l in
    faults w
      = (if flush_due then [option_map IOError flush_error] else [])
          ++ Some (IOError e) :: option_map IOError close_error
          :: match close_error with
             | None => option_map IOError reopen_error :: rest
             | Some _ => rest
             end ->
    let r := step now (WhileTrue ctx l) w in
    let flushing :=
      if flush_due
      then SysFlush h (option_map IOError flush_error)
             :: match flush_error with
                | Some t => [Stderr (MsgFlushFailed (IOError t))]
                | None => []
                end
      else [] in
    let recovery :=
      [SysWrite h data (Some (IOError e));
       Stderr (MsgWriteFailed (IOError e));
       Stderr (MsgWriteFailed (IOError e));
       SysClose h (option_map IOError close_error)] in
    let h' := List.length (handles w) in
    match close_error, reopen_error with
    | None, None =>
        (exists l', snd r = WhileTrue ctx l' /\
                    file_handle l' = Some h' /\
                    written_bytes_total l' = written_bytes_total l) /\
        is_open h' (fst r) = true /\
        is_open h (fst r) = false /\
        file_bytes (fst r) = file_bytes w /\
        WriterThreadStatus.running (writer_status (fst r))
          = WriterThreadStatus.running (writer_status w) /\
        WriterThreadStatus.error (writer_status (fst r))
          = Some (MsgWriteFailed (IOError e)) /\
        trace (fst r)
          = trace w ++ flushing ++ recovery ++ [SysOpen AB (inr h')]
    | None, Some e' =>
        snd r = Finished /\
        is_open h (fst r) = false /\
        WriterThreadStatus.running (writer_status (fst r)) = false /\
        WriterThreadStatus.error (writer_status (fst r))
          = Some (MsgReopenFailed (IOError e')) /\
        WriterThreadStatus.bytes_written (writer_status (fst r))
          = written_bytes_total l /\
        trace (fst r)
          = trace w ++ flushing ++ recovery
              ++ [SysOpen AB (inl (IOError e'));
                  Stderr (MsgReopenFailed (IOError e'))]
    | Some c, _ =>
        snd r = Finished /\
        is_open h (fst r) = false /\
        WriterThreadStatus.running (writer_status (fst r)) = false /\
        WriterThreadStatus.error (writer_status (fst r))
          = Some (MsgReopenFailed (IOError c)) /\
        WriterThreadStatus.bytes_written (writer_status (fst r))
          = written_bytes_total l /\
        trace (fst r)
          = trace w ++ flushing ++ recovery
              ++ [Stderr (MsgReopenFailed (IOError c))]
    end.
Proof.
  intros now ctx l w h data more flush_error e close_error reopen_error rest
         Hfh Hopen Hctx Hq Hdata flush_due Hfaults.
  destruct w as [[m items] st d hs fs tr], l as [total lh lf rc fh].
  cbn in Hfh, Hopen, Hq. subst fh items. subst flush_due.
  cbn [faults last_flush] in Hfaults. cbn [last_flush].
  change flush_interval with 5000 in *.
  unfold is_open in Hctx. cbn [handles] in Hctx.
  assert (Hctx' : nth ctx (mark_closed h hs) false = false).
  { rewrite nth_mark_closed. destruct Hctx as [-> | ->].
    - rewrite Nat.eqb_refl. reflexivity.
    - destruct (Nat.eqb ctx h); reflexivity. }
  assert (Hh' : nth h (mark_closed h hs) false = false).
  { rewrite nth_mark_closed, Nat.eqb_refl. reflexivity. }
  destruct data as [| b data]; [congruence |]. clear Hdata Hctx.
  pose proof (open_handle_in_table h hs Hopen) as Hlt.
  cbv zeta.
  destruct (5000 <=? now - lf) eqn:Hfl, flush_error as [t |];
    destruct close_error as [c |];
    cbn [app option_map] in Hfaults; subst fs;
    destruct (1000 <=? now - lh) eqn:Hhb, reopen_error as [e' |];
    repeat (crunch; first [rewrite Hhb | rewrite Hfl | rewrite Hopen
                           | rewrite Hctx' | rewrite Hh']);
    crunch; rewrite ?RegisterFacts.update_fields, ?length_mark_closed; cbn;
    repeat match goal with
           | |- _ /\ _ => split
           | |- exists _, _ => eexists
           | |- _ = _ => first [reflexivity | exact Hh'
                                | rewrite <- !app_assoc; reflexivity]
           end.
  all: try (rewrite app_nth2; rewrite length_mark_closed;
            [rewrite Nat.sub_diag; reflexivity | lia]).
  all: try (rewrite app_nth1 by (rewrite length_mark_closed; exact Hlt);
            rewrite nth_mark_closed, Nat.eqb_refl; reflexivity).
Qed.

(** C8, what the code does. Take any state the program reaches in which
    the worker is in its loop and a chunk is at the head of the queue,
    and a pass of the loop, with the flush due or not, in which the
    write of that chunk fails with an I/O error. The worker makes one
    recovery attempt, which begins with closing the handle
    [file_handle] is bound to. If the close succeeds the path is opened
    once, with mode 'ab': if that open succeeds the worker stays in the
    loop with [file_handle] bound to the new handle, the file keeps its
    content, and the register still says what it said about running;
    if it fails with an I/O error the worker ends, and the register
    says not running and holds the reopen error. If the close itself
    fails with an I/O error the path is not opened again at all: the
    worker ends, the register says not running, and the error of the
    close is recorded under the message of a failed reopening. *)
Theorem write_failure_one_reopen :
  forall existing_file script schedule now ctx l data more
         flush_error e close_error reopen_error rest,
    let s := run (launch existing_file script) schedule in
    let w := world s in
    writer_thread s = WhileTrue ctx l ->
    Queue.items (data_queue w) = Some data :: more ->
    let flush_due := flush_interval <=? now - last_flush l in
    faults w
      = (if flush_due then [option_map IOError flush_error] else [])
          ++ Some (IOError e) :: option_map IOError close_error
          :: match close_error with
             | None => option_map IOError reopen_error :: rest
             | Some _ => rest
             end ->
    exists h,
      file_handle l = Some h /\
      is_open h w = true /\
      let r := step now (WhileTrue ctx l) w in
      let flushing :=
        if flush_due
        then SysFlush h (option_map IOError flush_error)
               :: match flush_error with
                  | Some t => [Stderr (MsgFlushFailed (IOError t))]
                  | None => []
                  end
        else [] in
      let recovery :=
        [SysWrite h data (Some (IOError e));
         Stderr (MsgWriteFailed (IOError e));
         Stderr (MsgWriteFailed (IOError e));
         SysClose h (option_map IOError close_error)] in
      let h' := List.length (handles w) in
      match close_error, reopen_error with
      | None, None =>
          (exists l', snd r = WhileTrue ctx l' /\
                      file_handle l' = Some h' /\
                      written_bytes_total l' = written_bytes_total l) /\
          is_open h' (fst r) = true /\
          is_open h (fst r) = false /\
          file_bytes (fst r) = file_bytes w /\
          WriterThreadStatus.running (writer_status (fst r))
            = WriterThreadStatus.running (writer_status w) /\
          WriterThreadStatus.error (writer_status (fst r))
            = Some (MsgWriteFailed (IOError e)) /\
          trace (fst r)
            = trace w ++ flushing ++ recovery ++ [SysOpen AB (inr h')]
      | None, Some e' =>
          snd r = Finished /\
          is_open h (fst r) = false /\
          WriterThreadStatus.running (writer_status (fst r)) = false /\
          WriterThreadStatus.error (writer_status (fst r))
            = Some (MsgReopenFailed (IOError e')) /\
          WriterThreadStatus.bytes_written (writer_status (fst r))
            = written_bytes_total l /\
          trace (fst r)
            = trace w ++ flushing ++ recovery
                ++ [SysOpen AB (inl (IOError e'));
                    Stderr (MsgReopenFailed (IOError e'))]
      | Some c, _ =>
          snd r = Finished /\
          is_open h (fst r) = false /\
          WriterThreadStatus.running (writer_status (fst r)) = false /\
          WriterThreadStatus.error (writer_status (fst r))
            = Some (MsgReopenFailed (IOError c)) /\
          WriterThreadStatus.bytes_written (writer_status (fst r))
            = written_bytes_total l /\
          trace (fst r)
            = trace w ++ flushing ++ recovery
                ++ [Stderr (MsgReopenFailed (IOError c))]
      end.
Proof.
  intros existing_file script schedule now ctx l data more
         flush_error e close_error reopen_error rest s w Hthread Hq flush_due Hfaults.
  destruct (ReachableFacts.reachable_well_formed existing_file script schedule)
    as [Hsound Hok].
  fold s in Hsound, Hok. fold w in Hsound, Hok.
  rewrite Hthread in Hok. destruct Hok as (h & Hfh & Hopen & Hctx & _).
  cbn [Writer.env Writer.locals] in Hfh, Hopen, Hctx.
  exists h. split; [exact Hfh | split; [exact Hopen |]].
  apply (@write_failure_pass now ctx l w h data more flush_error e close_error
           reopen_error rest);
    try assumption.
  unfold ReachableFacts.sound_queue in Hsound. rewrite Hq in Hsound.
  inversion Hsound as [| x xs Hdata _]. intros ->. discriminate Hdata.
Qed.

Lemma write_failure_one_reopen_witness :
  let s := run (launch None [None; Some (IOError "disk error"); None; None])
               [DataCallback (bytes_at [Byte.x01]) 1;
                DataCallback (bytes_at [Byte.x02]) 1;
                WriterStep 0; WriterStep 10; WriterStep 20] in
  let r := step 100 (WhileTrue 0%nat (mkLocals 0 0 0 0 (Some 0%nat))) (world s) in
  is_open 1%nat (fst r) = true /\
  is_open 0%nat (fst r) = false /\
  file_bytes (fst r) = [] /\
  WriterThreadStatus.running (writer_status (fst r)) = true.
Proof.
  destruct (@write_failure_one_reopen
              None [None; Some (IOError "disk error"); None; None]
              [DataCallback (bytes_at [Byte.x01]) 1;
               DataCallback (bytes_at [Byte.x02]) 1;
               WriterStep 0; WriterStep 10; WriterStep 20]
              100 0%nat (mkLocals 0 0 0 0 (Some 0%nat))
              [Byte.x01] [Some [Byte.x02]] None "disk error"%string None None []
              eq_refl eq_refl eq_refl) as (h & Hfh & _ & H).
  injection Hfh as <-.
  cbv zeta in H. destruct H as (_ & H1 & H2 & H3 & H4 & _).
  repeat split; assumption.
Defined.

(** C8 as written fails: the write of the chunk fails, and so does the
    close that begins the recovery. The file is not reopened, neither
    in append mode nor otherwise; the worker ends, and what the
    register records as the error of the reopening is the error of the
    close. *)
Lemma failed_close_no_reopen :
  let s := run (launch None [None; Some (IOError "disk error");
                             Some (IOError "close failed")])
               [DataCallback (bytes_at [Byte.x01]) 1;
                WriterStep 0; WriterStep 10; WriterStep 20] in
  let s' := act s (WriterStep 100) in
  writer_thread s = WhileTrue 0%nat (mkLocals 0 0 0 0 (Some 0%nat)) /\
  writer_thread s' = Finished /\
  opens AB (trace (world s')) = 0%nat /\
  WriterThreadStatus.error (writer_status (world s'))
    = Some (MsgReopenFailed (IOError "close failed")) /\
  trace (world s')
    = [SysOpen WB (inr 0%nat);
       SysWrite 0%nat [Byte.x01] (Some (IOError "disk error"));
       Stderr (MsgWriteFailed (IOError "disk error"));
       Stderr (MsgWriteFailed (IOError "disk error"));
       SysClose 0%nat (Some (IOError "close failed"));
       Stderr (MsgReopenFailed (IOError "close failed"))].
Proof. vm_compute. repeat split. Qed.

End RunningFacts.

(** ** The writer thread: the byte count in the register *)

Module CounterFacts.
Import Writer.

(** A pass of the loop that finds a chunk and writes it, with neither
    the heartbeat nor the flush due: the counter grows by the length
    of the chunk, and the register is given the new count only if it
    is a multiple of 1048576. *)
Lemma write_pass now ctx l w h data more :
  file_handle l = Some h ->
  is_open h w = true ->
  faults w = [] ->
  now - last_heartbeat l < heartbeat_interval ->
  now - last_flush l < flush_interval ->
  Queue.items (data_queue w) = Some data :: more ->
  truthy data = true ->
  let total := written_bytes_total l + len data in
  let w1 := emit (SysWrite h data None)
              (set_disk (Some (file_bytes w ++ data))
                 (set_data_queue (Queue.mk (Queue.maxsize (data_queue w)) more) w)) in
  step now (WhileTrue ctx l) w =
  (if total mod (1024 * 1024) =? 0
   then set_writer_status
          (WriterThreadStatus.update (writer_status w) now None None (Some total)) w1
   else w1,
   WhileTrue ctx (mkLocals total (last_heartbeat l) (last_flush l)
                           (retry_count l) (file_handle l))).
Proof.
  intros Hfh Hopen Hfaults Hhb Hflush Hq Hdata.
  destruct w as [[m items] st d hs fs tr], l as [total0 lh lf rc fh].
  cbn in Hfh, Hopen, Hfaults, Hhb, Hflush, Hq. subst fh items fs.
  apply Z.ltb_lt in Hhb, Hflush. rewrite Z.ltb_antisym in Hhb, Hflush.
  apply negb_true_iff in Hhb, Hflush.
  change heartbeat_interval with 1000 in Hhb.
  change flush_interval with 5000 in Hflush.
  destruct data as [| b data]; [discriminate |].
  cbv zeta. change (1024 * 1024) with 1048576.
  destruct ((total0 + len (b :: data)) mod 1048576 =? 0) eqn:Hmb;
    repeat (crunch; first [rewrite Hhb | rewrite Hflush | rewrite Hopen
                           | rewrite Hmb]);
    reflexivity.
Qed.

Definition zeros : pointer := Some (fun _ => Byte.x00).
Definition first_chunk : bytes := slice (fun _ => Byte.x00) 1048575.
Definition second_chunk : bytes := slice (fun _ => Byte.x00) 2.

(** The writer is in its loop, nothing written yet, and the two chunks
    are waiting. *)
Lemma two_chunks_waiting :
  run (launch None [])
      [WriterStep 0; WriterStep 0; WriterStep 0;
       DataCallback zeros 1048575; DataCallback zeros 2]
  = mkSystem
      (mkWorld (Queue.mk 4096 [Some first_chunk; Some second_chunk])
               (WriterThreadStatus.mk true None 0 0 false)
               (Some []) [true] [] [SysOpen WB (inr 0%nat)])
      (WhileTrue 0%nat (mkLocals 0 0 0 0 (Some 0%nat))) true.
Proof.
  change [WriterStep 0; WriterStep 0; WriterStep 0;
          DataCallback zeros 1048575; DataCallback zeros 2]
    with ([WriterStep 0; WriterStep 0; WriterStep 0]
            ++ [DataCallback zeros 1048575; DataCallback zeros 2]).
  unfold run. rewrite fold_left_app.
  replace (fold_left act [WriterStep 0; WriterStep 0; WriterStep 0] (launch None []))
    with (mkSystem
            (mkWorld (Queue.mk 4096 [])
                     (WriterThreadStatus.mk true None 0 0 false)
                     (Some []) [true] [] [SysOpen WB (inr 0%nat)])
            (WhileTrue 0%nat (mkLocals 0 0 0 0 (Some 0%nat))) true)
    by (vm_compute; reflexivity).
  reflexivity.
Qed.

(** C6 fails on the code. The worker writes a chunk of 1048575 bytes
    and then one of 2 bytes, all within the first second: its byte
    counter goes from 0 to 1048575 to 1048577, past the first megabyte
    boundary, and the register still holds the byte count 0 it was
    given when the thread started. *)
Theorem megabyte_crossing_not_reported :
  let s := run (launch None [])
               [WriterStep 0; WriterStep 0; WriterStep 0;
                DataCallback zeros 1048575; DataCallback zeros 2;
                WriterStep 0; WriterStep 0] in
  writer_thread s = WhileTrue 0%nat (mkLocals 1048577 0 0 0 (Some 0%nat)) /\
  written (trace (world s)) = [first_chunk; second_chunk] /\
  WriterThreadStatus.bytes_written (writer_status (world s)) = 0.
Proof.
  cbv zeta.
  change [WriterStep 0; WriterStep 0; WriterStep 0;
          DataCallback zeros 1048575; DataCallback zeros 2;
          WriterStep 0; WriterStep 0]
    with ([WriterStep 0; WriterStep 0; WriterStep 0;
           DataCallback zeros 1048575; DataCallback zeros 2]
            ++ [WriterStep 0; WriterStep 0]).
  unfold run at 1 2 3. rewrite fold_left_app.
  fold (run (launch None [])
            [WriterStep 0; WriterStep 0; WriterStep 0;
             DataCallback zeros 1048575; DataCallback zeros 2]).
  rewrite two_chunks_waiting.
  assert (H1 : len first_chunk = 1048575) by (apply len_slice; lia).
  assert (H2 : len second_chunk = 2) by (apply len_slice; lia).
  assert (T1 : truthy first_chunk = true) by (apply truthy_slice; lia).
  assert (T2 : truthy second_chunk = true) by (apply truthy_slice; lia).
  generalize dependent first_chunk. generalize dependent second_chunk.
  intros d2 H2 T2 d1 H1 T1.
  cbn [fold_left act world writer_thread port_open].
  erewrite write_pass; [| first [exact T1 | reflexivity] ..].
  cbn [written_bytes_total last_heartbeat last_flush retry_count file_handle].
  rewrite H1. change ((0 + 1048575) mod (1024 * 1024) =? 0) with false.
  cbv iota. cbn [world writer_thread port_open].
  erewrite write_pass; [| first [exact T2 | reflexivity] ..].
  cbn [written_bytes_total last_heartbeat last_flush retry_count file_handle].
  rewrite H2. change ((0 + 1048575 + 2) mod (1024 * 1024) =? 0) with false.
  cbv iota. cbn [world writer_thread port_open]. repeat split.
Qed.

End CounterFacts.

(** ** The round trip *)

Module RoundTripFacts.
Import Writer.
Import ReachableFacts.

(** The actions of one capture session: the callbacks, the writer and
    the stop signal; the supervisor does not intervene. *)
Definition session_action (a : Action) : bool :=
  match a with SupervisorCheck _ => false | _ => true end.

(** The file holds what the successful writes put there. *)
Definition synced (w : World) : Prop :=
  file_bytes w = List.concat (written (trace w)).

Definition untouched (w : World) : Prop :=
  opens WB (trace w) = 0%nat /\ written (trace w) = [].

(** What holds of a session in which no system call fails. *)
Definition healthy (s : System) : Prop :=
  faults (world s) = [] /\
  Forall sound_item (Queue.items (data_queue (world s))) /\
  match writer_thread s with
  | Spawned => untouched (world s)
  | RetryLoop l =>
      retry_count l = 0 /\
      match file_handle l with
      | None => untouched (world s)
      | Some h => is_open h (world s) = true /\ synced (world s)
                  /\ opens WB (trace (world s)) <> 0%nat
      end
  | WhileTrue ctx l =>
      exists h, file_handle l = Some h /\ is_open h (world s) = true /\
                synced (world s) /\ opens WB (trace (world s)) <> 0%nat
  | Finished => synced (world s) /\ opens WB (trace (world s)) <> 0%nat
  end.

(** While the main thread supervises, no stop signal has been queued
    and the writer thread is executing. *)
Definition is_chunk (x : item) : bool :=
  match x with Some _ => true | None => false end.
Definition supervised (s : System) : Prop :=
  forallb is_chunk (Queue.items (data_queue (world s))) = true /\
  is_alive (writer_thread s) = true.

Definition pending (s : System) : list bytes :=
  written (trace (world s)) ++ chunks (data_queue (world s)).

Ltac trace_simpl :=
  rewrite ?written_app, ?opens_app, ?warnings_app;
  cbn [written opens warnings is_mode];
  rewrite ?app_nil_r, ?Nat.add_0_r.

(** Replaces [act s a] in the goal by its value, computed with the
    rewriting tactic [tac] applied at each stuck test. *)
Ltac eval_act tac :=
  match goal with
  | |- context [act ?s ?a] =>
      let E := fresh "E" in
      eassert (E : act s a = _);
      [ repeat (crunch; decide_tests; tac); crunch; reflexivity
      | rewrite E; clear E ]
  end.

Ltac close :=
  cbn [world writer_thread faults data_queue Queue.items trace handles
       file_handle retry_count file_bytes disk];
  trace_simpl;
  repeat match goal with
         | |- _ /\ _ => split
         | |- exists _, _ => eexists
         end;
  try first [assumption | reflexivity | discriminate | lia
             | intro; assumption];
  try (let Hsv := fresh in
       intros [Hsv ?]; cbn in Hsv;
       first [discriminate Hsv | split; [assumption | reflexivity]]).

Lemma writer_step_healthy now s :
  healthy s ->
  let s' := act s (WriterStep now) in
  healthy s' /\
  warnings (trace (world s')) = warnings (trace (world s)) /\
  pending s' = pending s /\
  (supervised s -> supervised s').
Proof.
  intros (Hf & Hq & Hpc). unfold supervised.
  destruct s as [[[m items] st d hs fs tr] t p].
  cbn [world writer_thread faults data_queue Queue.items] in Hf, Hq, Hpc. subst fs.
  unfold healthy, pending, synced, untouched, is_open in *.
  cbn [world writer_thread faults data_queue Queue.items trace handles] in Hpc.
  cbv zeta.
  destruct t as [| l | ctx l |].
  - (* Spawned *)
    eval_act idtac. destruct Hpc. close.
  - destruct l as [total lh lf rc fh]. cbn in Hpc. destruct Hpc as [-> Hpc].
    destruct fh as [h |].
    + eval_act idtac. destruct Hpc as (? & ? & ?). close.
    + eval_act idtac. destruct Hpc as [Ho Hw]. close.
      * rewrite app_nth2 by lia. rewrite Nat.sub_diag. reflexivity.
      * rewrite Hw. reflexivity.
  - destruct l as [total lh lf rc fh]. cbn in Hpc.
    destruct Hpc as (h & -> & Hopen & Hsync & Hopens).
    cbn [file_bytes disk] in Hsync.
    destruct (1000 <=? now - lh) eqn:Hhb, (5000 <=? now - lf) eqn:Hfl,
             (nth ctx hs false) eqn:Hctx.
    all: destruct items as [| [[| b data] |] more];
      [ | exfalso; inversion Hq as [| ? ? Hd ?]; discriminate Hd | | ].
    all: try (destruct ((total + len (b :: data)) mod 1048576 =? 0) eqn:Hmb).
    all: destruct (Nat.eqb h ctx) eqn:Hsame.
    all: eval_act ltac:(rewrite ?Hhb, ?Hfl, ?Hopen, ?Hctx, ?Hmb, ?nth_mark_closed,
                                ?Hsame).
    all: close.
    all: try (inversion Hq; assumption).
    all: try (unfold file_bytes in *; cbn [disk] in *;
              rewrite Hsync, concat_app; cbn [List.concat];
              rewrite app_nil_r; reflexivity).
    all: try (unfold chunks; cbn [Queue.items flat_map app];
              rewrite <- app_assoc; reflexivity).
  - eval_act idtac. destruct Hpc. close.
Qed.

(** The thread-dependent part of [healthy] looks at the file, the
    handles and the trace only through [written] and [opens]. *)
Lemma healthy_queue s q' :
  healthy s ->
  Forall sound_item (Queue.items q') ->
  healthy (mkSystem (set_data_queue q' (world s)) (writer_thread s) (port_open s)).
Proof.
  intros (Hf & Hq & Hpc) Hq'. destruct s as [[q st d hs fs tr] t p].
  split; [exact Hf | split; [exact Hq' | exact Hpc]].
Qed.

Lemma healthy_stderr s line :
  healthy s ->
  healthy (mkSystem (emit (Stderr line) (world s)) (writer_thread s) (port_open s)).
Proof.
  intros (Hf & Hq & Hpc). destruct s as [[q st d hs fs tr] t p].
  unfold healthy, synced, untouched, is_open, file_bytes in *.
  cbn [world writer_thread port_open faults data_queue trace handles disk emit] in *.
  split; [assumption | split; [assumption |]].
  assert (Hw : written (tr ++ [Stderr line]) = written tr)
    by (rewrite written_app; cbn; apply app_nil_r).
  assert (Ho : opens WB (tr ++ [Stderr line]) = opens WB tr)
    by (rewrite opens_app; cbn; lia).
  rewrite Hw, Ho. exact Hpc.
Qed.

Lemma chunks_snoc m items x :
  chunks (Queue.mk m (items ++ [x]))
  = chunks (Queue.mk m items) ++ match x with Some d => [d] | None => [] end.
Proof.
  unfold chunks. cbn [Queue.items]. rewrite flat_map_app. cbn.
  rewrite app_nil_r. reflexivity.
Qed.

Lemma session_step_healthy a s :
  session_action a = true ->
  healthy s ->
  let s' := act s a in
  healthy s' /\
  (warnings (trace (world s)) <= warnings (trace (world s')))%nat /\
  (warnings (trace (world s')) = warnings (trace (world s)) ->
   pending s' = pending s ++ delivered_by a).
Proof.
  intros Ha Hs. destruct a as [buffer_ptr length | code msg | now | now |];
    try discriminate Ha; cbv zeta.
  - (* py_data_callback *)
    destruct buffer_ptr as [memory |];
      [destruct (Z.ltb_spec 0 length) as [Hpos | Hneg] |].
    + pose proof (@BridgeFacts.push_cases memory length (world s) Hpos) as Hpush.
      cbv zeta in Hpush.
      assert (Hact : act s (DataCallback (Some memory) length)
                     = mkSystem (py_data_callback (Some memory) length (world s))
                                (writer_thread s) (port_open s)) by reflexivity.
      rewrite Hact. clear Hact.
      assert (Hdel : delivered_by (DataCallback (Some memory) length)
                     = [slice memory length]).
      { cbn. apply Z.ltb_lt in Hpos. rewrite Hpos. reflexivity. }
      rewrite Hdel. clear Hdel.
      destruct (Queue.full (data_queue (world s))); rewrite Hpush; clear Hpush.
      * split; [apply healthy_stderr; exact Hs |].
        cbn [world emit trace]. rewrite warnings_app. cbn [warnings].
        split; [lia | intros; lia].
      * split.
        { apply healthy_queue; [exact Hs |]. cbn [Queue.items].
          apply Forall_app. split; [apply Hs |].
          constructor; [| constructor]. cbn. apply truthy_slice. exact Hpos. }
        cbn [world set_data_queue trace]. split; [lia |]. intros _.
        unfold pending. cbn [world set_data_queue trace data_queue].
        destruct s as [[[m items] st d hs fs tr] t p].
        cbn [world data_queue Queue.items Queue.maxsize trace].
        rewrite chunks_snoc. rewrite app_assoc. reflexivity.
    + assert (Hact : act s (DataCallback (Some memory) length) = s).
      { destruct s. cbn. apply Z.ltb_ge in Hneg. rewrite Hneg. reflexivity. }
      rewrite Hact. cbn. apply Z.ltb_ge in Hneg. rewrite Hneg.
      rewrite app_nil_r. auto.
    + assert (Hact : act s (DataCallback None length) = s) by (destruct s; reflexivity).
      rewrite Hact. cbn. rewrite app_nil_r. auto.
  - (* py_error_callback *)
    assert (Hact : act s (ErrorCallback code msg)
                   = mkSystem (emit (Stderr (MsgDllError code (message_or_NA msg)))
                                 (world s))
                              (writer_thread s) (port_open s)) by reflexivity.
    rewrite Hact. clear Hact.
    split; [apply healthy_stderr; exact Hs |].
    unfold pending. cbn [world emit trace data_queue].
    rewrite warnings_app, written_app. cbn [warnings written delivered_by].
    rewrite !app_nil_r. split; [lia | reflexivity].
  - (* the writer *)
    destruct (@writer_step_healthy now s Hs) as (H1 & H2 & H3 & _). cbv zeta in *.
    rewrite H2, H3. cbn [delivered_by]. rewrite app_nil_r. auto.
  - (* the stop signal *)
    cbn [act]. unfold Queue.put, Queue.put_nowait.
    destruct (Queue.full (data_queue (world s))).
    + cbn [delivered_by]. rewrite app_nil_r. auto.
    + split.
      { apply healthy_queue; [exact Hs |]. cbn [Queue.items].
        apply Forall_app. split; [apply Hs |]. constructor; [exact I | constructor]. }
      cbn [world set_data_queue trace]. split; [lia |]. intros _.
      unfold pending. cbn [world set_data_queue trace data_queue].
      destruct s as [[[m items] st d hs fs tr] t p].
      cbn [world data_queue Queue.items Queue.maxsize trace].
      rewrite chunks_snoc. cbn [delivered_by stop_writer_signal].
      rewrite !app_nil_r. reflexivity.
Qed.

Lemma session_healthy schedule :
  forall s,
    forallb session_action schedule = true ->
    healthy s ->
    let s' := run s schedule in
    healthy s' /\
    (warnings (trace (world s)) <= warnings (trace (world s')))%nat /\
    (warnings (trace (world s')) = warnings (trace (world s)) ->
     pending s' = pending s ++ delivered schedule).
Proof.
  induction schedule as [| a schedule IH]; intros s Hall Hs; cbv zeta.
  - cbn. rewrite app_nil_r. auto.
  - cbn [forallb] in Hall. apply andb_true_iff in Hall. destruct Hall as [Ha Hall].
    destruct (@session_step_healthy a s Ha Hs) as (Hs1 & Hle1 & Heq1).
    destruct (IH (act s a) Hall Hs1) as (Hs2 & Hle2 & Heq2).
    cbv zeta in *. cbn [run fold_left]. fold (run (act s a) schedule).
    split; [exact Hs2 | split; [lia |]].
    intros Hsame. rewrite Heq2 by lia. rewrite Heq1 by lia.
    unfold delivered. cbn [flat_map]. rewrite app_assoc. reflexivity.
Qed.

(** The actions that can occur while the main thread supervises: the
    stop signal is queued only once the supervising loop has ended. *)
Definition supervised_action (a : Action) : bool :=
  match a with PutStopSignal => false | _ => true end.

Lemma forallb_snoc {A} (f : A -> bool) l x :
  forallb f (l ++ [x]) = forallb f l && f x.
Proof. rewrite forallb_app. cbn. rewrite andb_true_r. reflexivity. Qed.

Lemma supervised_step a s :
  supervised_action a = true ->
  healthy s -> supervised s ->
  let s' := act s a in
  healthy s' /\ supervised s' /\
  (warnings (trace (world s)) <= warnings (trace (world s')))%nat /\
  (warnings (trace (world s')) = warnings (trace (world s)) ->
   pending s' = pending s ++ delivered_by a).
Proof.
  intros Ha Hs Hsup. cbv zeta.
  destruct a as [buffer_ptr length | code msg | now | now |];
    try discriminate Ha.
  - destruct (@session_step_healthy (DataCallback buffer_ptr length) s eq_refl Hs)
      as (H1 & H2 & H3).
    split; [exact H1 | split; [| split; [exact H2 | exact H3]]].
    destruct Hsup as [Hitems Halive]. unfold supervised.
    destruct s as [[[m items] st d hs fs tr] t p].
    cbn [act world writer_thread data_queue Queue.items] in *.
    split; [| exact Halive].
    unfold py_data_callback, Queue.put_nowait.
    destruct buffer_ptr; [| exact Hitems].
    destruct (0 <? length); [| exact Hitems].
    cbn [data_queue]. destruct (Queue.full _); cbn; [exact Hitems |].
    rewrite forallb_snoc, Hitems. reflexivity.
  - destruct (@session_step_healthy (ErrorCallback code msg) s eq_refl Hs)
      as (H1 & H2 & H3).
    split; [exact H1 | split; [| split; [exact H2 | exact H3]]].
    destruct s as [[[m items] st d hs fs tr] t p]. exact Hsup.
  - destruct (@writer_step_healthy now s Hs) as (H1 & H2 & H3 & H4).
    cbv zeta in *. rewrite H2, H3. cbn [delivered_by]. rewrite app_nil_r.
    auto.
  - (* the supervisor finds the thread alive *)
    assert (Hact : act s (SupervisorCheck now) = s).
    { destruct Hsup as [_ Halive]. cbn [act].
      unfold Supervisor.check_writer_thread. rewrite Halive. reflexivity. }
    rewrite Hact. cbn [delivered_by]. rewrite app_nil_r. auto.
Qed.

Lemma supervised_healthy schedule :
  forall s,
    forallb supervised_action schedule = true ->
    healthy s -> supervised s ->
    let s' := run s schedule in
    healthy s' /\ supervised s' /\
    (warnings (trace (world s)) <= warnings (trace (world s')))%nat /\
    (warnings (trace (world s')) = warnings (trace (world s)) ->
     pending s' = pending s ++ delivered schedule).
Proof.
  induction schedule as [| a schedule IH]; intros s Hall Hs Hsup; cbv zeta.
  - cbn. rewrite app_nil_r. auto.
  - cbn [forallb] in Hall. apply andb_true_iff in Hall. destruct Hall as [Ha Hall].
    destruct (@supervised_step a s Ha Hs Hsup) as (Hs1 & Hsup1 & Hle1 & Heq1).
    destruct (IH (act s a) Hall Hs1 Hsup1) as (Hs2 & Hsup2 & Hle2 & Heq2).
    cbv zeta in *. cbn [run fold_left]. fold (run (act s a) schedule).
    split; [exact Hs2 | split; [exact Hsup2 | split; [lia |]]].
    intros Hsame. rewrite Heq2 by lia. rewrite Heq1 by lia.
    unfold delivered. cbn [flat_map]. rewrite app_assoc. reflexivity.
Qed.



End RoundTripFacts.

(** * Further properties of [log2bin_script.py] *)

(** ** What the writer does to the queue *)

Module QueueFacts.
Import Writer.
Import Stable.

Section Invariant.
(** A property of the queue that taking its head keeps. *)
Variable Q : Queue.t item -> Prop.
Hypothesis Q_get : forall q x q', Q q -> Queue.get q = Some (x, q') -> Q q'.

Definition queue_has (f : Frame) : Prop := Q (data_queue (env f)).

Ltac capacity_side :=
  intros; unfold queue_has in *; cbn [env] in *;
  rewrite ?ReachableFacts.sys_write_queue, ?ReachableFacts.sys_flush_queue,
          ?ReachableFacts.sys_close_queue, ?ReachableFacts.sys_open_queue;
  first [ assumption | eapply Q_get; eassumption ].

Ltac capacity_auto := stable_split capacity_side.

Lemma loop_iteration_queue_has now : stable queue_has (loop_iteration now).
Proof.
  unfold loop_iteration, update, print_stderr, sleep, write, flush, close,
         the_file_handle, set_last_heartbeat, set_last_flush,
         set_written_bytes_total, set_file_handle.
  capacity_auto.
Qed.

Lemma open_attempt_queue_has now : stable queue_has (open_attempt now).
Proof.
  unfold open_attempt, update, print_stderr, sleep, set_retry_count, set_file_handle.
  capacity_auto.
Qed.

Lemma leave_with_queue_has ctx raised : stable queue_has (leave_with ctx raised).
Proof. unfold leave_with, close. capacity_auto. Qed.

Lemma leave_try_queue_has now f r :
  queue_has f -> Q (data_queue (leave_try now (f, r))).
Proof.
  intros H. unfold leave_try.
  assert (Hrel : stable queue_has release_frame)
    by (unfold release_frame, close; capacity_auto).
  apply Hrel.
  assert (Hfin : stable queue_has (finally_clause now))
    by (unfold finally_clause, update; capacity_auto).
  assert (Hexc : forall e, stable queue_has (except_clause now e))
    by (intros e; unfold except_clause, update, print_stderr; capacity_auto).
  destruct r as [e | u].
  - apply (@stable_bind queue_has unit unit); auto.
  - apply Hfin. exact H.
Qed.

(** The writer thread only takes heads off the queue. *)
Lemma step_queue_has now t w :
  Q (data_queue w) -> Q (data_queue (fst (step now t w))).
Proof.
  intros Hq. destruct t as [| l | ctx l |]; [exact Hq | | | exact Hq].
  - unfold step.
    destruct ((retry_count l <? max_retry_count) && is_None (file_handle l)).
    + pose proof (@open_attempt_queue_has now (mkFrame w l) Hq) as Hq'.
      destruct (open_attempt now (mkFrame w l)) as [f [e | u]]; cbn [fst].
      * apply leave_try_queue_has. exact Hq'.
      * exact Hq'.
    + destruct (file_handle l); cbn [fst]; [exact Hq |].
      apply leave_try_queue_has. exact Hq.
  - unfold step.
    pose proof (@loop_iteration_queue_has now (mkFrame w l) Hq) as Hq'.
    destruct (loop_iteration now (mkFrame w l)) as [f [e | [|]]]; cbn [fst].
    + pose proof (@leave_with_queue_has ctx (Some e) f Hq') as Hl.
      destruct (leave_with ctx (Some e) f) as [f' r']. apply leave_try_queue_has. exact Hl.
    + exact Hq'.
    + pose proof (@leave_with_queue_has ctx None f Hq') as Hl.
      destruct (leave_with ctx None f) as [f' r']. apply leave_try_queue_has. exact Hl.
Qed.

End Invariant.

(** The queue was built with [maxsize=4096] and holds at most that many
    entries. *)
Definition within_capacity (q : Queue.t item) : Prop :=
  Queue.maxsize q = 4096 /\ Queue.qsize q <= 4096.

Lemma within_capacity_get q x q' :
  within_capacity q -> Queue.get q = Some (x, q') -> within_capacity q'.
Proof.
  unfold within_capacity, Queue.get, Queue.qsize. intros [Hm Hs] Hget.
  destruct (Queue.items q) as [| y rest] eqn:Hitems; [discriminate |].
  injection Hget as _ <-. cbn [Queue.maxsize Queue.items List.length] in *.
  split; [exact Hm | lia].
Qed.

Lemma within_capacity_put q x q' :
  within_capacity q -> Queue.put_nowait q x = Some q' -> within_capacity q'.
Proof.
  unfold within_capacity, Queue.put_nowait, Queue.full, Queue.qsize.
  intros [Hm Hs] Hput. rewrite Hm in Hput.
  destruct (4096 <=? Z.of_nat (List.length (Queue.items q))) eqn:Hfull;
    cbn in Hput; [discriminate |].
  injection Hput as <-. cbn [Queue.maxsize Queue.items].
  apply Z.leb_gt in Hfull. rewrite length_app. cbn [List.length].
  split; [reflexivity | lia].
Qed.

Lemma act_within_capacity a s :
  within_capacity (data_queue (world s)) ->
  within_capacity (data_queue (world (act s a))).
Proof.
  intros H. destruct s as [w t p]. cbn [world] in H.
  destruct a as [buffer_ptr length | code msg | now | now |];
    cbn [act world writer_thread port_open].
  - unfold py_data_callback.
    destruct buffer_ptr as [memory |]; [| exact H].
    destruct (0 <? length); [| exact H].
    destruct (Queue.put_nowait (data_queue w) (Some (slice memory length))) eqn:Hput.
    + cbn. eapply within_capacity_put; eassumption.
    + exact H.
  - destruct msg; exact H.
  - pose proof (@step_queue_has within_capacity within_capacity_get now t w H) as Hs.
    destruct (step now t w) as [w' t']. exact Hs.
  - unfold Supervisor.check_writer_thread. cbn [world writer_thread port_open].
    destruct (negb (is_alive t)); [| exact H].
    destruct (WriterThreadStatus.running _); [exact H |].
    destruct (Queue.empty (data_queue w)); exact H.
  - unfold Queue.put.
    destruct (Queue.put_nowait (data_queue w) stop_writer_signal) eqn:Hput.
    + cbn. eapply within_capacity_put; eassumption.
    + exact H.
Qed.

(** X1. In every state the program reaches, whatever the schedule of the
    threads and whatever the system calls do, the queue holds at most
    4096 entries, stop signals included. *)
Theorem queue_never_exceeds_capacity :
  forall existing_file script schedule,
    Queue.qsize (data_queue (world (run (launch existing_file script) schedule)))
    <= 4096.
Proof.
  intros existing_file script schedule.
  assert (H0 : within_capacity (data_queue (world (launch existing_file script))))
    by (split; [reflexivity | cbn; lia]).
  revert H0. generalize (launch existing_file script).
  induction schedule as [| a schedule IH]; intros s Hs; [apply Hs |].
  cbn [run fold_left]. apply IH. apply act_within_capacity. exact Hs.
Qed.

End QueueFacts.

(** ** What one worker puts into the file *)

Lemma created_app tr tr' : created (tr ++ tr') = created tr || created tr'.
Proof.
  induction tr as [| e tr IH]; [reflexivity |].
  destruct e as [[|] [x | h] | | | | |]; cbn; try exact IH; reflexivity.
Qed.

Lemma len_app a b : len (a ++ b) = len a + len b.
Proof. unfold len. rewrite length_app. lia. Qed.

Module LedgerFacts.
Import Writer.
Import Stable.

(** What the accounting looks at: the content of the file, the chunks
    written, whether the file was created. *)
Definition view (w : World) : bytes * list bytes * bool :=
  (file_bytes w, written (trace w), created (trace w)).

Lemma view_emit e w :
  match e with SysOpen _ _ | SysWrite _ _ None => False | _ => True end ->
  view (emit e w) = view w.
Proof.
  intros He. unfold view. cbn [emit trace]. rewrite written_app, created_app.
  destruct e as [? ? | ? ? [x |] | | | |]; try contradiction; cbn;
    rewrite ?app_nil_r, ?orb_false_r; reflexivity.
Qed.

Lemma next_fault_view w : view (snd (next_fault w)) = view w.
Proof. unfold next_fault. destruct (faults w); reflexivity. Qed.

Lemma sys_flush_view h w : view (fst (sys_flush h w)) = view w.
Proof.
  unfold sys_flush. destruct (is_open h w); [| reflexivity].
  pose proof (next_fault_view w) as Hn.
  destruct (next_fault w) as [f w']. cbn [fst snd] in *.
  rewrite view_emit by exact I. exact Hn.
Qed.

Lemma sys_close_view h w : view (fst (sys_close h w)) = view w.
Proof.
  unfold sys_close. destruct (is_open h w); [| reflexivity].
  pose proof (next_fault_view w) as Hn.
  destruct (next_fault w) as [f w']. cbn [fst snd] in *.
  rewrite view_emit by exact I. exact Hn.
Qed.

Lemma sys_open_append_view w : view (fst (sys_open AB w)) = view w.
Proof.
  unfold sys_open. pose proof (next_fault_view w) as Hn.
  destruct (next_fault w) as [[e |] w']; cbn [fst snd] in *.
  - rewrite <- Hn. unfold view. cbn. rewrite written_app, created_app. cbn.
    rewrite app_nil_r, orb_false_r. reflexivity.
  - rewrite <- Hn. unfold view, file_bytes. cbn. rewrite written_app, created_app. cbn.
    rewrite app_nil_r, orb_false_r. reflexivity.
Qed.

(** A write either fails and changes nothing, or appends its chunk to
    the file and to the chunks written. *)
Lemma sys_write_view h data w :
  (snd (sys_write h data w) <> None /\ view (fst (sys_write h data w)) = view w) \/
  (snd (sys_write h data w) = None /\
   view (fst (sys_write h data w))
   = (file_bytes w ++ data, written (trace w) ++ [data], created (trace w))).
Proof.
  unfold sys_write. destruct (is_open h w); [| left; split; [discriminate | reflexivity]].
  pose proof (next_fault_view w) as Hn. unfold view in Hn.
  destruct (next_fault w) as [[e |] w']; cbn [fst snd] in *.
  - left. split; [discriminate |]. rewrite view_emit by exact I. exact Hn.
  - right. split; [reflexivity |]. injection Hn as H1 H2 H3.
    unfold view, file_bytes in *. cbn. rewrite written_app, created_app. cbn.
    rewrite orb_false_r, H1, H2, H3. reflexivity.
Qed.

(** The file holds exactly the chunks written, and the counter of the
    worker is their total length. *)
Definition accounts (w : World) (total : Z) : Prop :=
  file_bytes w = List.concat (written (trace w)) /\
  total = len (List.concat (written (trace w))) /\
  created (trace w) = true.

Lemma accounts_view w w' total :
  view w' = view w -> accounts w total -> accounts w' total.
Proof.
  unfold view, accounts. intros Hv H. injection Hv as -> -> ->. exact H.
Qed.

Definition balanced (f : Frame) : Prop :=
  accounts (env f) (written_bytes_total (locals f)).

Ltac ledger_side :=
  intros; unfold balanced in *; cbn [env locals written_bytes_total] in *;
  eapply accounts_view; [| eassumption];
  rewrite ?sys_flush_view, ?sys_close_view, ?sys_open_append_view,
          ?view_emit by exact I;
  reflexivity.

Ltac ledger_auto := stable_split ledger_side.

Lemma accounts_write w w' total data :
  accounts w total ->
  view w' = (file_bytes w ++ data, written (trace w) ++ [data], created (trace w)) ->
  accounts w' (total + len data).
Proof.
  unfold view, accounts. intros (Hfile & Htotal & Hcreated) Hv.
  injection Hv as -> -> ->.
  rewrite concat_app, len_app. cbn [List.concat]. rewrite app_nil_r, Hfile, <- Htotal.
  auto.
Qed.

(** The write of a chunk and the update of the counter, together. *)
Lemma write_and_count_balanced now h data :
  stable balanced
    (bind (write h data) (fun _ =>
     bind get_locals (fun l =>
     bind (set_written_bytes_total (written_bytes_total l + len data)) (fun _ =>
     bind get_locals (fun l =>
     bind (when (written_bytes_total l mod (1024 * 1024) =? 0)
             (update now None None (Some (written_bytes_total l)))) (fun _ =>
     ret Next)))))).
Proof.
  intros [w l] Hacc. unfold balanced in Hacc. cbn [env locals] in Hacc.
  unfold bind at 1. unfold write, lift_sys. cbn [env locals].
  destruct (sys_write_view h data w) as [[Hfail Hv] | [Hok Hv]];
    destruct (sys_write h data w) as [w' [e |]]; cbn [fst snd] in *;
    try congruence.
  - unfold balanced. cbn [env locals].
    eapply accounts_view; [exact Hv | exact Hacc].
  - destruct l as [total lh lf rc fh]. cbn [written_bytes_total] in *.
    destruct ((total + len data) mod (1024 * 1024) =? 0) eqn:Hmb;
      cbv [bind get_locals set_written_bytes_total on_locals when update on_world
           ret fst snd env locals written_bytes_total last_heartbeat last_flush
           retry_count file_handle];
      rewrite ?Hmb; cbv [fst snd env locals written_bytes_total];
      unfold balanced; cbn [env locals written_bytes_total];
      (eapply accounts_write; [exact Hacc | exact Hv]).
Qed.

Lemma loop_iteration_balanced now : stable balanced (loop_iteration now).
Proof.
  unfold loop_iteration.
  apply stable_bind; [apply stable_get_locals | intros l].
  apply stable_bind; [unfold update, set_last_heartbeat; ledger_auto | intros _].
  apply stable_bind; [apply stable_get_locals | intros l'].
  apply stable_bind;
    [unfold update, print_stderr, flush, the_file_handle, set_last_flush; ledger_auto
    | intros _].
  apply stable_try_except.
  - apply stable_bind; [ledger_auto | intros [data |]]; [| apply stable_ret].
    destruct (truthy data); [| apply stable_ret].
    apply stable_try_except.
    + apply stable_bind; [unfold the_file_handle; ledger_auto | intros h].
      apply write_and_count_balanced.
    + intros e. unfold update, print_stderr. ledger_auto.
  - intros e. unfold update, print_stderr, close, the_file_handle, set_file_handle.
    ledger_auto.
Qed.
Lemma leave_with_view ctx raised f :
  view (env (fst (leave_with ctx raised f))) = view (env f) /\
  locals (fst (leave_with ctx raised f)) = locals f.
Proof.
  destruct f as [w l]. unfold leave_with, bind, close, lift_sys. cbn [env locals].
  pose proof (sys_close_view ctx w) as Hv.
  destruct (sys_close ctx w) as [w' [e |]]; cbn [fst] in Hv;
    destruct raised; cbn; auto.
Qed.

(** The function returns: the register says not running, and its count
    is the counter of the worker. *)
Lemma leave_try_view now f r :
  let w' := leave_try now (f, r) in
  view w' = view (env f) /\
  WriterThreadStatus.running (writer_status w') = false /\
  WriterThreadStatus.bytes_written (writer_status w') = written_bytes_total (locals f).
Proof.
  cbv zeta. unfold leave_try.
  rewrite release_frame_register.
  assert (Hv : forall f', view (env (fst (release_frame f'))) = view (env f')).
  { intros f'. rewrite release_frame_spec.
    destruct (file_handle (locals f')); [apply sys_close_view | reflexivity]. }
  rewrite Hv.
  destruct f as [w l], r as [e | []];
    cbv [except_clause finally_clause bind print_stderr update on_world
         get_locals fst snd env locals];
    cbn [writer_status set_writer_status emit];
    rewrite ?RegisterFacts.update_fields; cbn; auto.
  repeat split. unfold view. cbn. rewrite written_app, created_app. cbn.
  rewrite app_nil_r, orb_false_r. reflexivity.
Qed.

(** What holds of the worker, wherever it is. *)
Definition ledger (t : pc) (w : World) : Prop :=
  match t with
  | Spawned => written (trace w) = [] /\ created (trace w) = false
  | RetryLoop l =>
      written (trace w) = [] /\ written_bytes_total l = 0 /\
      match file_handle l with
      | Some _ => file_bytes w = [] /\ created (trace w) = true
      | None => created (trace w) = false
      end
  | WhileTrue _ l => accounts w (written_bytes_total l)
  | Finished =>
      WriterThreadStatus.running (writer_status w) = false /\
      WriterThreadStatus.bytes_written (writer_status w)
      = len (List.concat (written (trace w))) /\
      (created (trace w) = true -> file_bytes w = List.concat (written (trace w)))
  end.

Lemma leave_try_ledger now f r :
  written_bytes_total (locals f) = len (List.concat (written (trace (env f)))) ->
  (created (trace (env f)) = true ->
   file_bytes (env f) = List.concat (written (trace (env f)))) ->
  ledger Finished (leave_try now (f, r)).
Proof.
  intros Htotal Hfile.
  pose proof (leave_try_view now f r) as Hlv. cbv zeta in Hlv.
  remember (leave_try now (f, r)) as w' eqn:Hw'. clear Hw'.
  destruct Hlv as (Hv & Hrun & Hcount).
  unfold view in Hv. injection Hv as H1 H2 H3.
  unfold ledger. rewrite Hrun, Hcount, H1, H2, H3. auto.
Qed.

Lemma step_ledger now t w :
  ledger t w -> ledger (snd (step now t w)) (fst (step now t w)).
Proof.
  destruct t as [| l | ctx l |]; intros H.
  - destruct H as [Hw Hc]. cbn. auto.
  - destruct l as [total lh lf rc fh]. cbn in H. destruct H as (Hw & -> & Hfh).
    unfold step. cbn [retry_count file_handle].
    destruct ((rc <? max_retry_count) && is_None fh) eqn:Htest.
    + destruct fh as [h |]; [rewrite andb_false_r in Htest; discriminate |].
      destruct (open_attempt now (mkFrame w (mkLocals 0 lh lf rc None)))
        as [f r] eqn:Hoa.
      unfold open_attempt, try_except, bind, open_ in Hoa. cbn [env locals] in Hoa.
      unfold sys_open in Hoa.
      pose proof (next_fault_view w) as Hn.
      destruct (next_fault w) as [[e |] w1]; cbn [fst snd] in Hn;
        unfold view in Hn; injection Hn as H1 H2 H3.
      * (* the open fails *)
        destruct (is_IOError e) eqn:Hio.
        -- destruct (max_retry_count <=? rc + 1) eqn:Hmax;
             cbv [set_file_handle on_locals on_world get_locals set_retry_count
                  print_stderr update sleep raise ret bind fst snd env locals
                  retry_count written_bytes_total last_heartbeat last_flush
                  file_handle] in Hoa;
             rewrite ?Hmax in Hoa; injection Hoa as <- <-; cbn [fst snd].
           ++ apply leave_try_ledger; cbn [env locals written_bytes_total trace emit
                                          set_writer_status];
                rewrite ?written_app, ?created_app, ?H2, ?H3, ?Hw, ?Hfh; cbn;
                [reflexivity | discriminate].
           ++ cbn. rewrite !written_app, !created_app, H2, H3, Hw, Hfh. cbn. auto.
        -- cbv [raise] in Hoa. injection Hoa as <- <-. cbn [fst snd].
           apply leave_try_ledger; cbn [env locals written_bytes_total trace emit];
             rewrite ?written_app, ?created_app, ?H2, ?H3, ?Hw, ?Hfh; cbn;
             [reflexivity | discriminate].
      * (* the open succeeds *)
        cbv [set_file_handle on_locals fst snd env locals] in Hoa.
        injection Hoa as <- <-. cbn.
        rewrite written_app, created_app, H2, Hw. cbn.
        rewrite orb_true_r. auto.
    + destruct fh as [h |]; cbn [fst snd].
      * destruct Hfh as [Hfile Hc]. cbn. unfold accounts. rewrite Hw, Hfile. cbn. auto.
      * apply leave_try_ledger; cbn [env locals written_bytes_total];
          rewrite ?Hw, ?Hfh; cbn; [reflexivity | discriminate].
  - cbn in H. unfold step.
    pose proof (loop_iteration_balanced now (f := mkFrame w l) H) as Hb.
    destruct (loop_iteration now (mkFrame w l)) as [f [e | [|]]]; cbn [fst snd] in *.
    + pose proof (leave_with_view ctx (Some e) f) as [Hv Hl].
      destruct (leave_with ctx (Some e) f) as [f' r']. cbn [fst] in *.
      destruct Hb as (Hfile & Htotal & Hc).
      unfold view in Hv. injection Hv as H1 H2 H3.
      apply leave_try_ledger; rewrite ?Hl, ?H1, ?H2; auto.
    + exact Hb.
    + pose proof (leave_with_view ctx None f) as [Hv Hl].
      destruct (leave_with ctx None f) as [f' r']. cbn [fst] in *.
      destruct Hb as (Hfile & Htotal & Hc).
      unfold view in Hv. injection Hv as H1 H2 H3.
      apply leave_try_ledger; rewrite ?Hl, ?H1, ?H2; auto.
  - exact H.
Qed.

(** The callbacks and the stop signal leave the file, the chunks written
    and the register alone. *)
Lemma act_ledger a s :
  RoundTripFacts.session_action a = true ->
  ledger (writer_thread s) (world s) ->
  ledger (writer_thread (act s a)) (world (act s a)).
Proof.
  intros Ha H. destruct s as [w t p]. cbn [world writer_thread] in H.
  assert (Hview : forall w', view w' = view w -> writer_status w' = writer_status w ->
                             ledger t w').
  { intros w' Hv Hs. unfold view in Hv. injection Hv as H1 H2 H3.
    destruct t as [| l | ctx l |]; unfold ledger, accounts in *;
      rewrite ?Hs, ?H1, ?H2, ?H3; exact H. }
  destruct a as [buffer_ptr length | code msg | now | now |]; try discriminate Ha.
  - cbn [act world writer_thread]. apply Hview.
    + unfold py_data_callback. destruct buffer_ptr; [| reflexivity].
      destruct (0 <? length); [| reflexivity].
      destruct (Queue.put_nowait _ _); [reflexivity |].
      apply view_emit. exact I.
    + unfold py_data_callback. destruct buffer_ptr; [| reflexivity].
      destruct (0 <? length); [| reflexivity].
      destruct (Queue.put_nowait _ _); reflexivity.
  - cbn [act world writer_thread]. apply Hview; [apply view_emit; exact I | reflexivity].
  - cbn [act world writer_thread port_open].
    pose proof (step_ledger now t w H) as Hs.
    destruct (step now t w) as [w' t']. exact Hs.
  - cbn [act world]. destruct (Queue.put _ _); cbn [world writer_thread];
      [apply Hview; reflexivity | exact H].
Qed.

Lemma session_ledger existing_file script schedule :
  forallb RoundTripFacts.session_action schedule = true ->
  let s := run (launch existing_file script) schedule in
  ledger (writer_thread s) (world s).
Proof.
  intros Hs. cbv zeta. unfold run.
  assert (H0 : ledger (writer_thread (launch existing_file script))
                      (world (launch existing_file script))) by (cbn; auto).
  revert H0. generalize (launch existing_file script).
  induction schedule as [| a rest IH]; intros s H0; [exact H0 |].
  cbn [forallb] in Hs. apply andb_prop in Hs as [Ha Hrest].
  cbn [fold_left]. apply IH; [exact Hrest |]. apply act_ledger; assumption.
Qed.

(** X2. Whatever system calls fail, while the main thread does not replace
    the worker: as long as the worker is in its loop, its counter
    [written_bytes_total] is the total length of the chunks whose
    [write] succeeded, also after failed writes, failed flushes and
    reopenings. (Nothing is said of what the file holds then: the file
    object buffers, and a chunk whose [write] succeeded is lost when a
    later flush or close fails.) *)
Theorem counter_is_successful_writes :
  forall existing_file script schedule ctx l,
    forallb RoundTripFacts.session_action schedule = true ->
    let s := run (launch existing_file script) schedule in
    writer_thread s = WhileTrue ctx l ->
    written_bytes_total l = len (List.concat (written (trace (world s)))).
Proof.
  intros existing_file script schedule ctx l Hs s Hin.
  pose proof (session_ledger existing_file script schedule Hs) as H.
  cbv zeta in H. fold s in H. rewrite Hin in H. cbn [ledger] in H.
  destruct H as (_ & Htotal & _). exact Htotal.
Qed.

(** X3. Whatever system calls fail, while the main thread does not replace
    the worker: when the worker has returned, the register says not
    running and its byte count is the total length of the chunks that
    were written successfully. *)
Theorem final_count_is_bytes_written :
  forall existing_file script schedule,
    forallb RoundTripFacts.session_action schedule = true ->
    let s := run (launch existing_file script) schedule in
    writer_thread s = Finished ->
    WriterThreadStatus.running (writer_status (world s)) = false /\
    WriterThreadStatus.bytes_written (writer_status (world s))
    = len (List.concat (written (trace (world s)))).
Proof.
  intros existing_file script schedule Hs s Hfin.
  pose proof (session_ledger existing_file script schedule Hs) as H.
  cbv zeta in H. fold s in H. rewrite Hfin in H. destruct H as (Hrun & Hcount & _). auto.
Qed.

(** A session with failures: the first open fails, a write fails and
    the file is reopened; the port is then closed and the worker
    stopped. *)
Definition troubled_script : list (option Exn) :=
  [Some (IOError "busy"); None; None; Some (IOError "disk error")].
Definition troubled_session : list Action :=
  [DataCallback (bytes_at [Byte.x01; Byte.x02]) 2;
   DataCallback (bytes_at [Byte.x03]) 1;
   DataCallback (bytes_at [Byte.x04]) 1;
   WriterStep 0; WriterStep 10; WriterStep 1020; WriterStep 1030;
   WriterStep 1040; WriterStep 1050; WriterStep 1060;
   PutStopSignal; WriterStep 1070].

Lemma counter_is_successful_writes_witness :
  3 = len (List.concat
             (written (trace (world (run (launch None troubled_script)
                                         (firstn 10 troubled_session)))))).
Proof.
  apply (@counter_is_successful_writes None troubled_script
           (firstn 10 troubled_session) 0%nat (mkLocals 3 1040 0 1 (Some 1%nat)));
    vm_compute; reflexivity.
Defined.

Lemma final_count_is_bytes_written_witness :
  WriterThreadStatus.running
    (writer_status (world (run (launch None troubled_script) troubled_session)))
  = false /\
  WriterThreadStatus.bytes_written
    (writer_status (world (run (launch None troubled_script) troubled_session)))
  = len (List.concat
           (written (trace (world (run (launch None troubled_script)
                                       troubled_session))))).
Proof.
  apply (@final_count_is_bytes_written None troubled_script troubled_session);
    vm_compute; reflexivity.
Defined.

End LedgerFacts.

(** ** How the worker ends *)

Module ExitFacts.
Import Writer.
Import Stable.

Lemma next_fault_status w : writer_status (snd (next_fault w)) = writer_status w.
Proof. unfold next_fault. destruct (faults w); reflexivity. Qed.

Lemma sys_write_status h data w :
  writer_status (fst (sys_write h data w)) = writer_status w.
Proof.
  unfold sys_write. destruct (is_open h w); [| reflexivity].
  pose proof (next_fault_status w) as Hn.
  destruct (next_fault w) as [[e |] w']; exact Hn.
Qed.

Lemma sys_flush_status h w : writer_status (fst (sys_flush h w)) = writer_status w.
Proof.
  unfold sys_flush. destruct (is_open h w); [| reflexivity].
  pose proof (next_fault_status w) as Hn.
  destruct (next_fault w) as [f w']; exact Hn.
Qed.

Lemma sys_close_status h w : writer_status (fst (sys_close h w)) = writer_status w.
Proof.
  unfold sys_close. destruct (is_open h w); [| reflexivity].
  pose proof (next_fault_status w) as Hn.
  destruct (next_fault w) as [f w']; exact Hn.
Qed.

Lemma sys_open_status mode w : writer_status (fst (sys_open mode w)) = writer_status w.
Proof.
  unfold sys_open. pose proof (next_fault_status w) as Hn.
  destruct (next_fault w) as [[e |] w']; exact Hn.
Qed.

(** *** The handle of the [with] statement *)

Lemma sys_close_closes h w : is_open h (fst (sys_close h w)) = false.
Proof.
  unfold sys_close. destruct (is_open h w) eqn:Hopen; [| exact Hopen].
  pose proof (ReachableFacts.next_fault_handles w) as Hn.
  destruct (next_fault w) as [f w']. cbn [fst snd] in *.
  unfold is_open. cbn [handles emit set_handles].
  rewrite nth_mark_closed, Nat.eqb_refl. reflexivity.
Qed.

Lemma leave_with_closes ctx raised f :
  is_open ctx (env (fst (leave_with ctx raised f))) = false.
Proof.
  destruct f as [w l]. unfold leave_with, bind, close, lift_sys. cbn [env locals].
  pose proof (sys_close_closes ctx w) as Hc.
  destruct (sys_close ctx w) as [w' [e |]]; cbn [fst] in Hc;
    destruct raised; exact Hc.
Qed.

(** No close opens a file. *)
Lemma sys_close_keeps_closed h h' w :
  is_open h' w = false -> is_open h' (fst (sys_close h w)) = false.
Proof.
  intros Hc. unfold sys_close. destruct (is_open h w); [| exact Hc].
  pose proof (ReachableFacts.next_fault_handles w) as Hn.
  destruct (next_fault w) as [f w']. cbn [fst snd] in *.
  unfold is_open in *. cbn [handles emit set_handles].
  rewrite nth_mark_closed, Hn, Hc. destruct (Nat.eqb h' h); reflexivity.
Qed.

(** Before the frame is released, the end of the [try] statement does
    not touch the handles, the queue or the local variables. *)
Lemma leave_try_unfold now f r :
  exists f', leave_try now (f, r) = env (fst (release_frame f')) /\
             handles (env f') = handles (env f) /\
             data_queue (env f') = data_queue (env f) /\
             locals f' = locals f.
Proof.
  unfold leave_try. eexists. split; [reflexivity |].
  destruct f as [w l], r as [e | []]; repeat split.
Qed.

Lemma leave_try_keeps_closed now f r h :
  is_open h (env f) = false -> is_open h (leave_try now (f, r)) = false.
Proof.
  intros Hc. destruct (leave_try_unfold now f r) as (f' & -> & Hh & _ & _).
  rewrite release_frame_spec.
  assert (Hc' : is_open h (env f') = false) by (unfold is_open in *; congruence).
  destruct (file_handle (locals f')); [| exact Hc'].
  apply sys_close_keeps_closed. exact Hc'.
Qed.

Lemma leave_try_queue_same now f r :
  data_queue (leave_try now (f, r)) = data_queue (env f).
Proof.
  destruct (leave_try_unfold now f r) as (f' & -> & _ & Hq & _).
  rewrite release_frame_spec, <- Hq.
  destruct (file_handle (locals f')); [apply ReachableFacts.sys_close_queue | reflexivity].
Qed.

Lemma leave_with_queue_same ctx raised f :
  data_queue (env (fst (leave_with ctx raised f))) = data_queue (env f).
Proof.
  destruct f as [w l]. unfold leave_with, bind, close, lift_sys. cbn [env locals].
  pose proof (ReachableFacts.sys_close_queue ctx w) as Hc.
  destruct (sys_close ctx w) as [w' [e |]]; cbn [fst] in Hc;
    destruct raised; exact Hc.
Qed.

(** X4. Whenever a step of the worker leaves the [while True] loop, by
    [break] or by an exception, the file the [with] statement was
    entered with is closed afterwards, also when closing it fails. *)
Theorem with_block_closes_entered_file :
  forall now ctx l w,
    snd (step now (WhileTrue ctx l) w) = Finished ->
    is_open ctx (fst (step now (WhileTrue ctx l) w)) = false.
Proof.
  intros now ctx l w. unfold step.
  destruct (loop_iteration now (mkFrame w l)) as [f [e | [|]]]; cbn [fst snd];
    intros Hfin; try discriminate Hfin.
  - pose proof (leave_with_closes ctx (Some e) f) as Hc.
    destruct (leave_with ctx (Some e) f) as [f' r].
    apply leave_try_keeps_closed. exact Hc.
  - pose proof (leave_with_closes ctx None f) as Hc.
    destruct (leave_with ctx None f) as [f' r].
    apply leave_try_keeps_closed. exact Hc.
Qed.

(** A worker in its loop, with one open file and a chunk and the stop
    signal in the queue. *)
Definition busy_world (items : list item) (script : list (option Exn)) : World :=
  mkWorld (Queue.mk 4096 items)
          (WriterThreadStatus.mk true None 0 0 false)
          (Some []) [true] script [].
Definition busy_locals : Locals := mkLocals 0 0 0 0 (Some 0%nat).

Lemma with_block_closes_entered_file_witness :
  is_open 0%nat (fst (step 10 (WhileTrue 0%nat busy_locals)
                           (busy_world [stop_writer_signal] []))) = false.
Proof.
  apply (@with_block_closes_entered_file 10 0%nat busy_locals
           (busy_world [stop_writer_signal] [])).
  vm_compute. reflexivity.
Defined.

(** *** Pre- and postconditions *)

Section Hoare.
Variable P : Frame -> Prop.

(** From a frame with [P], [m] ends in a frame and with a result that
    satisfy [Q]. *)
Definition hoare {A} (m : M A) (Q : Frame -> Exn + A -> Prop) : Prop :=
  forall f, P f -> Q (fst (m f)) (snd (m f)).

Lemma hoare_bind A B (m : M A) (k : A -> M B) Q :
  stable P m ->
  (forall f e, P f -> Q f (inl e)) ->
  (forall a, hoare (k a) Q) ->
  hoare (bind m k) Q.
Proof.
  intros Hm Hraise Hk f H. unfold bind. specialize (Hm f H).
  destruct (m f) as [f' [e | a]]; cbn [fst snd] in *.
  - apply Hraise. exact Hm.
  - apply Hk. exact Hm.
Qed.
End Hoare.

(** *** The stop signal *)

Section StopSignal.
Variable rest : list item.
Variable v : bytes * list bytes * bool.

Definition signal_first (f : Frame) : Prop :=
  Queue.items (data_queue (env f)) = stop_writer_signal :: rest /\
  LedgerFacts.view (env f) = v.

Ltac signal_side :=
  intros; unfold signal_first in *; cbn [env] in *;
  rewrite ?ReachableFacts.sys_flush_queue, ?LedgerFacts.sys_flush_view,
          ?LedgerFacts.view_emit by exact I;
  assumption.

Definition left_undrained (f : Frame) (r : Exn + Ctl) : Prop :=
  r <> inr Next /\
  LedgerFacts.view (env f) = v /\
  chunks (data_queue (env f)) = chunks (Queue.mk 0 rest).

Lemma loop_iteration_signal now :
  hoare signal_first (loop_iteration now) left_undrained.
Proof.
  assert (Hraise : forall f (e : Exn), signal_first f -> left_undrained f (inl e)).
  { intros f e [Hq Hv]. split; [discriminate | split; [exact Hv |]].
    unfold chunks. rewrite Hq. reflexivity. }
  unfold loop_iteration.
  apply hoare_bind; [apply stable_get_locals | exact Hraise | intros l].
  apply hoare_bind; [| exact Hraise | intros _].
  { unfold update, set_last_heartbeat. stable_split signal_side. }
  apply hoare_bind; [apply stable_get_locals | exact Hraise | intros l'].
  apply hoare_bind; [| exact Hraise | intros _].
  { unfold update, print_stderr, flush, the_file_handle, set_last_flush.
    stable_split signal_side. }
  intros [w l0] [Hq Hv]. cbn [env] in Hq, Hv.
  unfold try_except, bind, queue_get, Queue.get. cbn [env locals]. rewrite Hq.
  cbn. split; [discriminate | split; [exact Hv | reflexivity]].
Qed.
End StopSignal.

(** X5. When the stop signal is the next entry of the queue, the step of
    the worker ends the worker, and nothing is written: the chunks
    queued behind the signal stay in the queue, the file is as it was. *)
Theorem stop_signal_ends_without_draining :
  forall now ctx l w rest,
    Queue.items (data_queue w) = stop_writer_signal :: rest ->
    let w' := fst (step now (WhileTrue ctx l) w) in
    snd (step now (WhileTrue ctx l) w) = Finished /\
    written (trace w') = written (trace w) /\
    file_bytes w' = file_bytes w /\
    chunks (data_queue w') = chunks (data_queue w).
Proof.
  intros now ctx l w rest Hq. cbv zeta.
  replace (chunks (data_queue w)) with (chunks (Queue.mk 0 rest))
    by (unfold chunks; rewrite Hq; reflexivity).
  unfold step.
  pose proof (@loop_iteration_signal rest (LedgerFacts.view w) now (mkFrame w l)
                (conj Hq eq_refl)) as (Hr & Hv & Hc).
  destruct (loop_iteration now (mkFrame w l)) as [f r]. cbn [fst snd] in *.
  assert (Hleave : forall raised,
            snd (leave_try now (leave_with ctx raised f), Finished) = Finished /\
            LedgerFacts.view (leave_try now (leave_with ctx raised f))
            = LedgerFacts.view w /\
            chunks (data_queue (leave_try now (leave_with ctx raised f)))
            = chunks (Queue.mk 0 rest)).
  { intros raised.
    pose proof (LedgerFacts.leave_with_view ctx raised f) as [Hv' _].
    pose proof (leave_with_queue_same ctx raised f) as Hq'.
    destruct (leave_with ctx raised f) as [f' r']. cbn [fst] in *.
    destruct (LedgerFacts.leave_try_view now f' r') as (Hv'' & _).
    rewrite leave_try_queue_same, Hq', Hv'', Hv', Hv. auto. }
  assert (Hview : forall w', LedgerFacts.view w' = LedgerFacts.view w ->
                             written (trace w') = written (trace w) /\
                             file_bytes w' = file_bytes w).
  { intros w' H. unfold LedgerFacts.view in H. injection H as H1 H2 _. auto. }
  destruct r as [e | [|]]; [| congruence |].
  - destruct (Hleave (Some e)) as (H1 & H2 & H3). cbn [fst snd].
    destruct (Hview _ H2). auto.
  - destruct (Hleave None) as (H1 & H2 & H3). cbn [fst snd].
    destruct (Hview _ H2). auto.
Qed.

Definition signal_then_chunk : World :=
  busy_world [stop_writer_signal; Some [Byte.x01]] [].

Lemma stop_signal_ends_without_draining_witness :
  snd (step 10 (WhileTrue 0%nat busy_locals) signal_then_chunk) = Finished /\
  written (trace (fst (step 10 (WhileTrue 0%nat busy_locals) signal_then_chunk)))
  = written (trace signal_then_chunk) /\
  file_bytes (fst (step 10 (WhileTrue 0%nat busy_locals) signal_then_chunk))
  = file_bytes signal_then_chunk /\
  chunks (data_queue (fst (step 10 (WhileTrue 0%nat busy_locals) signal_then_chunk)))
  = chunks (data_queue signal_then_chunk).
Proof.
  apply (@stop_signal_ends_without_draining 10 0%nat busy_locals signal_then_chunk
           [Some [Byte.x01]]).
  reflexivity.
Defined.

End ExitFacts.

(** ** Open files *)

Module HandleFacts.
Import Writer.
Import Stable.

(** No handle is open but, possibly, [o]. *)
Definition sole (o : option handle) (hs : list bool) : Prop :=
  forall i, nth i hs false = true -> o = Some i.

Lemma sole_at_most_one o hs :
  sole o hs -> (List.length (filter (fun b : bool => b) hs) <= 1)%nat.
Proof.
  revert o. induction hs as [| b hs IH]; intros o H; [cbn; lia |].
  destruct b; cbn [filter List.length].
  - assert (Hnone : filter (fun b : bool => b) hs = []).
    { assert (Hall : forall i, nth i hs false = false).
      { intros i. destruct (nth i hs false) eqn:Hi; [| reflexivity].
        pose proof (H 0%nat eq_refl) as H0. pose proof (H (S i) Hi) as H1.
        congruence. }
      clear -Hall. induction hs as [| b hs IH]; [reflexivity |].
      pose proof (Hall 0%nat) as H0. cbn in H0. subst b. cbn.
      apply IH. intros i. apply (Hall (S i)). }
    rewrite Hnone. cbn. lia.
  - apply (IH (match o with Some (S i) => Some i | _ => None end)).
    intros i Hi. specialize (H (S i) Hi). rewrite H. reflexivity.
Qed.

Lemma sole_closed o h hs : sole o hs -> sole o (mark_closed h hs).
Proof.
  intros H i. rewrite nth_mark_closed.
  destruct (Nat.eqb i h); [discriminate | apply H].
Qed.

Lemma sole_released o h hs : sole (Some h) hs -> sole o (mark_closed h hs).
Proof.
  intros H i. rewrite nth_mark_closed.
  destruct (Nat.eqb i h) eqn:Hi; [discriminate |].
  intros Hopen. specialize (H i Hopen). injection H as ->.
  rewrite Nat.eqb_refl in Hi. discriminate.
Qed.

Lemma sole_opened hs : sole None hs -> sole (Some (List.length hs)) (hs ++ [true]).
Proof.
  intros H i Hi. destruct (Nat.lt_ge_cases i (List.length hs)) as [Hlt | Hge].
  - rewrite app_nth1 in Hi by exact Hlt. specialize (H i Hi). discriminate.
  - destruct (Nat.eq_dec i (List.length hs)) as [-> | Hne]; [reflexivity |].
    rewrite nth_overflow in Hi; [discriminate |].
    rewrite length_app. cbn. lia.
Qed.

(** The only file that can be open is the one [file_handle] names. *)
Definition owns (f : Frame) : Prop :=
  sole (file_handle (locals f)) (handles (env f)).

Ltac owns_side :=
  intros; unfold owns in *; cbn [env locals file_handle handles emit
                                 set_writer_status set_data_queue] in *;
  rewrite ?ReachableFacts.sys_write_handles, ?ReachableFacts.sys_flush_handles;
  assumption.

Ltac owns_auto := stable_split owns_side.

Lemma sys_close_sole o h w :
  sole o (handles w) -> sole o (handles (fst (sys_close h w))).
Proof.
  intros H. unfold sys_close. destruct (is_open h w); [| exact H].
  pose proof (ReachableFacts.next_fault_handles w) as Hn.
  destruct (next_fault w) as [f w']. cbn [fst snd] in *.
  cbn [handles emit set_handles]. rewrite Hn. apply sole_closed. exact H.
Qed.

Lemma sys_close_releases o h w :
  sole (Some h) (handles w) -> sole o (handles (fst (sys_close h w))).
Proof.
  intros H. unfold sys_close. destruct (is_open h w) eqn:Hopen.
  - pose proof (ReachableFacts.next_fault_handles w) as Hn.
    destruct (next_fault w) as [f w']. cbn [fst snd] in *.
    cbn [handles emit set_handles]. rewrite Hn. apply sole_released. exact H.
  - cbn [fst]. intros i Hi. pose proof (H i Hi) as Heq. injection Heq as ->.
    unfold is_open in Hopen. congruence.
Qed.

(** Opening a file when none is open. *)
Lemma sys_open_sole mode w :
  sole None (handles w) ->
  match snd (sys_open mode w) with
  | inl _ => sole None (handles (fst (sys_open mode w)))
  | inr h => sole (Some h) (handles (fst (sys_open mode w)))
  end.
Proof.
  intros H. unfold sys_open.
  pose proof (ReachableFacts.next_fault_handles w) as Hn.
  destruct (next_fault w) as [[e |] w']; cbn [fst snd] in *;
    cbn [handles emit set_handles set_disk]; rewrite Hn.
  - exact H.
  - apply sole_opened. exact H.
Qed.

Lemma reopen_owns :
  stable owns
    (bind the_file_handle (fun h =>
     bind (close h) (fun _ =>
     bind (open_ AB) (fun h' =>
     bind (set_file_handle (Some h')) (fun _ => ret Next))))).
Proof.
  intros [w l] H. unfold owns in H. cbn [env locals] in H.
  unfold bind at 1. unfold the_file_handle, bind at 1, get_locals.
  cbn [fst snd locals].
  destruct (file_handle l) as [h |] eqn:Hfh; cbn [ret raise fst snd].
  - unfold bind at 1. unfold close, lift_sys. cbn [env locals].
    pose proof (@sys_close_releases None h w H) as Hnone.
    pose proof (@sys_close_releases (Some h) h w H) as Hsame.
    destruct (sys_close h w) as [w' [e |]]; cbn [fst snd] in *.
    + unfold owns. cbn [env locals]. rewrite Hfh. exact Hsame.
    + unfold bind at 1. unfold open_. cbn [env locals].
      pose proof (@sys_open_sole AB w' Hnone) as Ho.
      destruct (sys_open AB w') as [w'' [e | h']]; cbn [fst snd] in *.
      * unfold owns. cbn [env locals]. intros i Hi.
        specialize (Ho i Hi). discriminate.
      * exact Ho.
  - unfold owns. cbn [env locals]. rewrite Hfh. exact H.
Qed.

Lemma loop_iteration_owns now : stable owns (loop_iteration now).
Proof.
  unfold loop_iteration.
  apply stable_bind; [apply stable_get_locals | intros l].
  apply stable_bind; [unfold update, set_last_heartbeat; owns_auto | intros _].
  apply stable_bind; [apply stable_get_locals | intros l'].
  apply stable_bind;
    [unfold update, print_stderr, flush, the_file_handle, set_last_flush; owns_auto
    | intros _].
  apply stable_try_except.
  - unfold update, print_stderr, write, the_file_handle, set_written_bytes_total.
    owns_auto.
  - intros e. destruct (is_QueueEmpty e); [apply stable_ret |].
    destruct (is_IOError e).
    + apply stable_bind; [unfold print_stderr; owns_auto | intros _].
      apply stable_bind; [unfold update; owns_auto | intros _].
      apply stable_try_except; [apply reopen_owns |].
      intros e'. unfold update, print_stderr. owns_auto.
    + unfold update, print_stderr. owns_auto.
Qed.

Lemma open_attempt_owns now w l :
  file_handle l = None -> sole None (handles w) ->
  owns (fst (open_attempt now (mkFrame w l))).
Proof.
  intros Hfh H. unfold open_attempt, try_except.
  unfold bind at 1. unfold open_. cbn [env locals].
  pose proof (@sys_open_sole WB w H) as Ho.
  destruct (sys_open WB w) as [w' [e | h]]; cbn [fst snd] in *.
  - assert (Hh : stable owns
             (if is_IOError e
              then bind get_locals (fun l0 =>
                   bind (set_retry_count (retry_count l0 + 1)) (fun _ =>
                   bind get_locals (fun l1 =>
                   bind (print_stderr (MsgOpenFailed (retry_count l1) max_retry_count e))
                     (fun _ =>
                   bind (update now None
                           (Some (MsgOpenFailed (retry_count l1) max_retry_count e)) None)
                     (fun _ =>
                   bind (if max_retry_count <=? retry_count l1
                         then raise (MaxRetriesReached e) else ret tt) (fun _ =>
                   sleep (seconds 1)))))))
              else raise e)).
    { unfold update, print_stderr, sleep, set_retry_count. owns_auto. }
    apply Hh. unfold owns. cbn [env locals]. rewrite Hfh. exact Ho.
  - exact Ho.
Qed.

(** What holds of the open files, wherever the worker is. *)
Definition tenancy (t : pc) (w : World) : Prop :=
  match t with
  | Spawned | Finished => sole None (handles w)
  | RetryLoop l | WhileTrue _ l => sole (file_handle l) (handles w)
  end.

Lemma leave_with_owns ctx raised f : owns f -> owns (fst (leave_with ctx raised f)).
Proof.
  destruct f as [w l]. unfold owns, leave_with, bind, close, lift_sys. cbn [env locals].
  intros H. pose proof (@sys_close_sole (file_handle l) ctx w H) as Hc.
  destruct (sys_close ctx w) as [w' [e |]]; cbn [fst] in Hc;
    destruct raised; exact Hc.
Qed.

(** When the function has returned, the file [file_handle] named is
    closed as well. *)
Lemma leave_try_releases now f r :
  owns f -> sole None (handles (leave_try now (f, r))).
Proof.
  unfold owns. intros H.
  destruct (ExitFacts.leave_try_unfold now f r) as (f' & -> & Hh & _ & Hl).
  rewrite release_frame_spec, Hl. rewrite <- Hh in H.
  destruct (file_handle (locals f)) as [h |]; [| exact H].
  apply sys_close_releases. exact H.
Qed.

Lemma step_tenancy now t w :
  tenancy t w -> tenancy (snd (step now t w)) (fst (step now t w)).
Proof.
  destruct t as [| l | ctx l |]; intros H.
  - exact H.
  - unfold step.
    destruct ((retry_count l <? max_retry_count) && is_None (file_handle l)) eqn:Htest.
    + apply andb_prop in Htest as [_ Hnone].
      destruct (file_handle l) as [h |] eqn:Hfh; [discriminate |].
      cbn [tenancy] in H. rewrite Hfh in H.
      pose proof (@open_attempt_owns now w l Hfh H) as Ho.
      destruct (open_attempt now (mkFrame w l)) as [f [e | []]]; cbn [fst snd] in *.
      * apply leave_try_releases. exact Ho.
      * exact Ho.
    + destruct (file_handle l) as [h |] eqn:Hfh; cbn [fst snd].
      * cbn [tenancy] in *. rewrite Hfh. rewrite Hfh in H. exact H.
      * apply leave_try_releases. unfold owns. cbn [env locals].
        cbn [tenancy] in H. exact H.
  - unfold step. cbn [tenancy] in H.
    pose proof (@loop_iteration_owns now (mkFrame w l) H) as Ho.
    destruct (loop_iteration now (mkFrame w l)) as [f [e | [|]]]; cbn [fst snd] in *.
    + pose proof (@leave_with_owns ctx (Some e) f Ho) as Hl.
      destruct (leave_with ctx (Some e) f) as [f' r']. cbn [fst] in Hl.
      apply leave_try_releases. exact Hl.
    + exact Ho.
    + pose proof (@leave_with_owns ctx None f Ho) as Hl.
      destruct (leave_with ctx None f) as [f' r']. cbn [fst] in Hl.
      apply leave_try_releases. exact Hl.
  - exact H.
Qed.

Lemma act_tenancy a s :
  tenancy (writer_thread s) (world s) ->
  tenancy (writer_thread (act s a)) (world (act s a)).
Proof.
  intros H. destruct s as [w t p]. cbn [world writer_thread] in H.
  assert (Hsame : forall w', handles w' = handles w -> tenancy t w').
  { intros w' Hh. destruct t; cbn [tenancy] in *; rewrite Hh; exact H. }
  destruct a as [buffer_ptr length | code msg | now | now |].
  - cbn [act world writer_thread]. apply Hsame.
    unfold py_data_callback. destruct buffer_ptr; [| reflexivity].
    destruct (0 <? length); [| reflexivity].
    destruct (Queue.put_nowait _ _); reflexivity.
  - cbn [act world writer_thread]. apply Hsame. reflexivity.
  - cbn [act world writer_thread port_open].
    pose proof (@step_tenancy now t w H) as Hs.
    destruct (step now t w) as [w' t']. exact Hs.
  - cbn [act]. unfold Supervisor.check_writer_thread. cbn [world writer_thread].
    destruct t; cbn [Writer.is_alive negb fst]; try exact H.
    destruct (WriterThreadStatus.running _); cbn [fst world writer_thread];
      [exact H |].
    destruct (Queue.empty _); cbn [fst world writer_thread]; exact H.
  - cbn [act world]. destruct (Queue.put _ _); cbn [world writer_thread];
      [apply Hsame; reflexivity | exact H].
Qed.

Lemma reachable_tenancy existing_file script schedule :
  tenancy (writer_thread (run (launch existing_file script) schedule))
          (world (run (launch existing_file script) schedule)).
Proof.
  unfold run.
  assert (H0 : tenancy (writer_thread (launch existing_file script))
                       (world (launch existing_file script)))
    by (intros [| i] Hi; discriminate Hi).
  revert H0. generalize (launch existing_file script).
  induction schedule as [| a rest IH]; intros s H0; [exact H0 |].
  cbn [fold_left]. apply IH. apply act_tenancy. exact H0.
Qed.

(** X7. Whatever system calls fail, while the main thread does not replace
    the worker, the process never holds more than one output file open:
    a file is closed before it is reopened, also when a write, a flush
    or the close itself fails. *)
Theorem at_most_one_file_open :
  forall existing_file script schedule,
    forallb RoundTripFacts.session_action schedule = true ->
    (open_files (world (run (launch existing_file script) schedule)) <= 1)%nat.
Proof.
  intros existing_file script schedule _.
  pose proof (reachable_tenancy existing_file script schedule) as H.
  unfold open_files.
  destruct (writer_thread (run (launch existing_file script) schedule));
    cbn [tenancy] in H; eapply sole_at_most_one; exact H.
Qed.

Lemma at_most_one_file_open_witness :
  (open_files (world (run (launch None LedgerFacts.troubled_script)
                          LedgerFacts.troubled_session)) <= 1)%nat.
Proof.
  apply (@at_most_one_file_open None LedgerFacts.troubled_script
           LedgerFacts.troubled_session).
  vm_compute. reflexivity.
Defined.

End HandleFacts.

(** ** The heartbeat *)

Module HeartbeatFacts.
Import Writer.
Import Stable.

Section Pass.
Variable now : Z.

(** During a pass at time [now]: the register says running, and its
    heartbeat is not older than the heartbeat the worker remembers. *)
Definition beating (f : Frame) : Prop :=
  WriterThreadStatus.running (writer_status (env f)) = true /\
  last_heartbeat (locals f)
  <= WriterThreadStatus.last_heartbeat (writer_status (env f)) <= now.

(** The heartbeat the worker remembers is less than a second old. *)
Definition fresh (f : Frame) : Prop :=
  beating f /\ now - last_heartbeat (locals f) < heartbeat_interval.

Ltac beat_side :=
  intros; unfold fresh, beating in *;
  cbn [env locals last_heartbeat writer_status set_writer_status emit
       set_data_queue] in *;
  rewrite ?ExitFacts.sys_write_status, ?ExitFacts.sys_flush_status,
          ?ExitFacts.sys_close_status, ?ExitFacts.sys_open_status,
          ?RegisterFacts.update_fields;
  cbn [WriterThreadStatus.running WriterThreadStatus.last_heartbeat];
  intuition lia.

Ltac beat_auto := stable_split beat_side.

Lemma open_attempt_beating : stable beating (open_attempt now).
Proof.
  unfold open_attempt, update, print_stderr, sleep, set_retry_count, set_file_handle.
  beat_auto.
Qed.

(** The first statement of the loop body. *)
Lemma heartbeat_fresh l f :
  beating f -> l = locals f ->
  fresh (fst (when (heartbeat_interval <=? now - last_heartbeat l)
                (bind (update now None None (Some (written_bytes_total l)))
                      (fun _ => set_last_heartbeat now)) f)).
Proof.
  intros (Hrun & Hle) ->. destruct f as [w l]. cbn [env locals] in *.
  unfold when. destruct (heartbeat_interval <=? now - last_heartbeat l) eqn:Hdue.
  - unfold fresh, beating, bind, update, set_last_heartbeat, on_world, on_locals.
    cbn [fst snd env locals last_heartbeat writer_status set_writer_status].
    rewrite RegisterFacts.update_fields.
    cbn [WriterThreadStatus.running WriterThreadStatus.last_heartbeat].
    unfold heartbeat_interval, seconds. intuition lia.
  - unfold fresh, beating, ret. cbn [fst env locals].
    apply Z.leb_gt in Hdue. intuition lia.
Qed.

Lemma loop_iteration_fresh f :
  beating f -> fresh (fst (loop_iteration now f)).
Proof.
  intros H. unfold loop_iteration.
  unfold bind at 1. unfold get_locals at 1. cbn [fst snd].
  unfold bind at 1.
  pose proof (@heartbeat_fresh (locals f) f H eq_refl) as Hf.
  match type of Hf with
  | fresh (fst ?m) => destruct m as [f1 [e | []]]
  end; cbn [fst snd] in *; [exact Hf |].
  revert f1 Hf.
  match goal with
  | |- forall f1, fresh f1 -> fresh (fst (?m f1)) =>
      enough (Hs : stable fresh m) by exact Hs
  end.
  unfold update, print_stderr, write, flush, close, the_file_handle,
         set_last_flush, set_written_bytes_total, set_file_handle.
  beat_auto.
Qed.
End Pass.

Lemma leave_try_heartbeat now f r :
  WriterThreadStatus.last_heartbeat (writer_status (leave_try now (f, r))) = now.
Proof.
  unfold leave_try. rewrite release_frame_register.
  destruct f as [w l], r as [e | []];
    cbv [except_clause finally_clause bind print_stderr update on_world
         get_locals fst snd env locals];
    cbn [writer_status set_writer_status emit];
    rewrite ?RegisterFacts.update_fields; reflexivity.
Qed.

(** What holds of the register when the clock shows [last]. *)
Definition in_time (last : Z) (t : pc) (w : World) : Prop :=
  WriterThreadStatus.last_heartbeat (writer_status w) <= last /\
  match t with
  | RetryLoop l | WhileTrue _ l =>
      WriterThreadStatus.running (writer_status w) = true /\
      last_heartbeat l <= WriterThreadStatus.last_heartbeat (writer_status w)
  | _ => True
  end.

Lemma in_time_beating now last w l :
  last <= now ->
  WriterThreadStatus.last_heartbeat (writer_status w) <= last ->
  WriterThreadStatus.running (writer_status w) = true /\
  last_heartbeat l <= WriterThreadStatus.last_heartbeat (writer_status w) ->
  beating now (mkFrame w l).
Proof. unfold beating. cbn [env locals]. intuition lia. Qed.

Lemma finished_in_time now w :
  WriterThreadStatus.last_heartbeat (writer_status w) = now -> in_time now Finished w.
Proof. intros H. split; [lia | exact I]. Qed.

Lemma step_in_time last now t w :
  last <= now -> in_time last t w ->
  in_time now (snd (step now t w)) (fst (step now t w)).
Proof.
  intros Hnow [Hlast H]. destruct t as [| l | ctx l |].
  - unfold step, update, on_world. cbn [fst snd env locals].
    unfold in_time. cbn [writer_status set_writer_status last_heartbeat].
    rewrite RegisterFacts.update_fields.
    cbn [WriterThreadStatus.running WriterThreadStatus.last_heartbeat].
    intuition lia.
  - pose proof (@in_time_beating now last w l Hnow Hlast H) as Hb.
    unfold step.
    destruct ((retry_count l <? max_retry_count) && is_None (file_handle l)).
    + pose proof (@open_attempt_beating now (mkFrame w l) Hb) as Ho.
      destruct (open_attempt now (mkFrame w l)) as [f [e | []]]; cbn [fst snd] in *.
      * apply finished_in_time, leave_try_heartbeat.
      * unfold beating in Ho. unfold in_time. intuition lia.
    + destruct (file_handle l); cbn [fst snd].
      * unfold in_time. intuition lia.
      * apply finished_in_time, leave_try_heartbeat.
  - pose proof (@in_time_beating now last w l Hnow Hlast H) as Hb.
    unfold step.
    pose proof (@loop_iteration_fresh now (mkFrame w l) Hb) as [Ho _].
    destruct (loop_iteration now (mkFrame w l)) as [f [e | [|]]]; cbn [fst snd] in *.
    + destruct (leave_with ctx (Some e) f) as [f' r'].
      apply finished_in_time, leave_try_heartbeat.
    + unfold beating in Ho. unfold in_time. intuition lia.
    + destruct (leave_with ctx None f) as [f' r'].
      apply finished_in_time, leave_try_heartbeat.
  - cbn. split; [lia | exact I].
Qed.

Lemma act_in_time last a s :
  chronological last [a] = true ->
  in_time last (writer_thread s) (world s) ->
  in_time (match time_of a with Some now => now | None => last end)
          (writer_thread (act s a)) (world (act s a)).
Proof.
  intros Ha H. destruct s as [w t p]. cbn [world writer_thread] in H.
  destruct a as [buffer_ptr length | code msg | now | now |];
    cbn [time_of chronological] in *.
  - cbn [act world writer_thread].
    assert (Hs : writer_status (py_data_callback buffer_ptr length w) = writer_status w).
    { unfold py_data_callback. destruct buffer_ptr; [| reflexivity].
      destruct (0 <? length); [| reflexivity].
      destruct (Queue.put_nowait _ _); reflexivity. }
    unfold in_time in *. rewrite Hs. exact H.
  - exact H.
  - rewrite andb_true_r in Ha. apply Z.leb_le in Ha.
    cbn [act world writer_thread port_open].
    pose proof (@step_in_time last now t w Ha H) as Hs.
    destruct (step now t w) as [w' t']. exact Hs.
  - rewrite andb_true_r in Ha. apply Z.leb_le in Ha.
    destruct H as [Hlast H].
    unfold act, Supervisor.check_writer_thread. cbn [world writer_thread port_open].
    destruct (negb (is_alive t)) eqn:Halive; cbn [fst world writer_thread].
    + destruct t; try discriminate Halive.
      destruct (WriterThreadStatus.running _); cbn [fst world writer_thread].
      * apply finished_in_time. cbn [writer_status set_writer_status emit].
        rewrite RegisterFacts.update_fields. reflexivity.
      * destruct (Queue.empty (data_queue w)); cbn [fst world writer_thread];
          (split; [cbn [writer_status emit]; lia | exact I]).
    + split; [lia | exact H].
  - cbn [act world]. destruct (Queue.put _ _); exact H.
Qed.

Lemma run_in_time schedule : forall last s tail,
  chronological last (schedule ++ tail) = true ->
  in_time last (writer_thread s) (world s) ->
  exists last',
    chronological last' tail = true /\
    in_time last' (writer_thread (run s schedule)) (world (run s schedule)).
Proof.
  induction schedule as [| a rest IH]; intros last s tail Hc H.
  - exists last. split; [exact Hc | exact H].
  - assert (Ha : chronological last [a] = true /\
                 chronological (match time_of a with Some now => now | None => last end)
                               (rest ++ tail) = true).
    { cbn [app chronological] in *. destruct (time_of a) as [now |].
      - apply andb_prop in Hc as [H1 H2]. rewrite H1, H2. auto.
      - auto. }
    destruct Ha as (Ha & Hrest).
    apply (IH _ (act s a) tail Hrest (@act_in_time last a s Ha H)).
Qed.

End HeartbeatFacts.

(** ** Statements with a precondition, a postcondition and an
    exceptional postcondition *)

Module Triple.
Import Writer.

Definition triple {A} (P : Frame -> Prop) (m : M A)
    (Q : Frame -> A -> Prop) (E : Frame -> Exn -> Prop) : Prop :=
  forall f, P f ->
    match snd (m f) with
    | inr a => Q (fst (m f)) a
    | inl e => E (fst (m f)) e
    end.

Lemma triple_ret A P (a : A) (Q : Frame -> A -> Prop) E :
  (forall f, P f -> Q f a) -> triple P (ret a) Q E.
Proof. intros H f Hf. apply H. exact Hf. Qed.

Lemma triple_raise A P e (Q : Frame -> A -> Prop) (E : Frame -> Exn -> Prop) :
  (forall f, P f -> E f e) -> triple P (@raise A e) Q E.
Proof. intros H f Hf. apply H. exact Hf. Qed.

Lemma triple_bind A B P (m : M A) (k : A -> M B) R Q E :
  triple P m R E ->
  (forall a, triple (fun f => R f a) (k a) Q E) ->
  triple P (bind m k) Q E.
Proof.
  intros Hm Hk f Hf. unfold bind. specialize (Hm f Hf).
  destruct (m f) as [f' [e | a]]; cbn [fst snd] in *; [exact Hm |].
  apply (Hk a f' Hm).
Qed.

Lemma triple_try A P (body : M A) handler Q E' E :
  triple P body Q E' ->
  (forall e, triple (fun f => E' f e) (handler e) Q E) ->
  triple P (try_except body handler) Q E.
Proof.
  intros Hb Hh f Hf. unfold try_except. specialize (Hb f Hf).
  destruct (body f) as [f' [e | a]]; cbn [fst snd] in *; [| exact Hb].
  apply (Hh e f' Hb).
Qed.

Lemma triple_conseq A (P P' : Frame -> Prop) (m : M A) (Q Q' : Frame -> A -> Prop)
    (E E' : Frame -> Exn -> Prop) :
  triple P m Q E ->
  (forall f, P' f -> P f) ->
  (forall f a, Q f a -> Q' f a) ->
  (forall f e, E f e -> E' f e) ->
  triple P' m Q' E'.
Proof.
  intros H HP HQ HE f Hf. specialize (H f (HP f Hf)).
  destruct (snd (m f)); [apply HE | apply HQ]; exact H.
Qed.

Lemma triple_get_locals P (Q : Frame -> Locals -> Prop) E :
  (forall f, P f -> Q f (locals f)) -> triple P get_locals Q E.
Proof. intros H f Hf. apply H. exact Hf. Qed.

End Triple.

(** ** Why the worker ended *)

Module BlameFacts.
Import Writer.
Import Triple.

Lemma last_failure_app a b :
  last_failure (a ++ b)
  = match last_failure b with Some x => Some x | None => last_failure a end.
Proof.
  induction a as [| e a IH]; cbn [app last_failure].
  - destruct (last_failure b); reflexivity.
  - rewrite IH. destruct (last_failure b); reflexivity.
Qed.

Lemma printed_app a b : printed (a ++ b) = printed a ++ printed b.
Proof.
  induction a as [| e a IH]; [reflexivity |].
  destruct e; cbn; rewrite IH; reflexivity.
Qed.

Lemma culprit_quiet ext x e :
  failure_of x = None -> culprit ext e -> culprit (ext ++ [x]) e.
Proof.
  intros Hx. unfold culprit. rewrite last_failure_app. cbn [last_failure].
  rewrite Hx. auto.
Qed.

Section Since.
(** The trace when the step began. *)
Variable t0 : list Effect.

(** The trace has grown since. *)
Definition extends (w : World) : Prop := exists ext, trace w = t0 ++ ext.

(** The last system call that failed since, failed with [e]. *)
Definition failed (e : Exn) (w : World) : Prop :=
  exists ext, trace w = t0 ++ ext /\ last_failure ext = Some e.

(** An exception [e] is on its way, and it is what ended the
    statements executed since. *)
Definition blamed (e : Exn) (w : World) : Prop :=
  exists ext, trace w = t0 ++ ext /\ culprit ext e.

(** The register holds the last line written to stderr, that line
    names an exception, and it is the exception that ended the
    statements executed before the line was written. *)
Definition told (w : World) : Prop :=
  exists pre post line e,
    trace w = t0 ++ pre ++ Stderr line :: post /\
    printed post = [] /\
    WriterThreadStatus.error (writer_status w) = Some line /\
    exit_reason line = Some e /\
    culprit pre e.

Lemma extends_emit x w : extends w -> extends (emit x w).
Proof.
  intros [ext H]. exists (ext ++ [x]). cbn [emit trace]. rewrite H, app_assoc.
  reflexivity.
Qed.

Lemma extends_same w w' : trace w' = trace w -> extends w -> extends w'.
Proof. intros Ht [ext H]. exists ext. congruence. Qed.

Lemma failed_blamed e w : failed e w -> blamed e w.
Proof. intros (ext & H1 & H2). exists ext. unfold culprit. auto. Qed.

Lemma failed_wrapped e w : failed e w -> blamed (MaxRetriesReached e) w.
Proof.
  intros (ext & H1 & H2). exists ext. split; [exact H1 |].
  right. right. exists e. auto.
Qed.

Lemma blamed_extends e w : blamed e w -> extends w.
Proof. intros (ext & H & _). exists ext. exact H. Qed.

Lemma failed_extends e w : failed e w -> extends w.
Proof. intros (ext & H & _). exists ext. exact H. Qed.

Lemma told_extends w : told w -> extends w.
Proof. intros (pre & post & line & e & H & _). eexists. exact H. Qed.

Lemma interpreter_blamed e w : raised_by_interpreter e -> extends w -> blamed e w.
Proof. intros He [ext H]. exists ext. unfold culprit. auto. Qed.

Lemma blamed_quiet x e w : failure_of x = None -> blamed e w -> blamed e (emit x w).
Proof.
  intros Hx (ext & H & Hc). exists (ext ++ [x]). cbn [emit trace].
  rewrite H, app_assoc. split; [reflexivity | apply culprit_quiet; assumption].
Qed.

Lemma failed_quiet x e w : failure_of x = None -> failed e w -> failed e (emit x w).
Proof.
  intros Hx (ext & H & Hc). exists (ext ++ [x]). cbn [emit trace].
  rewrite H, app_assoc. split; [reflexivity |].
  rewrite last_failure_app. cbn [last_failure]. rewrite Hx. exact Hc.
Qed.

Lemma blamed_same e w w' : trace w' = trace w -> blamed e w -> blamed e w'.
Proof. intros Ht (ext & H & Hc). exists ext. split; [congruence | exact Hc]. Qed.

Lemma failed_same e w w' : trace w' = trace w -> failed e w -> failed e w'.
Proof. intros Ht (ext & H & Hc). exists ext. split; [congruence | exact Hc]. Qed.

Lemma fails_with x e w : failure_of x = Some e -> extends w -> failed e (emit x w).
Proof.
  intros Hx [ext H]. exists (ext ++ [x]). cbn [emit trace]. rewrite H, app_assoc.
  split; [reflexivity |]. rewrite last_failure_app. cbn [last_failure].
  rewrite Hx. reflexivity.
Qed.

Lemma told_same w w' :
  trace w' = trace w ->
  WriterThreadStatus.error (writer_status w') = WriterThreadStatus.error (writer_status w) ->
  told w -> told w'.
Proof.
  intros Ht Hs (pre & post & line & e & H1 & H2 & H3 & H4 & H5).
  exists pre, post, line, e. repeat split; try assumption; congruence.
Qed.

Lemma told_emit x w :
  match x with Stderr _ => False | _ => True end -> told w -> told (emit x w).
Proof.
  intros Hx (pre & post & line & e & H1 & H2 & H3 & H4 & H5).
  exists pre, (post ++ [x]), line, e. cbn [emit trace writer_status].
  rewrite H1. repeat split; try assumption.
  - rewrite <- !app_assoc. reflexivity.
  - rewrite printed_app, H2. destruct x; cbn; first [reflexivity | contradiction].
Qed.

(** A write, a flush, a close: the call either succeeds, or it raises
    and is to blame. *)
Definition blames (call : World -> World * option Exn) : Prop :=
  forall w, extends w ->
    data_queue (fst (call w)) = data_queue w /\
    match snd (call w) with
    | None => extends (fst (call w))
    | Some e => blamed e (fst (call w))
    end.

Lemma sys_write_blames h data : blames (sys_write h data).
Proof.
  intros w H. unfold sys_write. destruct (is_open h w).
  - pose proof (StartingFacts.next_fault_trace w) as Ht. pose proof (ReachableFacts.next_fault_queue w) as Hq.
    destruct (next_fault w) as [[e |] w']; cbn [fst snd] in *.
    + split; [exact Hq |]. apply failed_blamed, fails_with; [reflexivity |].
      eapply extends_same; [exact Ht | exact H].
    + split; [exact Hq |]. apply extends_emit.
      eapply extends_same; [exact Ht | exact H].
  - split; [reflexivity |]. apply interpreter_blamed; [left; reflexivity | exact H].
Qed.

Lemma sys_flush_blames h : blames (sys_flush h).
Proof.
  intros w H. unfold sys_flush. destruct (is_open h w).
  - pose proof (StartingFacts.next_fault_trace w) as Ht. pose proof (ReachableFacts.next_fault_queue w) as Hq.
    destruct (next_fault w) as [[e |] w']; cbn [fst snd] in *.
    + split; [exact Hq |]. apply failed_blamed, fails_with; [reflexivity |].
      eapply extends_same; [exact Ht | exact H].
    + split; [exact Hq |]. apply extends_emit. eapply extends_same; [exact Ht | exact H].
  - split; [reflexivity |]. apply interpreter_blamed; [left; reflexivity | exact H].
Qed.

Lemma sys_close_blames h : blames (sys_close h).
Proof.
  intros w H. unfold sys_close. destruct (is_open h w).
  - pose proof (StartingFacts.next_fault_trace w) as Ht. pose proof (ReachableFacts.next_fault_queue w) as Hq.
    destruct (next_fault w) as [[e |] w']; cbn [fst snd] in *.
    + split; [exact Hq |]. apply failed_blamed, fails_with; [reflexivity |].
      eapply extends_same; [| eapply extends_same; [exact Ht | exact H]]. reflexivity.
    + split; [exact Hq |]. apply extends_emit.
      eapply extends_same; [| eapply extends_same; [exact Ht | exact H]]. reflexivity.
  - split; [reflexivity | exact H].
Qed.

(** A close after the line was written: the line stays the last one,
    and the register keeps it. *)
Lemma sys_close_told h w : told w -> told (fst (sys_close h w)).
Proof.
  intros H. unfold sys_close. destruct (is_open h w); [| exact H].
  pose proof (StartingFacts.next_fault_trace w) as Ht. pose proof (ExitFacts.next_fault_status w) as Hs.
  destruct (next_fault w) as [r w']; cbn [fst snd] in *.
  apply told_emit; [exact I |].
  eapply told_same; [exact Ht | f_equal; exact Hs | exact H].
Qed.

(** A close while [e] is on its way: if the close succeeds [e] goes
    on, otherwise the exception of the close does. *)
Lemma sys_close_blamed h e w :
  blamed e w ->
  match snd (sys_close h w) with
  | None => blamed e (fst (sys_close h w))
  | Some e' => blamed e' (fst (sys_close h w))
  end.
Proof.
  intros H. unfold sys_close. destruct (is_open h w); [| exact H].
  pose proof (StartingFacts.next_fault_trace w) as Ht.
  destruct (next_fault w) as [[e' |] w']; cbn [fst snd] in *.
  - apply failed_blamed, fails_with; [reflexivity |].
    eapply extends_same; [| eapply extends_same; [exact Ht | eapply blamed_extends; exact H]].
    reflexivity.
  - apply blamed_quiet; [reflexivity |].
    eapply blamed_same; [| eapply blamed_same; [exact Ht | exact H]]. reflexivity.
Qed.

Lemma sys_open_fails mode w :
  extends w ->
  data_queue (fst (sys_open mode w)) = data_queue w /\
  match snd (sys_open mode w) with
  | inr _ => extends (fst (sys_open mode w))
  | inl e => failed e (fst (sys_open mode w))
  end.
Proof.
  intros H. unfold sys_open.
  pose proof (StartingFacts.next_fault_trace w) as Ht. pose proof (ReachableFacts.next_fault_queue w) as Hq.
  destruct (next_fault w) as [[e |] w']; cbn [fst snd] in *.
  - split; [exact Hq |]. apply fails_with; [reflexivity |].
    eapply extends_same; [exact Ht | exact H].
  - split; [exact Hq |]. apply extends_emit.
    eapply extends_same; [| eapply extends_same; [exact Ht | exact H]]. reflexivity.
Qed.

(** *** Statements *)

Section Queue.
(** What is known of the queue. *)
Variable qs : Queue.t item -> Prop.

Definition going (f : Frame) : Prop := qs (data_queue (env f)) /\ extends (env f).
Definition failing (f : Frame) (e : Exn) : Prop :=
  qs (data_queue (env f)) /\ blamed e (env f).
Definition just_failed (f : Frame) (e : Exn) : Prop :=
  qs (data_queue (env f)) /\ failed e (env f).

(** A statement that does not raise, leaves the queue alone and makes
    no system call that fails. *)
Definition quiet {A} (m : M A) : Prop :=
  forall f, exists a ext,
    snd (m f) = inr a /\
    data_queue (env (fst (m f))) = data_queue (env f) /\
    trace (env (fst (m f))) = trace (env f) ++ ext /\
    last_failure ext = None.

Lemma quiet_ret A (a : A) : quiet (ret a).
Proof. intros f. exists a, []. cbn. rewrite app_nil_r. auto. Qed.

Lemma quiet_get_locals : quiet get_locals.
Proof. intros f. exists (locals f), []. cbn. rewrite app_nil_r. auto. Qed.

Lemma quiet_on_locals g : quiet (on_locals g).
Proof. intros f. exists tt, []. cbn. rewrite app_nil_r. auto. Qed.

Lemma quiet_print line : quiet (print_stderr line).
Proof. intros f. exists tt, [Stderr line]. cbn. auto. Qed.

Lemma quiet_sleep d : quiet (sleep d).
Proof. intros f. exists tt, [Sleep d]. cbn. auto. Qed.

Lemma quiet_update now r e b : quiet (update now r e b).
Proof. intros f. exists tt, []. cbn. rewrite app_nil_r. auto. Qed.

Lemma quiet_bind A B (m : M A) (k : A -> M B) :
  quiet m -> (forall a, quiet (k a)) -> quiet (bind m k).
Proof.
  intros Hm Hk f. unfold bind. destruct (Hm f) as (a & ext & H1 & H2 & H3 & H4).
  destruct (m f) as [f' r]. cbn [fst snd] in *. subst r.
  destruct (Hk a f') as (b & ext' & K1 & K2 & K3 & K4).
  exists b, (ext ++ ext'). repeat split.
  - exact K1.
  - congruence.
  - rewrite K3, H3, app_assoc. reflexivity.
  - rewrite last_failure_app, K4. exact H4.
Qed.

Lemma quiet_when c m : quiet m -> quiet (when c m).
Proof. intros H. unfold when. destruct c; [exact H | apply quiet_ret]. Qed.

Ltac quiet_split :=
  repeat first
    [ apply quiet_ret | apply quiet_get_locals | apply quiet_on_locals
    | apply quiet_print | apply quiet_sleep | apply quiet_update
    | apply quiet_when
    | apply quiet_bind; [| intros ?] ].

Lemma quiet_extends A (m : M A) f :
  quiet m -> extends (env f) -> extends (env (fst (m f))).
Proof.
  intros Hm [ext0 H0]. destruct (Hm f) as (a & ext & _ & _ & H3 & _).
  exists (ext0 ++ ext). rewrite H3, H0, app_assoc. reflexivity.
Qed.

Lemma last_failure_quiet ext ext' :
  last_failure ext' = None -> last_failure (ext ++ ext') = last_failure ext.
Proof. intros H. rewrite last_failure_app, H. reflexivity. Qed.

Lemma quiet_blamed A (m : M A) f e :
  quiet m -> blamed e (env f) -> blamed e (env (fst (m f))).
Proof.
  intros Hm (ext0 & H0 & Hc). destruct (Hm f) as (a & ext & _ & _ & H3 & H4).
  exists (ext0 ++ ext). rewrite H3, H0, app_assoc. split; [reflexivity |].
  unfold culprit in *. rewrite (@last_failure_quiet ext0 ext H4). exact Hc.
Qed.

Lemma quiet_failed A (m : M A) f e :
  quiet m -> failed e (env f) -> failed e (env (fst (m f))).
Proof.
  intros Hm (ext0 & H0 & Hc). destruct (Hm f) as (a & ext & _ & _ & H3 & H4).
  exists (ext0 ++ ext). rewrite H3, H0, app_assoc. split; [reflexivity |].
  rewrite (@last_failure_quiet ext0 ext H4). exact Hc.
Qed.

(** A quiet statement keeps whatever is on its way. *)
Lemma quiet_going A (m : M A) E :
  quiet m -> triple going m (fun f _ => going f) E.
Proof.
  intros Hm f [Hq He]. pose proof (@quiet_extends A m f Hm He) as He'.
  destruct (Hm f) as (a & ext & H1 & H2 & _). rewrite H1.
  split; [rewrite H2; exact Hq | exact He'].
Qed.

Lemma quiet_failing A (m : M A) e E :
  quiet m -> triple (fun f => failing f e) m (fun f _ => failing f e) E.
Proof.
  intros Hm f [Hq He]. pose proof (@quiet_blamed A m f e Hm He) as He'.
  destruct (Hm f) as (a & ext & H1 & H2 & _). rewrite H1.
  split; [rewrite H2; exact Hq | exact He'].
Qed.

Lemma quiet_just_failed A (m : M A) e E :
  quiet m -> triple (fun f => just_failed f e) m (fun f _ => just_failed f e) E.
Proof.
  intros Hm f [Hq He]. pose proof (@quiet_failed A m f e Hm He) as He'.
  destruct (Hm f) as (a & ext & H1 & H2 & _). rewrite H1.
  split; [rewrite H2; exact Hq | exact He'].
Qed.

Lemma failing_going f e : failing f e -> going f.
Proof. intros [Hq H]. split; [exact Hq | eapply blamed_extends; exact H]. Qed.

Lemma just_failed_failing f e : just_failed f e -> failing f e.
Proof. intros [Hq H]. split; [exact Hq | apply failed_blamed; exact H]. Qed.

Lemma the_file_handle_going :
  triple going the_file_handle (fun f _ => going f) failing.
Proof.
  intros f [Hq He]. unfold the_file_handle, bind, get_locals. cbn [fst snd].
  destruct (file_handle (locals f)); cbn [ret raise fst snd].
  - split; assumption.
  - split; [exact Hq |]. apply interpreter_blamed; [right; reflexivity | exact He].
Qed.

Lemma lift_sys_going call :
  blames call -> triple going (lift_sys call) (fun f _ => going f) failing.
Proof.
  intros Hc [w l] [Hq He]. unfold lift_sys. cbn [env locals] in *.
  destruct (Hc w He) as [H1 H2].
  destruct (call w) as [w' [e |]]; unfold going, failing; cbn [fst snd env] in *;
    (split; [rewrite H1; exact Hq | exact H2]).
Qed.

Lemma open_going mode :
  triple going (open_ mode) (fun f _ => going f) just_failed.
Proof.
  intros [w l] [Hq He]. unfold open_. cbn [env locals] in *.
  destruct (@sys_open_fails mode w He) as [H1 H2].
  destruct (sys_open mode w) as [w' [e | h]]; unfold going, just_failed;
    cbn [fst snd env] in *;
    (split; [rewrite H1; exact Hq | exact H2]).
Qed.

End Queue.
Ltac quiet_split :=
  repeat first
    [ apply quiet_ret | apply quiet_get_locals | apply quiet_on_locals
    | apply quiet_print | apply quiet_sleep | apply quiet_update
    | apply quiet_when
    | apply quiet_bind; [| intros ?] ].

(** Nothing is known of the queue. *)
Definition any_queue : Queue.t item -> Prop := fun _ => True.

(** The exception on its way is written to stderr under a line that
    names it, the line is stored in the register, and the loop is
    left. *)
Lemma report_breaks qs now line e E :
  exit_reason line = Some e ->
  triple (fun f => failing qs f e)
         (bind (print_stderr line) (fun _ =>
          bind (update now None (Some line) None) (fun _ => ret Break)))
         (fun f c => c = Break -> told (env f)) E.
Proof.
  intros Hline [w l] [_ (ext & Ht & Hc)]. cbn [env] in Ht.
  cbv [bind print_stderr update on_world ret fst snd env locals].
  intros _. exists ext, [], line, e.
  cbn [set_writer_status emit trace writer_status].
  rewrite RegisterFacts.update_fields, Ht. cbn [WriterThreadStatus.error].
  rewrite <- app_assoc. auto.
Qed.

Definition breaks_told (f : Frame) (c : Ctl) : Prop := c = Break -> told (env f).
Definition blame (f : Frame) (e : Exn) : Prop := blamed e (env f).

(** The queue is not empty and its head is not the stop signal: the
    head is taken. *)
Lemma queue_get_chunk q0 :
  hd_error (Queue.items q0) <> Some stop_writer_signal ->
  triple (going (eq q0)) queue_get
         (fun f x => x <> None /\ going any_queue f)
         (fun f e => (e = QueueEmpty /\ going any_queue f) \/ failing any_queue f e).
Proof.
  intros Hq0 [w l] [Hq He]. unfold queue_get, Queue.get. cbn [env locals] in *.
  rewrite <- Hq. destruct (Queue.items q0) as [| [d |] rest]; cbn [fst snd].
  - left. split; [reflexivity | split; [exact I | exact He]].
  - split; [discriminate |]. split; [exact I |].
    eapply extends_same; [| exact He]. reflexivity.
  - exfalso. apply Hq0. reflexivity.
Qed.

Lemma loop_iteration_blames q0 now :
  hd_error (Queue.items q0) <> Some stop_writer_signal ->
  triple (going (eq q0)) (loop_iteration now) breaks_told blame.
Proof.
  intros Hq0. unfold loop_iteration.
  eapply triple_bind; [apply quiet_going, quiet_get_locals | intros l].
  eapply triple_bind;
    [apply quiet_going; unfold set_last_heartbeat; quiet_split | intros ?].
  eapply triple_bind; [apply quiet_going, quiet_get_locals | intros l'].
  eapply triple_bind with (R := fun f _ => going (eq q0) f).
  { unfold when. destruct (flush_interval <=? now - last_flush l').
    - eapply triple_try with (E' := failing (eq q0)).
      + eapply triple_bind; [apply the_file_handle_going | intros h].
        eapply triple_bind;
          [unfold flush; apply lift_sys_going, sys_flush_blames | intros ?].
        apply quiet_going. unfold set_last_flush. quiet_split.
      + intros e. destruct (is_IOError e).
        * eapply triple_conseq;
            [apply (@quiet_failing (eq q0)) with (e := e) (E := blame); quiet_split
            | auto | intros f ? H; eapply failing_going; exact H | auto].
        * apply triple_raise. intros f [_ H]. exact H.
    - apply triple_ret. auto. }
  intros ?.
  eapply triple_try
    with (E' := fun f e => (e = QueueEmpty /\ going any_queue f)
                           \/ failing any_queue f e).
  - eapply triple_bind; [apply (queue_get_chunk Hq0) | intros [data |]].
    + destruct (truthy data).
      * eapply triple_conseq with (P := going any_queue) (Q := breaks_told);
          [| intros f [_ H]; exact H | auto | intros f e H; right; exact H].
        eapply triple_try with (E' := failing any_queue).
        -- eapply triple_bind; [apply the_file_handle_going | intros h].
           eapply triple_bind;
             [unfold write; apply lift_sys_going, sys_write_blames | intros ?].
           eapply triple_bind; [apply quiet_going, quiet_get_locals | intros l1].
           eapply triple_bind;
             [apply quiet_going; unfold set_written_bytes_total; quiet_split | intros ?].
           eapply triple_bind; [apply quiet_going, quiet_get_locals | intros l2].
           eapply triple_bind; [apply quiet_going; quiet_split | intros ?].
           apply triple_ret. intros f ? H. discriminate H.
        -- intros e. destruct (is_IOError e).
           ++ eapply triple_bind; [apply quiet_failing, quiet_print | intros ?].
              eapply triple_bind; [apply quiet_failing, quiet_update | intros ?].
              apply triple_raise. auto.
           ++ apply triple_raise. auto.
      * apply triple_ret. intros f ? H. discriminate H.
    + intros f [H _]. congruence.
  - intros e. destruct (is_QueueEmpty e) eqn:Hqe.
    + apply triple_ret. intros f ? H. discriminate H.
    + eapply triple_conseq with (P := fun f => failing any_queue f e)
                                (Q := breaks_told) (E := blame);
        [| intros f [[-> _] | H]; [discriminate Hqe | exact H] | auto | auto].
      destruct (is_IOError e).
      * eapply triple_bind; [apply quiet_failing, quiet_print | intros ?].
        eapply triple_bind; [apply quiet_failing, quiet_update | intros ?].
        eapply triple_conseq with (P := going any_queue) (Q := breaks_told) (E := blame);
          [| intros f H; eapply failing_going; exact H | auto | auto].
        eapply triple_try with (E' := failing any_queue).
        -- eapply triple_bind; [apply the_file_handle_going | intros h].
           eapply triple_bind;
             [unfold close; apply lift_sys_going, sys_close_blames | intros ?].
           eapply triple_bind with (R := fun f _ => going any_queue f).
           { eapply triple_conseq;
               [apply open_going | intros f H; exact H | intros f ? H; exact H
               | intros f e' H; apply just_failed_failing; exact H]. }
           intros h'.
           eapply triple_bind;
             [apply quiet_going; unfold set_file_handle; quiet_split | intros ?].
           apply triple_ret. intros f ? H. discriminate H.
        -- intros e'. destruct (is_IOError e').
           ++ apply report_breaks. reflexivity.
           ++ apply triple_raise. intros f [_ H]. exact H.
      * apply report_breaks. reflexivity.
Qed.

(** One pass through the open-retry loop. *)
Lemma open_attempt_blames now :
  triple (going any_queue) (open_attempt now) (fun _ _ => True) blame.
Proof.
  unfold open_attempt.
  eapply triple_try with (E' := just_failed any_queue).
  - eapply triple_bind; [apply open_going | intros h].
    intros f _. cbn. exact I.
  - intros e. destruct (is_IOError e).
    + eapply triple_bind; [apply quiet_just_failed, quiet_get_locals | intros l].
      eapply triple_bind;
        [apply quiet_just_failed; unfold set_retry_count; quiet_split | intros ?].
      eapply triple_bind; [apply quiet_just_failed, quiet_get_locals | intros l'].
      eapply triple_bind; [apply quiet_just_failed, quiet_print | intros ?].
      eapply triple_bind; [apply quiet_just_failed, quiet_update | intros ?].
      eapply triple_bind with (R := fun _ _ => True).
      * destruct (max_retry_count <=? retry_count l').
        -- apply triple_raise. intros f [_ H]. apply failed_wrapped. exact H.
        -- apply triple_ret. auto.
      * intros ? f _. destruct (snd (sleep (seconds 1) f)) eqn:Hs; [| exact I].
        discriminate Hs.
    + apply triple_raise. intros f [_ H]. apply failed_blamed. exact H.
Qed.

(** Leaving the [with] block after a [break]. *)
Lemma leave_with_told ctx f :
  told (env f) ->
  match snd (leave_with ctx None f) with
  | inr _ => told (env (fst (leave_with ctx None f)))
  | inl e => blamed e (env (fst (leave_with ctx None f)))
  end.
Proof.
  destruct f as [w l]. intros H. unfold leave_with, bind, close, lift_sys.
  cbn [env locals] in *.
  pose proof (sys_close_told ctx H) as Ht.
  destruct (@sys_close_blames ctx w (told_extends H)) as [_ Hb].
  destruct (sys_close ctx w) as [w' [e |]]; cbn [fst snd env] in *; assumption.
Qed.

(** Leaving the [with] block with an exception. *)
Lemma leave_with_blamed ctx e f :
  blamed e (env f) ->
  exists e', snd (leave_with ctx (Some e) f) = inl e' /\
             blamed e' (env (fst (leave_with ctx (Some e) f))).
Proof.
  destruct f as [w l]. intros H. unfold leave_with, bind, close, lift_sys.
  cbn [env locals] in *.
  pose proof (@sys_close_blamed ctx e w H) as Hb.
  destruct (sys_close ctx w) as [w' [e' |]]; cbn [fst snd env raise] in *; eauto.
Qed.

(** The end of the function: an exception that reaches the outer
    [try] is written to stderr and stored; the rest changes neither
    the error of the register nor the last line. *)
Lemma leave_try_told now f r :
  match r with
  | inl e => blamed e (env f)
  | inr _ => told (env f)
  end ->
  told (leave_try now (f, r)).
Proof.
  intros H. unfold leave_try. rewrite release_frame_spec.
  match goal with
  | |- told match ?o with Some h => fst (sys_close h ?w) | None => ?w end =>
      enough (Ht : told w) by (destruct o; [apply sys_close_told |]; exact Ht)
  end.
  destruct f as [w l], r as [e | []];
    cbv [except_clause finally_clause bind print_stderr update on_world
         get_locals fst snd env locals].
  - destruct H as (ext & Ht & Hc). exists ext, [], (MsgInitFailed e), e.
    cbn [set_writer_status emit trace writer_status env] in *.
    rewrite !RegisterFacts.update_fields, Ht. cbn [WriterThreadStatus.error].
    rewrite <- app_assoc. auto.
  - cbn [env] in H. eapply told_same; [| | exact H]; cbn [set_writer_status trace writer_status].
    + reflexivity.
    + rewrite RegisterFacts.update_fields. reflexivity.
Qed.

End Since.

End BlameFacts.

(** ** The worker returns *)

Module ReturnFacts.
Import Writer.
Import Stable.
Import Triple.









Section Pass.
(** The world and the local variables when the step began. *)
Variable w0 : World.
Variable l0 : Locals.










End Pass.




(** Whenever a step ends a worker that did not find the stop signal at
    the head of the queue, the register tells why. *)
Lemma step_told now t w :
  is_alive t = true ->
  snd (step now t w) = Finished ->
  hd_error (Queue.items (data_queue w)) <> Some stop_writer_signal ->
  BlameFacts.told (trace w) (fst (step now t w)).
Proof.
  intros Halive Hfin Hq.
  assert (Hext : BlameFacts.extends (trace w) w) by (exists []; rewrite app_nil_r; reflexivity).
  destruct t as [| l | ctx l |].
  - discriminate Hfin.
  - unfold step in *.
    destruct ((retry_count l <? max_retry_count) && is_None (file_handle l)).
    + pose proof (@BlameFacts.open_attempt_blames (trace w) now (mkFrame w l)
                    (conj I Hext)) as Ho.
      destruct (open_attempt now (mkFrame w l)) as [f [e | []]];
        cbn [fst snd] in *; [| discriminate Hfin].
      apply (@BlameFacts.leave_try_told (trace w) now f (inl e)). exact Ho.
    + destruct (file_handle l); cbn [fst snd] in *; [discriminate Hfin |].
      apply (@BlameFacts.leave_try_told (trace w) now (mkFrame w l) (inl no_file)).
      apply BlameFacts.interpreter_blamed; [right; reflexivity | exact Hext].
  - unfold step in *.
    pose proof (@BlameFacts.loop_iteration_blames (trace w) (data_queue w) now Hq
                  (mkFrame w l) (conj eq_refl Hext)) as Ho.
    destruct (loop_iteration now (mkFrame w l)) as [f [e | [|]]];
      cbn [fst snd] in *.
    + destruct (@BlameFacts.leave_with_blamed (trace w) ctx e f Ho) as (e' & He' & Hb).
      destruct (leave_with ctx (Some e) f) as [f' r']. cbn [fst snd] in *. subst r'.
      apply (@BlameFacts.leave_try_told (trace w) now f' (inl e')). exact Hb.
    + discriminate Hfin.
    + pose proof (@BlameFacts.leave_with_told (trace w) ctx f (Ho eq_refl)) as Hl.
      destruct (leave_with ctx None f) as [f' [e' | u]]; cbn [fst snd] in *;
        apply (@BlameFacts.leave_try_told (trace w) now f'); exact Hl.
  - discriminate Halive.
Qed.



(** X6. The worker never ends silently: whenever a step of the worker ends
    it and the stop signal was not the next entry of the queue, the
    error field of the register holds the line that says why. It is the
    last line the worker wrote to stderr, written in this step; it is
    one of the three lines that name an exception (the reopening
    failed, an unknown exception, an exception that left the loop or
    the opening of the file); and the exception it names is the one
    that ended the worker: an exception the interpreter raised (a
    closed file, no file), or the exception of the last system call
    that had failed in this step before the line was written, wrapped
    when the open-retry loop gave up. *)
Theorem worker_never_ends_silently :
  forall now t w,
    is_alive t = true ->
    snd (step now t w) = Finished ->
    hd_error (Queue.items (data_queue w)) <> Some stop_writer_signal ->
    let w' := fst (step now t w) in
    exists pre post line e,
      trace w' = trace w ++ pre ++ Stderr line :: post /\
      printed post = [] /\
      WriterThreadStatus.error (writer_status w') = Some line /\
      exit_reason line = Some e /\
      culprit pre e.
Proof. intros now t w Halive Hfin Hq. apply (@step_told now t w Halive Hfin Hq). Qed.

Definition failing_write : World :=
  ExitFacts.busy_world [Some [Byte.x01]] [Some (OtherException "MemoryError")].

Lemma worker_never_ends_silently_witness :
  let w' := fst (step 10 (WhileTrue 0%nat ExitFacts.busy_locals) failing_write) in
  exists pre post line e,
    trace w' = trace failing_write ++ pre ++ Stderr line :: post /\
    printed post = [] /\
    WriterThreadStatus.error (writer_status w') = Some line /\
    exit_reason line = Some e /\
    culprit pre e.
Proof.
  apply (@worker_never_ends_silently 10 (WhileTrue 0%nat ExitFacts.busy_locals)
           failing_write).
  - reflexivity.
  - vm_compute. reflexivity.
  - vm_compute. discriminate.
Defined.

End ReturnFacts.

(** ** What a step of a writer thread adds to the trace *)

Module TraceFacts.
Import Writer.
Import Stable.

(** The effects of a writer thread: system calls, sleeps, and the
    lines of [writer_thread_func]. *)
Definition writer_effect (e : Effect) : bool :=
  match e with
  | Stderr (MsgOpenFailed _ _ _) | Stderr (MsgFlushFailed _)
  | Stderr (MsgWriteFailed _) | Stderr (MsgReopenFailed _)
  | Stderr (MsgUnknownException _) | Stderr (MsgInitFailed _) => true
  | Stderr _ => false
  | _ => true
  end.

Section Grown.
Variable t0 : list Effect.

(** The trace is [t0] followed by effects of a writer thread. *)
Definition grown_world (w : World) : Prop :=
  exists ext, trace w = t0 ++ ext /\ forallb writer_effect ext = true.
Definition grown (f : Frame) : Prop := grown_world (env f).

Lemma grown_emit e w :
  writer_effect e = true -> grown_world w -> grown_world (emit e w).
Proof.
  intros He (ext & Ht & Hall). exists (ext ++ [e]). cbn [emit trace].
  rewrite Ht, app_assoc, forallb_app, Hall. cbn. rewrite He. auto.
Qed.

Lemma grown_same w w' : trace w' = trace w -> grown_world w -> grown_world w'.
Proof. intros Ht (ext & H & Hall). exists ext. rewrite Ht. auto. Qed.

Lemma grown_next_fault w : grown_world w -> grown_world (snd (next_fault w)).
Proof. apply grown_same. unfold next_fault. destruct (faults w); reflexivity. Qed.

Lemma grown_sys_write h data w : grown_world w -> grown_world (fst (sys_write h data w)).
Proof.
  intros H. unfold sys_write. destruct (is_open h w); [| exact H].
  pose proof (grown_next_fault H) as Hn.
  destruct (next_fault w) as [[e |] w']; cbn [fst snd] in *.
  - apply grown_emit; [reflexivity | exact Hn].
  - apply grown_emit; [reflexivity |]. revert Hn. apply grown_same. reflexivity.
Qed.

Lemma grown_sys_flush h w : grown_world w -> grown_world (fst (sys_flush h w)).
Proof.
  intros H. unfold sys_flush. destruct (is_open h w); [| exact H].
  pose proof (grown_next_fault H) as Hn.
  destruct (next_fault w) as [e w']; cbn [fst snd] in *.
  apply grown_emit; [reflexivity | exact Hn].
Qed.

Lemma grown_sys_close h w : grown_world w -> grown_world (fst (sys_close h w)).
Proof.
  intros H. unfold sys_close. destruct (is_open h w); [| exact H].
  pose proof (grown_next_fault H) as Hn.
  destruct (next_fault w) as [e w']; cbn [fst snd] in *.
  apply grown_emit; [reflexivity |]. revert Hn. apply grown_same. reflexivity.
Qed.

Lemma grown_sys_open mode w : grown_world w -> grown_world (fst (sys_open mode w)).
Proof.
  intros H. unfold sys_open.
  pose proof (grown_next_fault H) as Hn.
  destruct (next_fault w) as [[e |] w']; cbn [fst snd] in *.
  - apply grown_emit; [reflexivity | exact Hn].
  - apply grown_emit; [reflexivity |]. revert Hn. apply grown_same. reflexivity.
Qed.

Ltac grown_side :=
  intros; unfold grown in *; cbn [env] in *;
  first [ assumption
        | apply grown_sys_write; assumption
        | apply grown_sys_flush; assumption
        | apply grown_sys_close; assumption
        | apply grown_sys_open; assumption
        | apply grown_emit; [reflexivity | assumption]
        | eapply grown_same; [| eassumption]; reflexivity ].

Ltac grown_auto := stable_split grown_side.

Lemma loop_iteration_grown now : stable grown (loop_iteration now).
Proof.
  unfold loop_iteration, update, print_stderr, sleep, write, flush, close,
         the_file_handle, set_last_heartbeat, set_last_flush,
         set_written_bytes_total, set_file_handle.
  grown_auto.
Qed.

Lemma open_attempt_grown now : stable grown (open_attempt now).
Proof.
  unfold open_attempt, update, print_stderr, sleep, set_retry_count, set_file_handle.
  grown_auto.
Qed.

Lemma leave_with_grown ctx raised : stable grown (leave_with ctx raised).
Proof. unfold leave_with, close. grown_auto. Qed.

Lemma leave_try_grown now f r : grown f -> grown_world (leave_try now (f, r)).
Proof.
  intros H. unfold leave_try.
  assert (Hrel : stable grown release_frame)
    by (unfold release_frame, close; grown_auto).
  apply Hrel.
  assert (Hfin : stable grown (finally_clause now))
    by (unfold finally_clause, update; grown_auto).
  assert (Hexc : forall e, stable grown (except_clause now e))
    by (intros e; unfold except_clause, update, print_stderr; grown_auto).
  destruct r as [e | u].
  - apply (@stable_bind grown unit unit); auto.
  - apply Hfin. exact H.
Qed.

Lemma step_grown now t w : grown_world w -> grown_world (fst (step now t w)).
Proof.
  intros H. destruct t as [| l | ctx l |]; unfold step.
  - cbn. revert H. apply grown_same. reflexivity.
  - destruct ((retry_count l <? max_retry_count) && is_None (file_handle l)).
    + pose proof (@open_attempt_grown now (mkFrame w l) H) as Ho.
      destruct (open_attempt now (mkFrame w l)) as [f [e | []]]; cbn [fst] in *.
      * apply leave_try_grown. exact Ho.
      * exact Ho.
    + destruct (file_handle l); cbn [fst]; [exact H |].
      apply leave_try_grown. exact H.
  - pose proof (@loop_iteration_grown now (mkFrame w l) H) as Ho.
    destruct (loop_iteration now (mkFrame w l)) as [f [e | [|]]]; cbn [fst] in *.
    + pose proof (@leave_with_grown ctx (Some e) f Ho) as Hl.
      destruct (leave_with ctx (Some e) f) as [f' r']. apply leave_try_grown. exact Hl.
    + exact Ho.
    + pose proof (@leave_with_grown ctx None f Ho) as Hl.
      destruct (leave_with ctx None f) as [f' r']. apply leave_try_grown. exact Hl.
  - exact H.
Qed.
End Grown.

(** A step of a writer thread only appends to the trace, and what it
    appends are effects of a writer thread. *)
Lemma step_trace now t w :
  exists ext, trace (fst (step now t w)) = trace w ++ ext /\
              forallb writer_effect ext = true.
Proof.
  apply (@step_grown (trace w) now t w). exists []. rewrite app_nil_r. auto.
Qed.

Lemma timeouts_app tr tr' : timeouts (tr ++ tr') = (timeouts tr + timeouts tr')%nat.
Proof.
  induction tr as [| e tr IH]; [reflexivity |].
  destruct e as [| | | | [] |]; cbn; rewrite IH; reflexivity.
Qed.

Lemma writer_effects_no_timeout ext :
  forallb writer_effect ext = true -> timeouts ext = 0%nat.
Proof.
  induction ext as [| e ext IH]; [reflexivity |]. cbn [forallb].
  intros H. apply andb_prop in H as [He Hrest].
  destruct e as [| | | | [] |]; cbn in *; try discriminate He; auto.
Qed.

Lemma step_timeouts now t w :
  timeouts (trace (fst (step now t w))) = timeouts (trace w).
Proof.
  destruct (step_trace now t w) as (ext & -> & Hall).
  rewrite timeouts_app, (writer_effects_no_timeout _ Hall). lia.
Qed.

End TraceFacts.

(** ** The supervising loop *)

Module MainFacts.
Import Main.

(** The heartbeat timeouts reported so far. *)
Definition reported (m : Program) : nat := timeouts (trace (world (system m))).

Lemma act_timeouts s a :
  timeouts (trace (world (act s a))) = timeouts (trace (world s)).
Proof.
  destruct a as [buffer_ptr length | code msg | now | now |]; cbn [act world].
  - unfold py_data_callback. destruct buffer_ptr; [| reflexivity].
    destruct (0 <? length); [| reflexivity].
    destruct (Queue.put_nowait _ _); [reflexivity |].
    cbn [emit trace]. rewrite TraceFacts.timeouts_app. cbn. lia.
  - cbn [py_error_callback emit trace]. rewrite TraceFacts.timeouts_app. cbn. lia.
  - pose proof (TraceFacts.step_timeouts now (writer_thread s) (world s)) as H.
    destruct (Writer.step now (writer_thread s) (world s)) as [w t]. exact H.
  - unfold Supervisor.check_writer_thread.
    destruct (negb (Writer.is_alive (writer_thread s))); [| reflexivity].
    destruct (WriterThreadStatus.running _); cbn [fst world].
    + cbn [set_writer_status emit trace]. rewrite TraceFacts.timeouts_app. cbn. lia.
    + destruct (Queue.empty _); cbn [fst world]; [| reflexivity].
      cbn [emit trace]. rewrite TraceFacts.timeouts_app. cbn. lia.
  - destruct (Queue.put _ _); reflexivity.
Qed.

Lemma put_stop_signal_reported current_time now m :
  reported (put_stop_signal current_time now m) = reported m.
Proof. unfold put_stop_signal. destruct (Queue.put _ _); reflexivity. Qed.

(** What the heartbeat check does: nothing before the interval has
    passed; it notes the time when the register is alive; otherwise it
    reports the timeout. *)
Lemma check_heartbeat_cases current_time m :
  let due := status_check_interval <=? current_time - last_status_check m in
  let alive := WriterThreadStatus.is_alive (writer_status (world (system m)))
                 current_time heartbeat_timeout in
  if due && negb alive
  then reported (check_heartbeat current_time m) = S (reported m)
  else system (check_heartbeat current_time m) = system m /\
       replaced (check_heartbeat current_time m) = replaced m /\
       main (check_heartbeat current_time m) = (if due then Sleeping else main m).
Proof.
  cbv zeta. unfold check_heartbeat.
  destruct (status_check_interval <=? current_time - last_status_check m);
    [| cbn; auto].
  destruct (WriterThreadStatus.is_alive _ _ _); cbn [negb andb]; [cbn; auto |].
  destruct (Writer.is_alive (writer_thread (system m))).
  - rewrite put_stop_signal_reported. unfold reported. cbn [set_system system world emit trace].
    rewrite TraceFacts.timeouts_app. cbn. lia.
  - unfold reported, restart. cbn [set_system system world emit trace].
    rewrite TraceFacts.timeouts_app. cbn. lia.
Qed.

Lemma check_heartbeat_reported current_time m :
  (reported m <= reported (check_heartbeat current_time m))%nat.
Proof.
  pose proof (check_heartbeat_cases current_time m) as H. cbv zeta in H.
  match type of H with if ?c then _ else _ => destruct c end; [rewrite H; lia |].
  destruct H as (H & _). unfold reported. rewrite H. lia.
Qed.

Lemma pass_reported now m : (reported m <= reported (pass now m))%nat.
Proof.
  unfold pass. destruct (port_open (system m)); [| unfold reported; cbn [set_main system]; lia].
  pose proof (act_timeouts (system m) (SupervisorCheck now)) as Ha. cbn [act] in Ha.
  destruct (Supervisor.check_writer_thread now (system m)) as [s [|]]; cbn [fst] in Ha.
  - pose proof (check_heartbeat_reported now (set_system s m)) as H.
    unfold reported in *. cbn [set_system system] in H. lia.
  - unfold reported. cbn [set_main set_system system]. lia.
Qed.

Lemma event_reported m e : (reported m <= reported (event m e))%nat.
Proof.
  destruct e as [a | i now |]; cbn [event].
  - assert (Hact : reported (set_system (act (system m) a) m) = reported m)
      by (unfold reported; cbn [set_system system]; apply act_timeouts).
    destruct a as [buffer_ptr length | code msg | now | now |]; try lia.
    + unfold main_thread. destruct (main m) as [| ct | ct since |].
      * apply pass_reported.
      * rewrite put_stop_signal_reported. lia.
      * destruct (_ || _); [unfold reported, restart; cbn [system world]; lia | lia].
      * lia.
    + destruct (main m); try lia.
      destruct (Writer.is_alive _); lia.
  - destruct (nth_error (replaced m) i) as [t |]; [| lia].
    pose proof (TraceFacts.step_timeouts now t (world (system m))) as H.
    destruct (Writer.step now t (world (system m))) as [w t'].
    unfold reported. cbn [system world fst] in *. lia.
  - unfold reported. cbn [set_main system]. lia.
Qed.

Lemma execute_reported schedule :
  forall m, (reported m <= reported (execute m schedule))%nat.
Proof.
  induction schedule as [| e rest IH]; intros m; [cbn; lia |].
  cbn [execute fold_left]. fold (execute (event m e) rest).
  pose proof (event_reported m e). pose proof (IH (event m e)). lia.
Qed.

(** *** Runs without a heartbeat timeout *)

(** No writer thread was replaced while alive, and the main thread is
    not in the middle of a replacement. *)
Definition calm (m : Program) : Prop :=
  replaced m = [] /\ (main m = Sleeping \/ main m = LoopLeft).

(** What an event does to the shared objects and the writer thread of
    a calm program. *)
Definition shadow (m : Program) (e : Event) : option Action :=
  match e with
  | Of (SupervisorCheck now) =>
      match main m with
      | Sleeping => if port_open (system m) then Some (SupervisorCheck now) else None
      | _ => None
      end
  | Of PutStopSignal =>
      match main m with
      | LoopLeft => if Writer.is_alive (writer_thread (system m))
                    then Some PutStopSignal else None
      | _ => None
      end
  | Of a => Some a
  | _ => None
  end.

Lemma calm_event m e :
  calm m ->
  reported (event m e) = reported m ->
  calm (event m e) /\
  system (event m e)
  = match shadow m e with Some a => act (system m) a | None => system m end /\
  (main (event m e) = Sleeping -> main m = Sleeping).
Proof.
  intros [Hnone Hmain] Hrep.
  destruct e as [a | i now |]; cbn [event shadow] in *.
  - destruct a as [buffer_ptr length | code msg | now | now |];
      try (split; [split; assumption | split; [reflexivity | intros H; exact H]]).
    + unfold main_thread in *. destruct Hmain as [Hm | Hm]; rewrite Hm in *.
      * unfold pass in *. destruct (port_open (system m)).
        -- cbn [act].
           pose proof (act_timeouts (system m) (SupervisorCheck now)) as Ha.
           cbn [act] in Ha.
           destruct (Supervisor.check_writer_thread now (system m)) as [s [|]];
             cbn [fst] in *.
           ++ pose proof (check_heartbeat_cases now (set_system s m)) as Hc.
              cbv zeta in Hc.
              match type of Hc with if ?c then _ else _ => destruct c end.
              ** unfold reported in *. cbn [set_system system] in Hc. lia.
              ** destruct Hc as (Hs & Hr & Hp). rewrite Hs.
                 split; [| split; [reflexivity | auto]].
                 split; [rewrite Hr; exact Hnone |].
                 rewrite Hp. cbn [set_system main]. rewrite Hm.
                 destruct (_ <=? _); auto.
           ++ split; [split; [exact Hnone | right; reflexivity] |].
              split; [reflexivity | discriminate].
        -- split; [split; [exact Hnone | right; reflexivity] |].
           split; [reflexivity | discriminate].
      * split; [split; [exact Hnone | right; exact Hm] |].
        split; [reflexivity | congruence].
    + destruct Hmain as [Hm | Hm]; rewrite Hm in *.
      * split; [split; [exact Hnone | left; exact Hm] |].
        split; [reflexivity | congruence].
      * destruct (Writer.is_alive (writer_thread (system m))).
        -- split; [split; [exact Hnone | right; exact Hm] |].
           split; [reflexivity | cbn; congruence].
        -- split; [split; [exact Hnone | right; exact Hm] |].
           split; [reflexivity | congruence].
  - rewrite Hnone. destruct i; cbn;
      (split; [split; assumption | split; [reflexivity | auto]]).
  - split; [split; [exact Hnone | right; reflexivity] |].
    split; [reflexivity | discriminate].
Qed.


(** *** A dead thread and a register that says running *)

(** C3, what the code does. When a pass of the supervising loop finds
    the thread [writer_thread] names no longer executing while the
    register reads running=true, it writes the inconsistency to stderr
    with the last error of the register, stores that line as the error
    and running=false in the register, and leaves the loop, whatever
    the queue holds: no replacement is started, the heartbeat check of
    the pass is not reached, and the queue is left as it is. *)
Theorem dead_but_running_stops :
  forall now m,
    main m = Sleeping ->
    port_open (system m) = true ->
    Writer.is_alive (writer_thread (system m)) = false ->
    WriterThreadStatus.running (writer_status (world (system m))) = true ->
    let m' := event m (Of (SupervisorCheck now)) in
    let line :=
      MsgDeadButRunning (WriterThreadStatus.error (writer_status (world (system m)))) in
    main m' = LoopLeft /\
    trace (world (system m')) = trace (world (system m)) ++ [Stderr line] /\
    WriterThreadStatus.running (writer_status (world (system m'))) = false /\
    WriterThreadStatus.error (writer_status (world (system m'))) = Some line /\
    writer_thread (system m') = writer_thread (system m) /\
    replaced m' = replaced m /\
    last_status_check m' = last_status_check m /\
    data_queue (world (system m')) = data_queue (world (system m)).
Proof.
  intros now m Hmain Hport Hdead Hrun. cbv zeta.
  cbn [event]. unfold main_thread. rewrite Hmain. unfold pass. rewrite Hport.
  unfold Supervisor.check_writer_thread. rewrite Hdead. cbn [negb].
  unfold WriterThreadStatus.get_status. cbn [WriterThreadStatus.exec
    WriterThreadStatus.running WriterThreadStatus.error].
  rewrite Hrun.
  cbn [set_main set_system system main replaced last_status_check world
       writer_thread set_writer_status emit trace writer_status data_queue].
  rewrite RegisterFacts.update_fields.
  cbn [WriterThreadStatus.running WriterThreadStatus.error].
  repeat split.
Qed.

(** The main thread makes a pass every five seconds. *)
Definition passes (times : list Z) : list Event :=
  map (fun now => Of (SupervisorCheck now)) times.

(** How the program gets there. The first worker is started but does
    not get to run; the heartbeat check of the pass made thirty seconds
    after the start finds the register not alive, queues the stop
    signal, waits two seconds for the worker and starts a second one.
    The second worker opens the file, takes the stop signal and
    returns. Only then the first worker runs its first statements and
    stores running=true; a chunk arrives. *)
Definition late_starter : list Event :=
  passes [0; 5000; 10000; 15000; 20000; 25000; 30000]
    ++ [Of (SupervisorCheck 32000);
        Of (WriterStep 32010); Of (WriterStep 32020); Of (WriterStep 32030);
        Of (WriterStep 32040);
        Replaced 0 32050;
        Of (DataCallback (bytes_at [Byte.x41]) 1)].

Definition dead_but_running : Program := execute (begin None [] 0) late_starter.

Lemma dead_but_running_stops_witness :
  let m' := event dead_but_running (Of (SupervisorCheck 37000)) in
  main m' = LoopLeft /\
  trace (world (system m'))
  = trace (world (system dead_but_running)) ++ [Stderr (MsgDeadButRunning None)] /\
  WriterThreadStatus.running (writer_status (world (system m'))) = false /\
  WriterThreadStatus.error (writer_status (world (system m')))
  = Some (MsgDeadButRunning None) /\
  writer_thread (system m') = writer_thread (system dead_but_running) /\
  replaced m' = replaced dead_but_running /\
  last_status_check m' = last_status_check dead_but_running /\
  data_queue (world (system m')) = data_queue (world (system dead_but_running)).
Proof.
  apply (@dead_but_running_stops 37000 dead_but_running); vm_compute; reflexivity.
Defined.

(** C3 as written fails: the thread [writer_thread] names has ended,
    the register says running and a chunk is waiting in the queue; the
    pass of the supervising loop leaves the loop all the same, and
    starts no replacement: the name [writer_thread] still refers to
    the thread that ended, and the chunk stays in the queue. *)
Lemma backlog_does_not_restart :
  let m' := event dead_but_running (Of (SupervisorCheck 37000)) in
  main dead_but_running = Sleeping /\
  writer_thread (system dead_but_running) = Writer.Finished /\
  WriterThreadStatus.running (writer_status (world (system dead_but_running))) = true /\
  Queue.items (data_queue (world (system dead_but_running))) = [Some [Byte.x41]] /\
  main m' = LoopLeft /\
  writer_thread (system m') = Writer.Finished /\
  WriterThreadStatus.running (writer_status (world (system m'))) = false /\
  Queue.items (data_queue (world (system m'))) = [Some [Byte.x41]].
Proof. vm_compute. repeat split. Qed.

(** *** The round trip *)

Import RoundTripFacts.









(** *** The heartbeat *)

Import HeartbeatFacts.

Lemma shadow_of m e a : shadow m e = Some a -> e = Of a.
Proof.
  destruct e as [[buffer_ptr length | code msg | now | now |] | i now |];
    cbn [shadow]; try discriminate; try (intros H; injection H as <-; reflexivity).
  - destruct (main m); try discriminate. destruct (port_open _); [| discriminate].
    intros H. injection H as <-. reflexivity.
  - destruct (main m); try discriminate. destruct (Writer.is_alive _); [| discriminate].
    intros H. injection H as <-. reflexivity.
Qed.

Lemma in_time_later last last' t w :
  last <= last' -> in_time last t w -> in_time last' t w.
Proof. intros Hle [H1 H2]. split; [lia | exact H2]. Qed.

Lemma in_order_head last e rest :
  in_order last (e :: rest) = true ->
  let next := match moment e with Some now => now | None => last end in
  last <= next /\ in_order next rest = true.
Proof.
  cbn [in_order]. destruct (moment e) as [now |]; cbv zeta.
  - intros H. apply andb_prop in H as [H1 H2]. apply Z.leb_le in H1. auto.
  - intros H. split; [lia | exact H].
Qed.

Lemma event_in_time last m e :
  calm m ->
  reported (event m e) = reported m ->
  in_order last [e] = true ->
  in_time last (writer_thread (system m)) (world (system m)) ->
  in_time (match moment e with Some now => now | None => last end)
          (writer_thread (system (event m e))) (world (system (event m e))).
Proof.
  intros Hcalm Hrep Hord H.
  destruct (@calm_event m e Hcalm Hrep) as (_ & Hsys & _). rewrite Hsys.
  destruct (in_order_head _ _ _ Hord) as [Hle _]. cbv zeta in Hle.
  destruct (shadow m e) as [a |] eqn:Hshadow.
  - apply shadow_of in Hshadow. subst e. cbn [moment] in *.
    apply act_in_time; [| exact H].
    cbn [in_order moment] in Hord. cbn [chronological]. exact Hord.
  - apply (in_time_later Hle H).
Qed.

Lemma execute_in_time schedule : forall last m tail,
  calm m ->
  reported (execute m schedule) = reported m ->
  in_order last (schedule ++ tail) = true ->
  in_time last (writer_thread (system m)) (world (system m)) ->
  exists last',
    in_order last' tail = true /\
    in_time last' (writer_thread (system (execute m schedule)))
            (world (system (execute m schedule))).
Proof.
  induction schedule as [| e rest IH]; intros last m tail Hcalm Hrep Hord H.
  - exists last. split; [exact Hord | exact H].
  - cbn [execute fold_left] in *. fold (execute (event m e) rest) in *.
    pose proof (event_reported m e) as Hle1.
    pose proof (execute_reported rest (event m e)) as Hle2.
    assert (Hrep1 : reported (event m e) = reported m) by lia.
    assert (Hrep2 : reported (execute (event m e) rest) = reported (event m e)) by lia.
    destruct (@calm_event m e Hcalm Hrep1) as (Hcalm1 & _ & _).
    cbn [app] in Hord. destruct (in_order_head _ _ _ Hord) as [Hle Hrest].
    cbv zeta in Hle, Hrest.
    assert (Hone : in_order last [e] = true).
    { cbn [in_order]. destruct (moment e); [| reflexivity].
      apply andb_true_intro. split; [apply Z.leb_le; exact Hle | reflexivity]. }
    apply (IH _ (event m e) tail Hcalm1 Hrep2 Hrest
              (@event_in_time last m e Hcalm Hrep1 Hone H)).
Qed.

(** X8. While the clock does not go back and the main thread has reported
    no heartbeat timeout: after every pass of the worker through
    [while True] that goes on to another pass, the register says
    running, and its heartbeat is at most a second older than the clock
    reading [now] the pass began with; so [is_alive(timeout)] holds at
    every time [later] with one second plus [later - now] below
    [timeout]. *)
Theorem heartbeat_kept_by_every_pass :
  forall existing_file script started schedule now ctx l ctx' l' later timeout,
    in_order 0 (schedule ++ [Of (WriterStep now)]) = true ->
    let m0 := execute (begin existing_file script started) schedule in
    let m := event m0 (Of (WriterStep now)) in
    timeouts (trace (world (system m))) = 0%nat ->
    writer_thread (system m0) = Writer.WhileTrue ctx l ->
    writer_thread (system m) = Writer.WhileTrue ctx' l' ->
    Writer.heartbeat_interval + (later - now) < timeout ->
    WriterThreadStatus.running (writer_status (world (system m))) = true /\
    now - WriterThreadStatus.last_heartbeat (writer_status (world (system m)))
      <= Writer.heartbeat_interval /\
    WriterThreadStatus.is_alive (writer_status (world (system m))) later timeout = true.
Proof.
  intros existing_file script started schedule now ctx l ctx' l' later timeout
         Hord m0 m Hrep Hin Hstay Hlater.
  assert (Hrep0 : reported m0 = reported (begin existing_file script started)).
  { pose proof (execute_reported schedule (begin existing_file script started)) as H1.
    fold m0 in H1. pose proof (event_reported m0 (Of (WriterStep now))) as H2.
    fold m in H2. unfold reported in *. lia. }
  assert (Hcalm0 : calm (begin existing_file script started))
    by (split; [reflexivity | left; reflexivity]).
  assert (H0 : in_time 0 (writer_thread (system (begin existing_file script started)))
                       (world (system (begin existing_file script started))))
    by (split; [cbn; lia | exact I]).
  destruct (@execute_in_time schedule 0 _ [Of (WriterStep now)] Hcalm0 Hrep0 Hord H0)
    as (last & Hlast & H).
  fold m0 in H. cbn [in_order moment time_of] in Hlast.
  rewrite andb_true_r in Hlast. apply Z.leb_le in Hlast.
  destruct H as [Hle H]. rewrite Hin in H.
  pose proof (@in_time_beating now last (world (system m0)) l Hlast Hle H) as Hb.
  pose proof (@loop_iteration_fresh now (Writer.mkFrame (world (system m0)) l) Hb) as Hf.
  subst m. cbn [event set_system system] in *. unfold act in *.
  rewrite Hin in *. unfold Writer.step in *.
  destruct (Writer.loop_iteration now (Writer.mkFrame (world (system m0)) l))
    as [f [e | [|]]];
    cbn [fst snd world writer_thread] in *; try discriminate Hstay.
  destruct Hf as ((Hrun & Hlh) & Hfresh).
  unfold WriterThreadStatus.is_alive. rewrite Hrun. cbn [andb].
  split; [reflexivity | split; [lia | apply Z.ltb_lt; lia]].
Qed.

(** The worker starts, opens the file and enters its loop; four
    seconds later it finds the queue empty. The main thread made a
    pass in between. *)
Definition quiet_start : list Event :=
  [Of (WriterStep 100); Of (WriterStep 200); Of (WriterStep 300);
   Of (SupervisorCheck 1000)].

Lemma heartbeat_kept_by_every_pass_witness :
  let m := event (execute (begin None [] 0) quiet_start) (Of (WriterStep 4300)) in
  WriterThreadStatus.running (writer_status (world (system m))) = true /\
  4300 - WriterThreadStatus.last_heartbeat (writer_status (world (system m)))
    <= Writer.heartbeat_interval /\
  WriterThreadStatus.is_alive (writer_status (world (system m))) 13299 (seconds 10)
  = true.
Proof.
  refine (@heartbeat_kept_by_every_pass None [] 0 quiet_start 4300
            0%nat (Writer.mkLocals 0 100 100 0 (Some 0%nat))
            0%nat (Writer.mkLocals 0 4300 100 0 (Some 0%nat))
            13299 (seconds 10) eq_refl eq_refl eq_refl eq_refl _).
  vm_compute. reflexivity.
Defined.

(** *** A heartbeat timeout *)


(** *** The queue *)

Lemma put_stop_signal_within_capacity current_time now m :
  QueueFacts.within_capacity (data_queue (world (system m))) ->
  QueueFacts.within_capacity
    (data_queue (world (system (put_stop_signal current_time now m)))).
Proof.
  intros H. unfold put_stop_signal, Queue.put.
  destruct (Queue.put_nowait (data_queue (world (system m))) stop_writer_signal)
    eqn:Hput; cbn [system world set_main set_data_queue data_queue].
  - eapply QueueFacts.within_capacity_put; eassumption.
  - exact H.
Qed.

Lemma event_within_capacity m e :
  QueueFacts.within_capacity (data_queue (world (system m))) ->
  QueueFacts.within_capacity (data_queue (world (system (event m e)))).
Proof.
  intros H. destruct e as [a | i now |]; cbn [event].
  - pose proof (@QueueFacts.act_within_capacity a (system m) H) as Hact.
    destruct a as [buffer_ptr length | code msg | now | now |];
      try exact Hact.
    + unfold main_thread. destruct (main m) as [| ct | ct since |].
      * unfold pass. destruct (port_open (system m)); [| exact H].
        cbn [act] in Hact.
        destruct (Supervisor.check_writer_thread now (system m)) as [s [|]];
          cbn [fst] in Hact; [| exact Hact].
        unfold check_heartbeat. cbn [set_system system last_status_check].
        destruct (status_check_interval <=? now - last_status_check m); [| exact Hact].
        destruct (negb (WriterThreadStatus.is_alive _ _ _)); [| exact Hact].
        destruct (Writer.is_alive (writer_thread s)).
        -- apply put_stop_signal_within_capacity. exact Hact.
        -- exact Hact.
      * apply put_stop_signal_within_capacity. exact H.
      * destruct (_ || _); exact H.
      * exact H.
    + destruct (main m); try exact H.
      destruct (Writer.is_alive _); [exact Hact | exact H].
  - destruct (nth_error (replaced m) i) as [t |]; [| exact H].
    pose proof (@QueueFacts.step_queue_has QueueFacts.within_capacity
                  QueueFacts.within_capacity_get now t (world (system m)) H) as Hs.
    destruct (Writer.step now t (world (system m))) as [w t']. exact Hs.
  - exact H.
Qed.

(** X22. In every state the whole program reaches, with the heartbeat
    check, its stop signals and the replaced workers, whatever the
    schedule of the threads and whatever the system calls do, the
    queue holds at most 4096 entries, stop signals included: the [put]
    of the main thread blocks when the queue is full. *)
Theorem queue_bounded_in_whole_program :
  forall existing_file script started schedule,
    Queue.qsize
      (data_queue (world (system (execute (begin existing_file script started)
                                          schedule))))
    <= 4096.
Proof.
  intros existing_file script started schedule.
  assert (H0 : QueueFacts.within_capacity
                 (data_queue (world (system (begin existing_file script started)))))
    by (split; [reflexivity | cbn; lia]).
  revert H0. generalize (begin existing_file script started).
  induction schedule as [| e schedule IH]; intros m Hm; [apply Hm |].
  cbn [execute fold_left]. apply IH. apply event_within_capacity. exact Hm.
Qed.

End MainFacts.

(** ** The writer of [bes_log_to_bin_script.py] *)

Module LegacyWriterFacts.
Import LegacyWriter.

Lemma finally_block_shared l s : shared (finally_block l s) = shared s.
Proof. unfold finally_block. destruct (f l); reflexivity. Qed.

Lemma except_clauses_returned e l s :
  snd (except_clauses e l s) = Returned ->
  Legacy.g_stop_event (shared (fst (except_clauses e l s))) = true.
Proof.
  unfold except_clauses. destruct (is_QueueEmpty e).
  - destruct (Legacy.g_stop_event (shared s)) eqn:Hev; cbn [fst snd].
    + intros _. rewrite finally_block_shared. exact Hev.
    + discriminate.
  - intros _. cbn [fst]. rewrite finally_block_shared. reflexivity.
Qed.

(** X9. The writer returns only with the stop event set, so that the loop
    of the main thread ends as well: at the end of the data, after a
    failure to create the directory or to open the file, after a failed
    write. *)
Theorem writer_returns_only_stopped :
  forall filename output_dir l s,
    snd (writer_pass filename output_dir l s) = Returned ->
    Legacy.main_loop_test (shared (fst (writer_pass filename output_dir l s))) = false.
Proof.
  intros filename output_dir l s. unfold Legacy.main_loop_test.
  enough (H : snd (writer_pass filename output_dir l s) = Returned ->
              Legacy.g_stop_event
                (shared (fst (writer_pass filename output_dir l s))) = true)
    by (intros Hr; rewrite (H Hr); reflexivity).
  unfold writer_pass.
  destruct (Legacy.writer_loop_test (shared s)) eqn:Htest.
  - destruct (Queue.get (Legacy.data_queue (shared s))) as [[[data |] q] |].
    + destruct (Writer.truthy data); [| discriminate].
      destruct (file_opened l).
      * destruct (f l) as [h |]; [| discriminate].
        destruct (sys_write h data (os (set_queue q s))) as [w [e |]];
          [apply except_clauses_returned | discriminate].
      * destruct (open_output output_dir (set_queue q s)) as [s' [e | h]].
        -- intros _. cbn [fst]. rewrite finally_block_shared. reflexivity.
        -- cbn [f]. destruct (sys_write h data (os s')) as [w [e |]];
             [apply except_clauses_returned | discriminate].
    + discriminate.
    + apply except_clauses_returned.
  - intros _. cbn [fst]. rewrite finally_block_shared.
    unfold Legacy.writer_loop_test in Htest.
    destruct (Legacy.g_stop_event (shared s)); [reflexivity | discriminate].
Qed.

(** A process whose stop event is set, with [items] in the queue and
    the system calls failing as [script] says; the writer has not
    opened the file. *)
Definition stopping (items : list item) (script : list (option Exn)) : Machine :=
  mkMachine (Legacy.mkState true (Queue.mk 4096 items) [])
            (boot None script) true [].

Lemma writer_returns_only_stopped_witness :
  Legacy.main_loop_test
    (shared (fst (writer_pass "out.bin" "" (mkVars 0 false None)
                              (stopping [Some [Byte.x01]] [Some (IOError "denied")]))))
  = false.
Proof.
  apply writer_returns_only_stopped. vm_compute. reflexivity.
Defined.

(** *** Shutdown *)

Section Shutdown.
Variable filename : string.
Variable output_dir : string.

Definition waiting (s : Machine) : nat :=
  List.length (Queue.items (Legacy.data_queue (shared s))).

Lemma except_clauses_stopped e l s :
  Legacy.g_stop_event (shared s) = true ->
  Legacy.g_stop_event (shared (fst (except_clauses e l s))) = true /\
  snd (except_clauses e l s) = Returned.
Proof.
  intros Hev. unfold except_clauses. destruct (is_QueueEmpty e).
  - rewrite Hev. cbn [fst snd]. rewrite finally_block_shared. auto.
  - cbn [fst snd]. rewrite finally_block_shared. auto.
Qed.

Lemma open_output_shared s : shared (fst (open_output output_dir s)) = shared s.
Proof.
  unfold open_output, makedirs.
  destruct (negb (output_dir =? "")%string && negb (dir_exists s)).
  - destruct (next_fault (os s)) as [[e |] w]; [reflexivity |].
    cbn [os]. destruct (sys_open WB w) as [w' r]. reflexivity.
  - destruct (sys_open WB (os s)) as [w' r]. reflexivity.
Qed.

Lemma except_clauses_stderr e l s :
  Legacy.stderr (shared (fst (except_clauses e l s))) = Legacy.stderr (shared s).
Proof.
  unfold except_clauses. destruct (is_QueueEmpty e).
  - destruct (Legacy.g_stop_event (shared s)); cbn [fst];
      rewrite ?finally_block_shared; reflexivity.
  - cbn [fst]. rewrite finally_block_shared. reflexivity.
Qed.

(** The writer prints nothing among the lines of the callbacks. *)
Lemma writer_pass_stderr l s :
  Legacy.stderr (shared (fst (writer_pass filename output_dir l s)))
  = Legacy.stderr (shared s).
Proof.
  unfold writer_pass. destruct (Legacy.writer_loop_test (shared s)).
  2:{ cbn [fst]. rewrite finally_block_shared. reflexivity. }
  destruct (Queue.get (Legacy.data_queue (shared s))) as [[[data |] q] |];
    [| reflexivity | apply except_clauses_stderr].
  assert (Hq : Legacy.stderr (shared (set_queue q s)) = Legacy.stderr (shared s))
    by reflexivity.
  remember (set_queue q s) as s1 eqn:Hs1. clear Hs1.
  destruct (Writer.truthy data); [| exact Hq].
  destruct (file_opened l).
  - destruct (f l) as [h |]; [| exact Hq].
    destruct (sys_write h data (os s1)) as [w [e |]]; [| exact Hq].
    rewrite except_clauses_stderr. exact Hq.
  - pose proof (open_output_shared s1) as Hsh.
    destruct (open_output output_dir s1) as [s2 [e | h]]; cbn [fst] in Hsh.
    + cbn [fst]. rewrite finally_block_shared. cbn [set_stop_event set_shared
        print_line shared Legacy.stderr]. rewrite Hsh. exact Hq.
    + cbn [f]. destruct (sys_write h data (os s2)) as [w [e |]].
      * rewrite except_clauses_stderr. cbn [set_os shared]. rewrite Hsh. exact Hq.
      * cbn [fst set_os shared]. rewrite Hsh. exact Hq.
Qed.

(** Once the event is set, a pass takes an entry from the queue or is
    the last one. *)
Lemma pass_progress l s :
  Legacy.g_stop_event (shared s) = true ->
  Legacy.g_stop_event (shared (fst (writer_pass filename output_dir l s))) = true /\
  (snd (writer_pass filename output_dir l s) = Returned \/
   S (waiting (fst (writer_pass filename output_dir l s))) = waiting s).
Proof.
  intros Hev. unfold writer_pass, waiting.
  destruct (Legacy.writer_loop_test (shared s)).
  - unfold Queue.get.
    destruct (Queue.items (Legacy.data_queue (shared s))) as [| x rest].
    + destruct (@except_clauses_stopped QueueEmpty l s Hev). auto.
    + assert (Hq : Legacy.g_stop_event
                     (shared (set_queue
                        (Queue.mk (Queue.maxsize (Legacy.data_queue (shared s))) rest)
                        s)) = true) by exact Hev.
      remember (set_queue
                  (Queue.mk (Queue.maxsize (Legacy.data_queue (shared s))) rest) s)
        as s1 eqn:Hs1.
      assert (Hrest : Queue.items (Legacy.data_queue (shared s1)) = rest)
        by (subst s1; reflexivity).
      clear Hs1.
      destruct x as [data |]; [| cbn [fst snd]; rewrite Hrest; auto].
      destruct (Writer.truthy data); [| cbn [fst snd]; rewrite Hrest; auto].
      destruct (file_opened l).
      * destruct (f l) as [h |]; [| cbn [fst snd]; rewrite Hrest; auto].
        destruct (sys_write h data (os s1)) as [w [e |]].
        -- destruct (@except_clauses_stopped e l (set_os w s1) Hq). auto.
        -- cbn [fst snd set_os shared]. rewrite Hrest. auto.
      * pose proof (open_output_shared s1) as Hsh.
        destruct (open_output output_dir s1) as [s2 [e | h]]; cbn [fst] in Hsh.
        -- cbn [fst snd]. rewrite finally_block_shared. auto.
        -- cbn [f]. destruct (sys_write h data (os s2)) as [w [e |]].
           ++ assert (Hq2 : Legacy.g_stop_event (shared (set_os w s2)) = true)
                by (cbn [set_os shared]; rewrite Hsh; exact Hq).
              destruct (@except_clauses_stopped e
                          (mkVars (written_bytes_total l) true (Some h))
                          (set_os w s2) Hq2).
              auto.
           ++ cbn [fst snd set_os shared]. rewrite Hsh, Hrest. auto.
  - cbn [fst snd]. rewrite finally_block_shared. auto.
Qed.

Lemma steps_S n t s :
  steps filename output_dir (S n) t s
  = let (s', t') := resume filename output_dir t s in steps filename output_dir n t' s'.
Proof. reflexivity. Qed.

Lemma steps_returned n s : steps filename output_dir n Returned s = (s, Returned).
Proof. induction n as [| n IH]; [reflexivity | exact IH]. Qed.

(** X10. [writer_thread.join()] returns: once the stop event is set and the
    callbacks have stopped, the writer returns after at most one pass
    for each entry of the queue and one more, whatever system calls
    fail. *)
Theorem join_returns :
  forall n l s,
    Legacy.g_stop_event (shared s) = true ->
    (waiting s <= n)%nat ->
    snd (steps filename output_dir (S n) (Running l) s) = Returned.
Proof.
  induction n as [| n IH]; intros l s Hev Hn.
  - cbn [steps resume].
    destruct (@pass_progress l s Hev) as [_ [Hr | Hq]].
    + destruct (writer_pass filename output_dir l s) as [s' t']. exact Hr.
    + lia.
  - rewrite steps_S. cbn [resume].
    destruct (@pass_progress l s Hev) as [Hev' [Hr | Hq]];
      destruct (writer_pass filename output_dir l s) as [s' t']; cbn [fst snd] in *.
    + subst t'. rewrite steps_returned. reflexivity.
    + destruct t' as [l' |].
      * apply (IH l' s' Hev'). lia.
      * rewrite steps_returned. reflexivity.
Qed.
End Shutdown.

Lemma join_returns_witness :
  snd (steps "out.bin" "" 3 (Running (mkVars 0 false None))
             (stopping [Some [Byte.x01]; Some [Byte.x02]]
                       [None; None; Some (IOError "disk full")]))
  = Returned.
Proof.
  apply (@join_returns "out.bin" "" 2); [reflexivity | vm_compute; lia].
Defined.

(** *** Draining the queue *)

(** The chunks the writer writes when it takes these entries. *)
Fixpoint real (items : list item) : list bytes :=
  match items with
  | [] => []
  | Some data :: rest => if Writer.truthy data then data :: real rest else real rest
  | None :: rest => real rest
  end.

(** [f] is the open file exactly when [file_opened] is set. *)
Definition consistent (l : Vars) (s : Machine) : Prop :=
  match f l with
  | Some h => file_opened l = true /\ is_open h (os s) = true
  | None => file_opened l = false
  end.

(** The file after the chunks [data] were written by a writer that had
    ([opened]) or had not opened it before. *)
Definition appended (opened : bool) (file : bytes) (data : list bytes) : bytes :=
  match data with
  | [] => file
  | _ => (if opened then file else []) ++ List.concat data
  end.

Section Drain.
Variable filename : string.
Variable output_dir : string.

Lemma pass_drain l s x rest :
  faults (os s) = [] ->
  consistent l s ->
  Queue.items (Legacy.data_queue (shared s)) = x :: rest ->
  exists l' s',
    writer_pass filename output_dir l s = (s', Running l') /\
    faults (os s') = [] /\ consistent l' s' /\
    Queue.items (Legacy.data_queue (shared s')) = rest /\
    Legacy.g_stop_event (shared s') = Legacy.g_stop_event (shared s) /\
    written (trace (os s')) = written (trace (os s)) ++ real [x] /\
    file_opened l' = file_opened l || negb (match real [x] with [] => true | _ => false end) /\
    file_bytes (os s') = appended (file_opened l) (file_bytes (os s)) (real [x]).
Proof.
  intros Hf Hc Hq.
  destruct s as [[ev [m items] err] [q st d hs fs tr] de ln].
  destruct l as [total opened fh].
  cbn [os shared faults Legacy.data_queue Queue.items] in Hf, Hq. subst fs items.
  unfold consistent, is_open in Hc. cbn [f file_opened os handles] in Hc.
  unfold writer_pass, Legacy.writer_loop_test, Queue.get, Queue.empty.
  cbn [shared Legacy.data_queue Legacy.g_stop_event Queue.items negb].
  rewrite orb_true_r.
  destruct x as [data |]; cbn [real].
  2:{ eexists _, _. split; [reflexivity |]. cbn. rewrite app_nil_r, orb_false_r.
      repeat split; auto. }
  destruct (Writer.truthy data) eqn:Ht.
  2:{ eexists _, _. split; [reflexivity |]. cbn. rewrite app_nil_r, orb_false_r.
      repeat split; auto. }
  destruct fh as [h |].
  - destruct Hc as [-> Hopen]. cbn [file_opened f].
    unfold sys_write, is_open, next_fault, set_queue, set_shared.
    cbn [os handles faults shared]. rewrite Hopen.
    eexists _, _. split; [reflexivity |].
    cbn [os faults set_os emit set_disk shared Legacy.data_queue Queue.items
         Legacy.g_stop_event trace file_opened f handles].
    unfold consistent, is_open, file_bytes.
    cbn [f file_opened os handles disk]. rewrite written_app. cbn.
    rewrite app_nil_r. repeat split; auto.
  - subst opened. cbn [file_opened].
    unfold open_output, makedirs, sys_open, next_fault, set_queue, set_shared.
    cbn [os faults dir_exists shared].
    destruct (negb (output_dir =? "")%string && negb de);
      cbn [os faults set_os emit set_disk set_handles handles f];
      unfold sys_write, is_open, next_fault;
      cbn [os faults set_os emit set_disk set_handles handles];
      rewrite nth_middle;
      (eexists _, _; split; [reflexivity |]);
      cbn [os faults set_os emit set_disk shared Legacy.data_queue Queue.items
           Legacy.g_stop_event trace file_opened f handles];
      unfold consistent, is_open, file_bytes;
      cbn [f file_opened os handles disk]; rewrite ?nth_middle, !written_app; cbn;
      rewrite !app_nil_r; repeat split; auto; apply nth_middle.
Qed.

Lemma real_app a b : real (a ++ b) = real a ++ real b.
Proof.
  induction a as [| [d |] a IH]; cbn; [reflexivity | | exact IH].
  destruct (Writer.truthy d); [cbn; f_equal |]; exact IH.
Qed.

Lemma appended_step opened file x data :
  appended (opened || negb (match real [x] with [] => true | _ => false end))
           (appended opened file (real [x])) data
  = appended opened file (real [x] ++ data).
Proof.
  destruct x as [d |]; cbn [real]; [destruct (Writer.truthy d) |];
    cbn [app negb]; rewrite ?orb_false_r, ?orb_true_r; try reflexivity.
  unfold appended. destruct data as [| d' data].
  - cbn. rewrite !app_nil_r. reflexivity.
  - cbn [List.concat app]. rewrite !app_nil_r, <- !app_assoc. reflexivity.
Qed.

Lemma steps_drain items : forall l s,
  faults (os s) = [] ->
  consistent l s ->
  Legacy.g_stop_event (shared s) = true ->
  Queue.items (Legacy.data_queue (shared s)) = items ->
  let s' := fst (steps filename output_dir (S (List.length items)) (Running l) s) in
  snd (steps filename output_dir (S (List.length items)) (Running l) s) = Returned /\
  Queue.items (Legacy.data_queue (shared s')) = [] /\
  written (trace (os s')) = written (trace (os s)) ++ real items /\
  file_bytes (os s') = appended (file_opened l) (file_bytes (os s)) (real items).
Proof.
  induction items as [| x rest IH]; intros l s Hf Hc Hev Hq; cbv zeta.
  - cbn [List.length steps resume]. unfold writer_pass, Legacy.writer_loop_test,
      Queue.empty. rewrite Hev, Hq. cbn [negb orb fst snd].
    rewrite finally_block_shared, Hq. cbn [real appended]. rewrite app_nil_r.
    unfold finally_block. destruct (f l) as [h |]; [| auto].
    cbn [set_os os].
    pose proof (LedgerFacts.sys_close_view h (os s)) as Hv.
    unfold LedgerFacts.view in Hv. injection Hv as H1 H2 _. auto.
  - cbn [List.length]. rewrite steps_S. cbn [resume].
    destruct (@pass_drain l s x rest Hf Hc Hq)
      as (l' & s' & -> & Hf' & Hc' & Hq' & Hev' & Hw & Ho & Hfile).
    rewrite Hev in Hev'.
    destruct (IH l' s' Hf' Hc' Hev' Hq') as (Hr & Hempty & Hw' & Hfile').
    cbv zeta in *. split; [exact Hr | split; [exact Hempty |]].
    split.
    + rewrite Hw', Hw, <- app_assoc. f_equal.
      change (x :: rest) with ([x] ++ rest). rewrite real_app. reflexivity.
    + rewrite Hfile', Ho, Hfile, appended_step.
      change (x :: rest) with ([x] ++ rest). rewrite real_app. reflexivity.
Qed.

(** X11. Without failing system calls, a writer that finds the stop event
    set still takes every entry of the queue and writes the chunks in
    the order of the queue, then returns with the queue empty: the file
    it had opened grows by these chunks; a file it had not opened yet
    is created with these chunks, or left alone if there is none. *)
Theorem shutdown_drains_queue :
  forall l s,
    faults (os s) = [] ->
    consistent l s ->
    Legacy.g_stop_event (shared s) = true ->
    let items := Queue.items (Legacy.data_queue (shared s)) in
    let s' := fst (steps filename output_dir (S (List.length items)) (Running l) s) in
    snd (steps filename output_dir (S (List.length items)) (Running l) s) = Returned /\
    Queue.items (Legacy.data_queue (shared s')) = [] /\
    written (trace (os s')) = written (trace (os s)) ++ real items /\
    file_bytes (os s')
    = match real items with
      | [] => file_bytes (os s)
      | _ => (if file_opened l then file_bytes (os s) else [])
             ++ List.concat (real items)
      end.
Proof.
  intros l s Hf Hc Hev items s'.
  destruct (@steps_drain items l s Hf Hc Hev eq_refl) as (H1 & H2 & H3 & H4).
  cbv zeta in *. fold s' in H2, H3, H4. auto.
Qed.

End Drain.

Definition last_chunks : Machine :=
  stopping [Some [Byte.x01]; stop_writer_signal; Some [Byte.x02; Byte.x03]] [].

Lemma shutdown_drains_queue_witness :
  snd (steps "logs/out.bin" "logs" 4 (Running (mkVars 0 false None)) last_chunks)
  = Returned /\
  Queue.items
    (Legacy.data_queue
       (shared (fst (steps "logs/out.bin" "logs" 4 (Running (mkVars 0 false None))
                           last_chunks)))) = [] /\
  written
    (trace (os (fst (steps "logs/out.bin" "logs" 4 (Running (mkVars 0 false None))
                           last_chunks))))
  = [[Byte.x01]; [Byte.x02; Byte.x03]] /\
  file_bytes
    (os (fst (steps "logs/out.bin" "logs" 4 (Running (mkVars 0 false None))
                    last_chunks)))
  = [Byte.x01; Byte.x02; Byte.x03].
Proof.
  apply (@shutdown_drains_queue "logs/out.bin" "logs" (mkVars 0 false None)
           last_chunks); reflexivity.
Defined.

(** *** Before the first chunk *)

(** The actions that put nothing into the queue. *)
Definition silent (a : Turn) : bool :=
  match a with
  | Data (Some _) length => negb (0 <? length)
  | _ => true
  end.

Section Idle.
Variable filename : string.
Variable output_dir : string.
Variable existing_file : option bytes.
Variable script : list (option Exn).
Variable dir_existed : bool.

Definition idle (p : Process) : Prop :=
  os (state p) = boot existing_file script /\
  dir_exists (state p) = dir_existed /\
  lines (state p) = [] /\
  Queue.items (Legacy.data_queue (shared (state p))) = [] /\
  match writer p with Running l => f l = None | Returned => True end.

Lemma turn_idle a p :
  silent a = true -> idle p -> idle (turn filename output_dir p a).
Proof.
  intros Ha (Hos & Hdir & Hlines & Hq & Ht).
  destruct p as [[[ev [m items] err] w de ln] t].
  cbn [state os dir_exists lines shared Legacy.data_queue Queue.items
       writer] in *. subst w de ln items.
  destruct a as [[memory |] length | code msg raised handler_raised | |];
    cbn [silent] in Ha.
  - unfold turn, py_data_callback. cbn [state shared writer].
    apply negb_true_iff in Ha. rewrite Ha. repeat split; auto.
  - repeat split; auto.
  - destruct raised, handler_raised; repeat split; auto.
  - repeat split; auto.
  - destruct t as [l |]; [| repeat split; auto].
    unfold turn. cbn [writer state resume].
    unfold writer_pass, Legacy.writer_loop_test, Queue.empty, Queue.get,
      except_clauses, finally_block.
    cbn [shared Legacy.data_queue Legacy.g_stop_event Queue.items negb is_QueueEmpty].
    rewrite Ht. destruct ev; cbn; repeat split; auto.
Qed.

(** X12. Until the first chunk arrives the writer leaves the file system
    alone: it makes no directory and opens no file, so the output file
    is neither created nor truncated; and it writes no line to stderr.
    This holds whatever the other threads do, also when the program is
    stopped before any data came and the writer returns. (The two
    lines the writer prints to stdout, when it starts and when it
    returns, are not part of the embedding.) *)
Theorem no_data_no_file :
  forall schedule,
    forallb silent schedule = true ->
    let p := turns filename output_dir
                 (started existing_file script dir_existed) schedule in
    os (state p) = boot existing_file script /\
    dir_exists (state p) = dir_existed /\
    lines (state p) = [].
Proof.
  intros schedule Hs. cbv zeta.
  assert (H : idle (turns filename output_dir
                        (started existing_file script dir_existed) schedule)).
  { unfold turns.
    assert (H0 : idle (started existing_file script dir_existed))
      by (repeat split; reflexivity).
    revert H0. generalize (started existing_file script dir_existed).
    induction schedule as [| a rest IH]; intros p H0; [exact H0 |].
    cbn [forallb] in Hs. apply andb_prop in Hs as [Ha Hrest].
    cbn [fold_left]. apply (IH Hrest). apply turn_idle; assumption. }
  destruct H as (H1 & H2 & H3 & _). auto.
Qed.
End Idle.

(** The writer waits, the DLL reports an error, the writer returns. *)
Definition no_data : list Turn :=
  [WriterPass; Data None 0; Error 5 None None None; WriterPass; WriterPass].

Lemma no_data_no_file_witness :
  os (state (turns "logs/out.bin" "logs" (started (Some [Byte.x09]) [] false) no_data))
  = boot (Some [Byte.x09]) [] /\
  dir_exists (state (turns "logs/out.bin" "logs" (started (Some [Byte.x09]) [] false)
                         no_data)) = false /\
  lines (state (turns "logs/out.bin" "logs" (started (Some [Byte.x09]) [] false)
                    no_data)) = [].
Proof.
  apply (@no_data_no_file "logs/out.bin" "logs" (Some [Byte.x09]) [] false no_data).
  reflexivity.
Defined.

(** *** The file of the writer *)

Section File.
Variable filename : string.
Variable output_dir : string.

(** Creating the file: it is empty afterwards. *)
Lemma sys_open_create_view w :
  match snd (sys_open WB w) with
  | inl _ => LedgerFacts.view (fst (sys_open WB w)) = LedgerFacts.view w
  | inr _ => LedgerFacts.view (fst (sys_open WB w)) = ([], written (trace w), true)
  end.
Proof.
  unfold sys_open. pose proof (LedgerFacts.next_fault_view w) as Hn.
  unfold LedgerFacts.view in *.
  destruct (next_fault w) as [[e |] w']; cbn [fst snd] in *;
    injection Hn as H1 H2 H3; unfold file_bytes in *;
    cbn [disk trace emit set_handles set_disk];
    rewrite written_app, created_app, H2, H3; cbn;
    rewrite ?app_nil_r, ?orb_false_r, ?orb_true_r, ?H1; reflexivity.
Qed.

(** What holds of the file, wherever the writer is. *)
Definition filed (t : Place) (s : Machine) : Prop :=
  match t with
  | Running l =>
      written_bytes_total l = len (List.concat (written (trace (os s)))) /\
      if file_opened l
      then created (trace (os s)) = true /\
           file_bytes (os s) = List.concat (written (trace (os s)))
      else created (trace (os s)) = false /\ written (trace (os s)) = []
  | Returned =>
      created (trace (os s)) = true ->
      file_bytes (os s) = List.concat (written (trace (os s)))
  end.

Lemma filed_view t s s' :
  LedgerFacts.view (os s') = LedgerFacts.view (os s) -> filed t s -> filed t s'.
Proof.
  unfold LedgerFacts.view. intros Hv H. injection Hv as H1 H2 H3.
  destruct t as [l |]; unfold filed in *; rewrite H1, H2, H3; exact H.
Qed.

Lemma filed_returned l s : filed (Running l) s -> filed Returned s.
Proof.
  unfold filed. intros [_ H] Hc. destruct (file_opened l).
  - apply H.
  - destruct H as [H _]. congruence.
Qed.

Lemma finally_block_view l s :
  LedgerFacts.view (os (finally_block l s)) = LedgerFacts.view (os s).
Proof.
  unfold finally_block. destruct (f l) as [h |]; [| reflexivity].
  cbn [os set_os]. apply LedgerFacts.sys_close_view.
Qed.

Lemma except_clauses_filed e l s :
  filed (Running l) s ->
  filed (snd (except_clauses e l s)) (fst (except_clauses e l s)).
Proof.
  intros H. unfold except_clauses. destruct (is_QueueEmpty e).
  - destruct (Legacy.g_stop_event (shared s)); cbn [fst snd]; [| exact H].
    apply (@filed_view Returned s); [apply finally_block_view |].
    apply (filed_returned H).
  - cbn [fst snd].
    apply (@filed_view Returned s);
      [rewrite finally_block_view; reflexivity | apply (filed_returned H)].
Qed.

Lemma open_output_view s :
  match snd (open_output output_dir s) with
  | inl _ => LedgerFacts.view (os (fst (open_output output_dir s)))
             = LedgerFacts.view (os s)
  | inr _ => LedgerFacts.view (os (fst (open_output output_dir s)))
             = ([], written (trace (os s)), true)
  end.
Proof.
  unfold open_output, makedirs.
  destruct (negb (output_dir =? "")%string && negb (dir_exists s)).
  - pose proof (LedgerFacts.next_fault_view (os s)) as Hn.
    destruct (next_fault (os s)) as [[e |] w]; cbn [fst snd os set_os] in *;
      [exact Hn |].
    pose proof (sys_open_create_view w) as Ho.
    destruct (sys_open WB w) as [w' [e | h]]; cbn [fst snd os set_os] in *.
    + rewrite Ho. exact Hn.
    + rewrite Ho. unfold LedgerFacts.view in Hn. injection Hn as _ -> _.
      reflexivity.
  - pose proof (sys_open_create_view (os s)) as Ho.
    destruct (sys_open WB (os s)) as [w' [e | h]]; cbn [fst snd os set_os] in *;
      exact Ho.
Qed.

Lemma write_filed l h data s :
  filed (Running l) s -> file_opened l = true ->
  let (w, r) := sys_write h data (os s) in
  match r with
  | Some e => filed (Running l) (set_os w s)
  | None => filed (Running (mkVars (written_bytes_total l + len data)
                                   (file_opened l) (f l)))
                  (set_os w s)
  end.
Proof.
  intros [Htotal H] Hopened. rewrite Hopened in H. destruct H as [Hc Hfile].
  destruct (LedgerFacts.sys_write_view h data (os s)) as [[Hfail Hv] | [Hok Hv]];
    destruct (sys_write h data (os s)) as [w [e |]]; cbn [fst snd] in *;
    try congruence.
  - apply (@filed_view (Running l) s); [exact Hv |].
    unfold filed. rewrite Hopened. auto.
  - unfold LedgerFacts.view in Hv. injection Hv as H1 H2 H3.
    unfold filed. cbn [written_bytes_total file_opened os set_os].
    rewrite Hopened, H1, H2, H3, concat_app, len_app. cbn [List.concat].
    rewrite app_nil_r, Hfile, <- Htotal. auto.
Qed.

Lemma writer_pass_filed l s :
  filed (Running l) s ->
  filed (snd (writer_pass filename output_dir l s))
        (fst (writer_pass filename output_dir l s)).
Proof.
  intros H. unfold writer_pass.
  destruct (Legacy.writer_loop_test (shared s)).
  2:{ cbn [fst snd]. apply (@filed_view Returned s);
        [apply finally_block_view | apply (filed_returned H)]. }
  destruct (Queue.get (Legacy.data_queue (shared s))) as [[[data |] q] |];
    [| exact H | apply except_clauses_filed; exact H].
  assert (Hq : filed (Running l) (set_queue q s)) by exact H.
  remember (set_queue q s) as s1 eqn:Hs1. clear Hs1 H.
  destruct (Writer.truthy data); [| exact Hq].
  destruct (file_opened l) eqn:Hopened.
  - destruct (f l) as [h |]; [| exact Hq].
    pose proof (@write_filed l h data s1 Hq Hopened) as Hw.
    destruct (sys_write h data (os s1)) as [w [e |]].
    + apply except_clauses_filed. exact Hw.
    + exact Hw.
  - pose proof (open_output_view s1) as Ho.
    destruct (open_output output_dir s1) as [s2 [e | h]]; cbn [fst snd] in Ho.
    + cbn [fst snd]. apply (@filed_view Returned s1).
      * rewrite finally_block_view. exact Ho.
      * apply (filed_returned Hq).
    + cbn [f].
      assert (Hq2 : filed (Running (mkVars (written_bytes_total l) true (Some h))) s2).
      { destruct Hq as [Htotal Hq]. rewrite Hopened in Hq. destruct Hq as [_ Hw].
        unfold LedgerFacts.view in Ho. injection Ho as H1 H2 H3.
        unfold filed. cbn [written_bytes_total file_opened].
        rewrite H1, H2, H3, Hw in *. auto. }
      pose proof (@write_filed _ h data s2 Hq2 eq_refl) as Hw.
      destruct (sys_write h data (os s2)) as [w [e |]].
      * apply except_clauses_filed. exact Hw.
      * exact Hw.
Qed.

Lemma turn_filed a p :
  filed (writer p) (state p) ->
  filed (writer (turn filename output_dir p a))
        (state (turn filename output_dir p a)).
Proof.
  intros H. destruct p as [s t]. cbn [writer state] in H.
  destruct a as [buffer_ptr length | code msg raised | |]; cbn [turn writer state].
  - apply (@filed_view t s); [reflexivity | exact H].
  - apply (@filed_view t s); [reflexivity | exact H].
  - apply (@filed_view t s); [reflexivity | exact H].
  - destruct t as [l |]; cbn [resume]; [| exact H].
    pose proof (@writer_pass_filed l s H) as Hp.
    destruct (writer_pass filename output_dir l s) as [s' t']. exact Hp.
Qed.

(** X13. Whatever system calls fail and whatever the other threads do:
    while the writer runs, its counter [written_bytes_total] is the
    total length of the chunks whose [write] succeeded. (Nothing is
    said of what the file holds: the file object buffers, and the
    writer never flushes before it closes the file.) *)
Theorem legacy_counter_is_successful_writes :
  forall existing_file script dir_existed schedule l,
    let p := turns filename output_dir
                   (started existing_file script dir_existed) schedule in
    writer p = Running l ->
    written_bytes_total l = len (List.concat (written (trace (os (state p))))).
Proof.
  intros existing_file script dir_existed schedule l. cbv zeta.
  assert (H : filed (writer (turns filename output_dir
                               (started existing_file script dir_existed) schedule))
                    (state (turns filename output_dir
                              (started existing_file script dir_existed) schedule))).
  { unfold turns.
    assert (H0 : filed (writer (started existing_file script dir_existed))
                       (state (started existing_file script dir_existed)))
      by (cbn; auto).
    revert H0. generalize (started existing_file script dir_existed).
    induction schedule as [| a rest IH]; intros p H0; [exact H0 |].
    cbn [fold_left]. apply IH. apply turn_filed. exact H0. }
  intros Hl. rewrite Hl in H. apply H.
Qed.
End File.

(** Two chunks arrive and are written while the DLL reports an error. *)
Definition two_chunks_written : list Turn :=
  [Data (bytes_at [Byte.x01]) 1; Data (bytes_at [Byte.x02; Byte.x03]) 2;
   WriterPass; Error 3 None None None; WriterPass].

Lemma legacy_counter_is_successful_writes_witness :
  3 = len (List.concat
             (written (trace (os (state (turns "logs/out.bin" "logs"
                                               (started None [None; None; None] false)
                                               two_chunks_written)))))).
Proof.
  apply (@legacy_counter_is_successful_writes "logs/out.bin" "logs"
           None [None; None; None] false two_chunks_written
           (mkVars 3 true (Some 0%nat))).
  vm_compute. reflexivity.
Defined.


(** *** The handle of the writer *)

Section Handle.
Variable filename : string.
Variable output_dir : string.

Lemma sole_none_closed hs :
  HandleFacts.sole None hs -> filter (fun b : bool => b) hs = [].
Proof.
  intros H. induction hs as [| b hs IH]; [reflexivity |].
  destruct b.
  - specialize (H 0%nat eq_refl). discriminate H.
  - cbn. apply IH. intros i Hi. specialize (H (S i) Hi). discriminate H.
Qed.

(** What holds of the handles, wherever the writer is. *)
Definition held (t : Place) (s : Machine) : Prop :=
  match t with
  | Running l =>
      HandleFacts.sole (f l) (handles (os s)) /\
      (file_opened l = false -> f l = None)
  | Returned => HandleFacts.sole None (handles (os s))
  end.

Lemma finally_block_held l s :
  HandleFacts.sole (f l) (handles (os s)) -> held Returned (finally_block l s).
Proof.
  intros H. unfold held, finally_block. destruct (f l) as [h |]; [| exact H].
  cbn [os set_os]. apply HandleFacts.sys_close_releases. exact H.
Qed.

Lemma except_clauses_held e l s :
  held (Running l) s ->
  held (snd (except_clauses e l s)) (fst (except_clauses e l s)).
Proof.
  intros H. unfold except_clauses. destruct (is_QueueEmpty e).
  - destruct (Legacy.g_stop_event (shared s)); cbn [fst snd]; [| exact H].
    apply finally_block_held. apply H.
  - cbn [fst snd]. apply finally_block_held. apply H.
Qed.

Lemma open_output_handles s :
  HandleFacts.sole None (handles (os s)) ->
  match snd (open_output output_dir s) with
  | inl _ => HandleFacts.sole None (handles (os (fst (open_output output_dir s))))
  | inr h => HandleFacts.sole (Some h) (handles (os (fst (open_output output_dir s))))
  end.
Proof.
  intros H. unfold open_output, makedirs.
  destruct (negb (output_dir =? "")%string && negb (dir_exists s)).
  - pose proof (ReachableFacts.next_fault_handles (os s)) as Hn.
    destruct (next_fault (os s)) as [[e |] w]; cbn [fst snd os set_os] in *.
    + rewrite Hn. exact H.
    + rewrite <- Hn in H. pose proof (@HandleFacts.sys_open_sole WB w H) as Ho.
      destruct (sys_open WB w) as [w' [e | h]]; exact Ho.
  - pose proof (@HandleFacts.sys_open_sole WB (os s) H) as Ho.
    destruct (sys_open WB (os s)) as [w' [e | h]]; exact Ho.
Qed.

Lemma writer_pass_held l s :
  held (Running l) s ->
  held (snd (writer_pass filename output_dir l s))
       (fst (writer_pass filename output_dir l s)).
Proof.
  intros H. unfold writer_pass.
  destruct (Legacy.writer_loop_test (shared s)).
  2:{ cbn [fst snd]. apply finally_block_held. apply H. }
  destruct (Queue.get (Legacy.data_queue (shared s))) as [[[data |] q] |];
    [| exact H | apply except_clauses_held; exact H].
  assert (Hq : held (Running l) (set_queue q s)) by exact H.
  remember (set_queue q s) as s1 eqn:Hs1. clear Hs1 H.
  destruct (Writer.truthy data); [| exact Hq].
  destruct (file_opened l) eqn:Hopened.
  - destruct (f l) as [h |] eqn:Hf; [| exact Hq].
    pose proof (ReachableFacts.sys_write_handles h data (os s1)) as Hh.
    destruct (sys_write h data (os s1)) as [w [e |]]; cbn [fst] in Hh.
    + apply except_clauses_held. unfold held. cbn [os set_os].
      rewrite Hh, Hf, Hopened. destruct Hq as [Hq _]. rewrite Hf in Hq.
      split; [exact Hq | intros Hx; congruence].
    + cbn [fst snd]. unfold held. cbn [os set_os f file_opened].
      rewrite Hh. destruct Hq as [Hq _]. rewrite Hf in Hq.
      split; [exact Hq | intros Hx; congruence].
  - destruct Hq as [Hsole Hnone]. specialize (Hnone Hopened).
    rewrite Hnone in Hsole.
    pose proof (@open_output_handles s1 Hsole) as Ho.
    destruct (open_output output_dir s1) as [s2 [e | h]]; cbn [fst snd] in Ho.
    + cbn [fst snd]. apply finally_block_held. rewrite Hnone. exact Ho.
    + cbn [f].
      pose proof (ReachableFacts.sys_write_handles h data (os s2)) as Hh.
      destruct (sys_write h data (os s2)) as [w [e |]]; cbn [fst] in Hh.
      * apply except_clauses_held. unfold held. cbn [os set_os f file_opened].
        rewrite Hh. split; [exact Ho | intros Hx; congruence].
      * cbn [fst snd]. unfold held. cbn [os set_os f file_opened].
        rewrite Hh. split; [exact Ho | intros Hx; congruence].
Qed.

Lemma turn_held a p :
  held (writer p) (state p) ->
  held (writer (turn filename output_dir p a))
       (state (turn filename output_dir p a)).
Proof.
  intros H. destruct p as [s t]. cbn [writer state] in H.
  destruct a as [buffer_ptr length | code msg raised | |]; cbn [turn writer state];
    try (destruct t; exact H).
  destruct t as [l |]; cbn [resume]; [| exact H].
  pose proof (@writer_pass_held l s H) as Hp.
  destruct (writer_pass filename output_dir l s) as [s' t']. exact Hp.
Qed.

(** X14. Whatever system calls fail and whatever the other threads do: when
    the writer has returned, no file is open, also when the write or
    the close itself failed. *)
Theorem legacy_writer_leaves_no_file_open :
  forall existing_file script dir_existed schedule,
    let p := turns filename output_dir
                   (started existing_file script dir_existed) schedule in
    writer p = Returned ->
    open_files (os (state p)) = 0%nat.
Proof.
  intros existing_file script dir_existed schedule. cbv zeta.
  assert (H : held (writer (turns filename output_dir
                              (started existing_file script dir_existed) schedule))
                   (state (turns filename output_dir
                             (started existing_file script dir_existed) schedule))).
  { unfold turns.
    assert (H0 : held (writer (started existing_file script dir_existed))
                      (state (started existing_file script dir_existed))).
    { split; [intros [| i] Hi; discriminate Hi | reflexivity]. }
    revert H0. generalize (started existing_file script dir_existed).
    induction schedule as [| a rest IH]; intros p H0; [exact H0 |].
    cbn [fold_left]. apply IH. apply turn_held. exact H0. }
  intros Hr. rewrite Hr in H. unfold open_files.
  rewrite (sole_none_closed H). reflexivity.
Qed.
End Handle.

(** Two chunks arrive, the second write fails, the writer returns. *)
Definition failed_capture : list Turn :=
  [Data (bytes_at [Byte.x01]) 1; Data (bytes_at [Byte.x02]) 1;
   WriterPass; WriterPass; WriterPass].

Lemma legacy_writer_leaves_no_file_open_witness :
  open_files
    (os (state (turns "logs/out.bin" "logs"
                      (started None [None; None; None; Some (IOError "disk full")] false)
                      failed_capture)))
  = 0%nat.
Proof.
  apply (@legacy_writer_leaves_no_file_open "logs/out.bin" "logs" None
           [None; None; None; Some (IOError "disk full")] false failed_capture).
  vm_compute. reflexivity.
Defined.

(** *** From the callback to the file *)

(** The chunks a schedule hands to [py_data_callback]. *)
Definition handed_by (a : Turn) : list bytes :=
  match a with
  | Data (Some memory) length => if 0 <? length then [slice memory length] else []
  | _ => []
  end.
Definition handed (schedule : list Turn) : list bytes := flat_map handed_by schedule.

(** While data is captured: the callback and the writer take turns,
    the stop event stays clear. *)
Definition capturing (a : Turn) : bool :=
  match a with Data _ _ | WriterPass => true | _ => false end.

Section RoundTrip.
Variable filename : string.
Variable output_dir : string.

(** What holds while data is captured and no system call fails; [acc]
    are the chunks handed over so far. *)
Definition captured (acc : list bytes) (p : Process) : Prop :=
  faults (os (state p)) = [] /\
  Legacy.g_stop_event (shared (state p)) = false /\
  exists l,
    writer p = Running l /\
    consistent l (state p) /\
    (Legacy.stderr (shared (state p)) = [] ->
     written (trace (os (state p)))
       ++ real (Queue.items (Legacy.data_queue (shared (state p)))) = acc) /\
    (if file_opened l
     then file_bytes (os (state p)) = List.concat (written (trace (os (state p))))
     else written (trace (os (state p))) = []).

Lemma turn_captured acc a p :
  capturing a = true -> captured acc p ->
  captured (acc ++ handed_by a) (turn filename output_dir p a).
Proof.
  intros Ha (Hf & Hev & l & Hw & Hc & Hacc & Hfile).
  destruct p as [s t]. cbn [writer state] in *. subst t.
  destruct a as [buffer_ptr length | code msg raised | |]; try discriminate Ha.
  - (* the callback *)
    cbn [turn writer state handed_by]. unfold py_data_callback.
    destruct buffer_ptr as [memory |];
      [| rewrite app_nil_r; repeat split; auto; exists l; auto].
    destruct (0 <? length) eqn:Hlen;
      [| rewrite app_nil_r; repeat split; auto; exists l; auto].
    assert (Hpos : 0 < length) by (apply Z.ltb_lt; exact Hlen).
    destruct (Queue.put_nowait (Legacy.data_queue (shared s))
                               (Some (slice memory length))) as [q |] eqn:Hput.
    + unfold Queue.put_nowait in Hput.
      destruct (Queue.full (Legacy.data_queue (shared s))); [discriminate |].
      injection Hput as <-.
      repeat split; auto. exists l. repeat split; auto.
      cbn [state shared set_shared os Legacy.stderr Legacy.data_queue Queue.items].
      intros Herr. rewrite real_app. cbn [real].
      rewrite (truthy_slice memory Hpos), app_assoc, (Hacc Herr). reflexivity.
    + repeat split; auto. exists l. repeat split; auto.
      cbn [state shared set_shared Legacy.stderr]. intros Herr.
      destruct (Legacy.stderr (shared s)); discriminate Herr.
  - (* the writer *)
    cbn [turn writer state resume handed_by]. rewrite app_nil_r.
    destruct (Queue.items (Legacy.data_queue (shared s))) as [| x rest] eqn:Hq.
    + unfold writer_pass, Legacy.writer_loop_test, Queue.get, Queue.empty,
        except_clauses.
      rewrite Hev, Hq. cbn [negb orb is_QueueEmpty]. rewrite ?Hev.
      unfold captured. cbn [state writer]. repeat split; auto.
      exists l. repeat split; auto. rewrite Hq. exact Hacc.
    + pose proof (@writer_pass_stderr filename output_dir l s) as Hstderr.
      destruct (@pass_drain filename output_dir l s x rest Hf Hc Hq)
        as (l' & s' & Hpass & Hf' & Hc' & Hq' & Hev' & Hw' & Ho & Hfile').
      rewrite Hpass in *. cbn [fst] in Hstderr.
      unfold captured. cbn [writer state]. repeat split; [exact Hf' | congruence |].
      exists l'. repeat split; [exact Hc' | |].
      * intros Herr. rewrite Hw', Hq', <- app_assoc, <- real_app. cbn [app].
        apply Hacc. rewrite <- Herr. symmetry. exact Hstderr.
      * rewrite Ho, Hw', Hfile'.
        destruct (real [x]) as [| d ds] eqn:Hx.
        -- rewrite orb_false_r, app_nil_r. cbn [appended]. exact Hfile.
        -- rewrite orb_true_r. unfold appended.
           destruct (file_opened l).
           ++ rewrite Hfile, concat_app. reflexivity.
           ++ rewrite Hfile. reflexivity.
Qed.
Lemma turns_captured capture : forall acc p,
  forallb capturing capture = true -> captured acc p ->
  captured (acc ++ handed capture) (turns filename output_dir p capture).
Proof.
  induction capture as [| a rest IH]; intros acc p Hs H.
  - cbn. rewrite app_nil_r. exact H.
  - cbn [forallb] in Hs. apply andb_prop in Hs as [Ha Hrest].
    unfold handed. cbn [flat_map turns fold_left]. rewrite app_assoc.
    apply (IH _ _ Hrest). apply turn_captured; assumption.
Qed.

Lemma turns_passes n : forall s t,
  turns filename output_dir (mkProcess s t) (repeat WriterPass n)
  = let (s', t') := steps filename output_dir n t s in mkProcess s' t'.
Proof.
  induction n as [| n IH]; intros s t; [reflexivity |].
  cbn [repeat turns fold_left turn writer state]. rewrite steps_S.
  destruct (resume filename output_dir t s) as [s' t']. apply IH.
Qed.

(** X15. Without failing system calls and without a queue-full warning:
    when the capture is stopped and the writer is given its passes,
    the writer returns with the queue empty, it has written exactly the
    chunks the DLL handed to the callback, in the order they were
    handed over, and the file holds exactly these chunks. *)
Theorem legacy_round_trip :
  forall existing_file dir_existed capture,
    forallb capturing capture = true ->
    let p := turns filename output_dir
                   (started existing_file [] dir_existed) capture in
    Legacy.stderr (shared (state p)) = [] ->
    let p' := turns filename output_dir p
                    (MainStops :: repeat WriterPass (S (waiting (state p)))) in
    writer p' = Returned /\
    Queue.items (Legacy.data_queue (shared (state p'))) = [] /\
    written (trace (os (state p'))) = handed capture /\
    (handed capture <> [] ->
     file_bytes (os (state p')) = List.concat (handed capture)).
Proof.
  intros existing_file dir_existed capture Hs p Herr p'.
  assert (H0 : captured [] (started existing_file [] dir_existed)).
  { repeat split. exists (mkVars 0 false None). repeat split. }
  pose proof (@turns_captured capture [] _ Hs H0) as H. fold p in H.
  cbn [app] in H. destruct H as (Hf & Hev & l & Hw & Hc & Hacc & Hfile).
  specialize (Hacc Herr).
  subst p'. destruct p as [s t]. cbn [writer state] in *. subst t.
  change (turns filename output_dir (mkProcess s (Running l))
            (MainStops :: repeat WriterPass (S (waiting s))))
    with (turns filename output_dir (mkProcess (set_stop_event s) (Running l))
            (repeat WriterPass (S (waiting s)))).
  rewrite turns_passes.
  destruct (@steps_drain filename output_dir
              (Queue.items (Legacy.data_queue (shared s))) l (set_stop_event s)
              Hf Hc eq_refl eq_refl) as (Hr & Hempty & Hwritten & Hbytes).
  cbv zeta in *. unfold waiting.
  destruct (steps filename output_dir
              (S (List.length (Queue.items (Legacy.data_queue (shared s)))))
              (Running l) (set_stop_event s)) as [s' t'].
  cbn [fst snd writer state os set_stop_event set_shared] in *.
  split; [exact Hr | split; [exact Hempty |]].
  rewrite Hwritten, Hacc. split; [reflexivity |].
  intros Hne. rewrite Hbytes. unfold appended.
  destruct (real (Queue.items (Legacy.data_queue (shared s)))) as [| d ds] eqn:Hreal.
  - rewrite app_nil_r in Hacc. destruct (file_opened l).
    + rewrite Hfile, Hacc. reflexivity.
    + rewrite Hfile in Hacc. contradiction Hne. symmetry. exact Hacc.
  - destruct (file_opened l).
    + rewrite <- Hacc, concat_app, Hfile. reflexivity.
    + rewrite <- Hacc, Hfile. reflexivity.
Qed.
End RoundTrip.

(** The DLL hands over three bytes in two chunks while the writer
    passes; then the program is stopped. *)
Definition short_capture : list Turn :=
  [WriterPass; Data (bytes_at [Byte.x01; Byte.x02]) 2; WriterPass;
   Data (bytes_at [Byte.x03]) 1].

Lemma legacy_round_trip_witness :
  writer (turns "logs/out.bin" "logs"
            (turns "logs/out.bin" "logs" (started (Some [Byte.x09]) [] false)
                   short_capture)
            [MainStops; WriterPass; WriterPass]) = Returned /\
  Queue.items
    (Legacy.data_queue
       (shared (state (turns "logs/out.bin" "logs"
                         (turns "logs/out.bin" "logs"
                                (started (Some [Byte.x09]) [] false) short_capture)
                         [MainStops; WriterPass; WriterPass])))) = [] /\
  written
    (trace (os (state (turns "logs/out.bin" "logs"
                         (turns "logs/out.bin" "logs"
                                (started (Some [Byte.x09]) [] false) short_capture)
                         [MainStops; WriterPass; WriterPass]))))
  = handed short_capture /\
  (handed short_capture <> [] ->
   file_bytes
     (os (state (turns "logs/out.bin" "logs"
                   (turns "logs/out.bin" "logs"
                          (started (Some [Byte.x09]) [] false) short_capture)
                   [MainStops; WriterPass; WriterPass])))
   = List.concat (handed short_capture)).
Proof.
  apply (@legacy_round_trip "logs/out.bin" "logs" (Some [Byte.x09]) false
           short_capture); reflexivity.
Defined.


End LegacyWriterFacts.

(** ** The port configuration string of [bes_log_to_bin_script.py] *)

Module PortConfigFacts.
Import Ascii.
Import PortConfig.
Local Open Scope string_scope.

(** The number of occurrences of a character. *)
Fixpoint count (c : ascii) (s : string) : nat :=
  match s with
  | EmptyString => O
  | String c' s' => ((if Ascii.eqb c' c then 1 else 0) + count c s')%nat
  end.

Lemma split_nonempty sep n s : split sep n s <> [].
Proof.
  revert n. induction s as [| c s IH]; intros [| n]; cbn; try discriminate.
  destruct (Ascii.eqb c sep); [discriminate |].
  destruct (split sep (S n) s) eqn:E; discriminate.
Qed.

(** Splitting at the first separator. *)
Lemma split_first sep n a b :
  count sep a = O ->
  split sep (S n) (a ++ String sep b) = a :: split sep n b.
Proof.
  induction a as [| c a IH]; intros Hc.
  - cbn. rewrite Ascii.eqb_refl. reflexivity.
  - cbn in Hc. cbn [append split].
    destruct (Ascii.eqb c sep); [discriminate |].
    fold (split sep (S n) (a ++ String sep b)).
    rewrite IH by exact Hc. reflexivity.
Qed.

(** [split] gives one part more than it found separators, and at most
    [maxsplit] separators are used. *)
Lemma split_length sep n s :
  List.length (split sep n s) = S (Nat.min n (count sep s)).
Proof.
  revert n. induction s as [| c s IH]; intros [| n]; try reflexivity.
  cbn [split count]. destruct (Ascii.eqb c sep).
  - cbn [List.length]. rewrite IH. reflexivity.
  - specialize (IH (S n)).
    destruct (split sep (S n) s) as [| part parts] eqn:E.
    + exfalso. revert E. apply split_nonempty.
    + cbn [List.length] in *. exact IH.
Qed.

Section Parsing.
Variable int : string -> option Z.

(** X16. A configuration string made of a port name and a baud rate without
    colons and of a file name is taken apart into these three: the file
    name may contain colons, such as the one after a drive letter. *)
Theorem port_config_round_trip :
  forall win32 serial_port baud_text output_filename baud_rate,
    count ":" serial_port = O ->
    count ":" baud_text = O ->
    serial_port <> "" ->
    output_filename <> "" ->
    int baud_text = Some baud_rate ->
    (0 < baud_rate)%Z ->
    parse_port_config int win32
      (serial_port ++ ":" ++ baud_text ++ ":" ++ output_filename)
    = inr (if win32 then add_device_prefix int serial_port else serial_port,
           baud_rate, output_filename).
Proof.
  intros win32 serial_port baud_text output_filename baud_rate
         Hport Hbaud Hp Hf Hint Hpos.
  unfold parse_port_config.
  change (serial_port ++ ":" ++ baud_text ++ ":" ++ output_filename)
    with (serial_port ++ String ":" (baud_text ++ String ":" output_filename)).
  rewrite (@split_first ":" 1 _ _ Hport), (@split_first ":" 0 _ _ Hbaud).
  cbn [split]. rewrite Hint.
  destruct serial_port; [contradiction Hp; reflexivity |].
  destruct output_filename; [contradiction Hf; reflexivity |].
  cbn [is_empty]. destruct (baud_rate <=? 0)%Z eqn:Hle; [| reflexivity].
  apply Z.leb_le in Hle. lia.
Qed.

(** X17. The configuration string is refused as badly formed exactly when it
    has fewer than two colons. *)
Theorem bad_format_iff_fewer_than_two_colons :
  forall win32 port_config,
    parse_port_config int win32 port_config = inl BadFormat
    <-> (count ":" port_config < 2)%nat.
Proof.
  intros win32 port_config. unfold parse_port_config.
  pose proof (@split_length ":" 2 port_config) as Hlen.
  destruct (split ":" 2 port_config) as [| a [| b [| c [| d parts]]]];
    cbn [List.length] in Hlen.
  - discriminate Hlen.
  - split; [intros _; lia | reflexivity].
  - split; [intros _; lia | reflexivity].
  - split; [| lia]. intros H. exfalso.
    destruct (int b); [| discriminate H].
    destruct (is_empty a); [discriminate H |].
    destruct (_ <=? 0)%Z; [discriminate H |].
    destruct (is_empty c); discriminate H.
  - lia.
Qed.

(** A name that reads COM... does not start with the device prefix. *)
Lemma com_port_has_no_prefix serial_port :
  prefix "COM" (upper serial_port) = true ->
  prefix device_prefix serial_port = false.
Proof.
  destruct serial_port as [| c rest]; [discriminate |].
  cbn [upper prefix]. unfold device_prefix.
  destruct (ascii_dec "C" (upper_char c)) as [Hc |]; [| discriminate].
  intros _. cbn [prefix].
  destruct (ascii_dec backslash c) as [<- |]; [| reflexivity].
  exfalso. revert Hc. vm_compute. discriminate.
Qed.

(** X18. On Windows: a port named COM and a number from 10 on, in letters of
    either case, always gets the device prefix (the test for a prefix
    that is already there never fails in that branch), and a port name
    given with the prefix is left alone. *)
Theorem device_prefix_added_once :
  forall serial_port,
    (forall com_num,
       prefix "COM" (upper serial_port) = true ->
       int (drop 3 serial_port) = Some com_num ->
       add_device_prefix int serial_port
       = if (10 <=? com_num)%Z then device_prefix ++ serial_port else serial_port) /\
    (prefix device_prefix serial_port = true ->
     add_device_prefix int serial_port = serial_port).
Proof.
  intros serial_port. split.
  - intros com_num Hcom Hint. unfold add_device_prefix.
    rewrite Hcom, Hint, (@com_port_has_no_prefix _ Hcom), andb_true_r. reflexivity.
  - intros Hprefix. unfold add_device_prefix.
    destruct (prefix "COM" (upper serial_port)) eqn:Hcom; [| reflexivity].
    rewrite (@com_port_has_no_prefix _ Hcom) in Hprefix. discriminate.
Qed.
End Parsing.

(** [int] on a string of decimal digits. *)
Definition digit (c : ascii) : option Z :=
  let n := nat_of_ascii c in
  if (48 <=? n)%nat && (n <=? 57)%nat then Some (Z.of_nat (n - 48)) else None.
Fixpoint decimal_from (acc : Z) (s : string) : option Z :=
  match s with
  | EmptyString => Some acc
  | String c s' =>
      match digit c with
      | Some d => decimal_from (10 * acc + d)%Z s'
      | None => None
      end
  end.
Definition decimal (s : string) : option Z :=
  match s with EmptyString => None | _ => decimal_from 0 s end.

Lemma port_config_round_trip_witness :
  parse_port_config decimal true "com12:115200:D:/logs/data.bin"
  = inr (add_device_prefix decimal "com12", 115200%Z, "D:/logs/data.bin").
Proof.
  apply (@port_config_round_trip decimal true "com12" "115200" "D:/logs/data.bin");
    first [reflexivity | discriminate].
Defined.

End PortConfigFacts.

(** ** The time stamps of [log2bin_copy.py] *)

Module StampingFacts.
Import Ascii.
Import Stamping.
Local Open Scope string_scope.

(** The text the writes of a chunk stand for, stamps removed. *)
Definition unstamped (writes : list Stamped) : string :=
  String.concat "" (map body writes).

Lemma split_all_nonempty sep s : split_all sep s <> [].
Proof.
  induction s as [| c s IH]; cbn; [discriminate |].
  destruct (Ascii.eqb c sep); [discriminate |].
  destruct (split_all sep s); discriminate.
Qed.

Section Chunk.
Variable strftime : nat -> string.

Lemma unstamped_cons w ws : unstamped (w :: ws) = body w ++ unstamped ws.
Proof.
  unfold unstamped. cbn [map String.concat].
  destruct (map body ws) eqn:E; [| reflexivity].
  cbn. clear. induction (body w); cbn; congruence.
Qed.

(** The lines of a text whose first line is extended by a character
    that is not a newline. *)
Lemma stamp_lines_extend c part parts i :
  unstamped (stamp_lines strftime i (String c part :: parts))
  = String c (unstamped (stamp_lines strftime i (part :: parts))).
Proof.
  destruct parts as [| p ps].
  - cbn [stamp_lines]. destruct part; reflexivity.
  - change (stamp_lines strftime i (String c part :: p :: ps))
      with (mkStamped (strftime i) (String c part) true
            :: stamp_lines strftime (S i) (p :: ps)).
    change (stamp_lines strftime i (part :: p :: ps))
      with (mkStamped (strftime i) part true
            :: stamp_lines strftime (S i) (p :: ps)).
    rewrite !unstamped_cons. reflexivity.
Qed.

Lemma unstamped_lines s : forall i,
  unstamped (stamp_lines strftime i (split_all newline s)) = s.
Proof.
  induction s as [| c s IH]; intros i; [reflexivity |].
  cbn [split_all]. destruct (Ascii.eqb c newline) eqn:Hc.
  - apply Ascii.eqb_eq in Hc. subst c.
    specialize (IH (S i)).
    destruct (split_all newline s) as [| p ps] eqn:E;
      [exfalso; revert E; apply split_all_nonempty |].
    change (stamp_lines strftime i ("" :: p :: ps))
      with (mkStamped (strftime i) "" true :: stamp_lines strftime (S i) (p :: ps)).
    rewrite unstamped_cons, IH. reflexivity.
  - specialize (IH i).
    destruct (split_all newline s) as [| p ps] eqn:E;
      [exfalso; revert E; apply split_all_nonempty |].
    rewrite stamp_lines_extend, IH. reflexivity.
Qed.

(** X19. Stamping loses no text and adds none but the stamps: the parts
    written for a chunk, with their stamps removed, are the decoded
    chunk, whether or not it ends with a newline. *)
Theorem stamps_removed_give_text :
  forall text_data, unstamped (stamped_writes strftime text_data) = text_data.
Proof. intros text_data. apply unstamped_lines. Qed.

(** *** Chunks that end inside a line *)

(** The text is not empty and does not end with a newline. *)
Fixpoint open_ended (s : string) : bool :=
  match s with
  | EmptyString => false
  | String c EmptyString => negb (Ascii.eqb c newline)
  | String _ s' => open_ended s'
  end.

Fixpoint newlines (s : string) : nat :=
  match s with
  | EmptyString => O
  | String c s' => ((if Ascii.eqb c newline then 1 else 0) + newlines s')%nat
  end.

Definition is_blank (s : string) : bool :=
  match s with EmptyString => true | _ => false end.

Lemma stamp_lines_length lines : forall i,
  lines <> [] ->
  List.length (stamp_lines strftime i lines)
  = (List.length lines - 1 + (if is_blank (last lines "") then 0 else 1))%nat.
Proof.
  induction lines as [| l rest IH]; intros i Hne; [contradiction Hne; reflexivity |].
  destruct rest as [| l' rest'].
  - cbn. destruct l; reflexivity.
  - change (stamp_lines strftime i (l :: l' :: rest'))
      with (mkStamped (strftime i) l true :: stamp_lines strftime (S i) (l' :: rest')).
    cbn [List.length]. rewrite (IH (S i)) by discriminate.
    cbn [List.length last]. lia.
Qed.

Lemma split_all_length s : List.length (split_all newline s) = S (newlines s).
Proof.
  induction s as [| c s IH]; [reflexivity |].
  cbn [split_all newlines]. destruct (Ascii.eqb c newline).
  - cbn [List.length]. rewrite IH. reflexivity.
  - destruct (split_all newline s) as [| p ps]; cbn [List.length] in *; [lia | exact IH].
Qed.

Lemma split_all_single_empty s : split_all newline s = [""] -> s = "".
Proof.
  destruct s as [| c s]; [reflexivity |]. cbn [split_all].
  destruct (Ascii.eqb c newline).
  - intros H. injection H as H. exfalso. revert H. apply split_all_nonempty.
  - destruct (split_all newline s); discriminate.
Qed.

Lemma split_all_last s :
  is_blank (last (split_all newline s) "") = negb (open_ended s).
Proof.
  induction s as [| c s IH]; [reflexivity |].
  cbn [split_all]. destruct (Ascii.eqb c newline) eqn:Hc.
  - destruct (split_all newline s) as [| p ps] eqn:E;
      [exfalso; revert E; apply split_all_nonempty |].
    change (last ("" :: p :: ps) "") with (last (p :: ps) "").
    rewrite IH. destruct s; [cbn [open_ended]; rewrite Hc; reflexivity | reflexivity].
  - destruct (split_all newline s) as [| p ps] eqn:E;
      [exfalso; revert E; apply split_all_nonempty |].
    destruct ps as [| p' ps'].
    + cbn [last is_blank].
      destruct s as [| c' s']; [cbn [open_ended]; rewrite Hc; reflexivity |].
      change (open_ended (String c (String c' s'))) with (open_ended (String c' s')).
      cbn [last] in IH. destruct p as [| x p].
      * apply split_all_single_empty in E. discriminate E.
      * cbn [is_blank] in IH. exact IH.
    + change (last (String c p :: p' :: ps') "") with (last (p :: p' :: ps') "").
      rewrite IH. destruct s; [discriminate E | reflexivity].
Qed.

(** One stamp for each newline, and one more for an unfinished last
    line. *)
Lemma stamps_count text_data :
  List.length (stamped_writes strftime text_data)
  = (newlines text_data + (if open_ended text_data then 1 else 0))%nat.
Proof.
  unfold stamped_writes.
  rewrite stamp_lines_length by apply split_all_nonempty.
  rewrite split_all_length, split_all_last.
  destruct (open_ended text_data); cbn [negb]; lia.
Qed.

Lemma newlines_app a b : newlines (a ++ b) = (newlines a + newlines b)%nat.
Proof. induction a as [| c a IH]; [reflexivity |]. cbn. rewrite IH. lia. Qed.

Lemma open_ended_app a b : b <> "" -> open_ended (a ++ b) = open_ended b.
Proof.
  intros Hb. induction a as [| c a IH]; [reflexivity |].
  cbn [append]. destruct (a ++ b) eqn:E.
  - destruct a; [cbn in E; contradiction | discriminate E].
  - exact IH.
Qed.

(** X20. A line that arrives in two chunks is stamped twice: writing a text
    as two chunks takes the stamps of writing it as one chunk, and one
    more exactly when the first chunk ends inside a line. *)
Theorem line_split_over_chunks_stamped_twice :
  forall first second,
    second <> "" ->
    (List.length (stamped_writes strftime first)
     + List.length (stamped_writes strftime second)
     = List.length (stamped_writes strftime (first ++ second))
       + (if open_ended first then 1 else 0))%nat.
Proof.
  intros first second Hb.
  rewrite !stamps_count, newlines_app, (open_ended_app first Hb). lia.
Qed.

End Chunk.

Lemma line_split_over_chunks_stamped_twice_witness :
  (List.length (stamped_writes (fun _ => "2025-11-28 14:05:49") "boot o")
   + List.length (stamped_writes (fun _ => "2025-11-28 14:05:49")
                    (String "k" (String newline "next")))
   = List.length (stamped_writes (fun _ => "2025-11-28 14:05:49")
                    ("boot o" ++ String "k" (String newline "next")))
     + (if open_ended "boot o" then 1 else 0))%nat.
Proof.
  apply line_split_over_chunks_stamped_twice. discriminate.
Defined.

End StampingFacts.
